(** * ContentCraft: the meeting-bot reconciliation engine

    A shallow embedding of the recording-bot life cycle of the repository:

    - the class [RecallService] of [server/services/oauthService.ts]
      ([getBotStatus], [getTranscript], [updateBotStatus], [processMeeting],
      [createBot]);
    - the methods of the class [DatabaseStorage] that the service and the
      routes call;
    - in [registerRoutes]: the route
      [PATCH /api/calendar-events/:id/toggle-recording], the route
      [POST /api/meetings/:id/fetch-transcript], the two bulk-delete routes
      and the background task started with [setInterval].

    Conventions.
    - An [async] function that can throw returns an [option]: [None] is a
      thrown exception.  A function whose body is wrapped in [try]/[catch]
      is total.
    - Provider answers are JSON documents, kept as the untyped [value]s the
      code probes.  Numbers are the integer-valued ones.
    - A string is a [string] in an encoding that keeps the ASCII characters
      and concatenation; the operations that depend on the UTF-16 code
      units of a JavaScript string, [trim] and [substring], are the
      runtime's.
    - The database is a record of tables; a table is the list of its rows.
      A query without [ORDER BY] returns the rows that match in an order
      the database chooses, which may change with every write: the row that
      [const [row] = await db.select()...] takes is given by [rowOrder].
      The background task visits the bots it has selected in the order of
      the list; where a calendar event has at most one bot, its iterations
      write to different bots and to meetings of different events.
      Statements that write are recorded in [log].
    - Time is in milliseconds since the epoch, as [Date.getTime] gives it;
      the time zone of the process is the runtime's.
    - The provider is asked anew at every request: its answer depends on
      the endpoint and on the number of requests the service call has made
      before, so that two requests of one call for the same endpoint may
      get different answers.
    - Requests and runs of the background task happen one after the other,
      and a statement sent to the database succeeds. *)

From Stdlib Require Import ZArith List String Ascii Bool Lia DecimalString.
Import ListNotations.

Local Open Scope string_scope.
Local Open Scope Z_scope.

Set Warnings "-register-all".

(** ** JavaScript values *)

Inductive value : Type :=
| JUndef
| JNull
| JBool (b : bool)
| JNum (n : Z)
| JStr (s : string)
| JArr (items : list value)
| JObj (fields : list (string * value)).

(** What the JavaScript platform, the database and its driver supply:
    parsing of a date string ([None] is the invalid date), printing of a
    number, the text the driver stores for a value put in a [text NOT NULL]
    column ([None] when the insert is rejected), and [x[x.length - 1].code]
    for an [x] that is neither an array nor [null] nor [undefined] ([None]
    when the expression throws);
    [String.prototype.trim], which leaves the empty string empty, and
    [String.prototype.substring];
    the abstract operations [LocalTime] and [UTC] of ECMAScript, which make
    a time value a local time and back in the time zone of the process;
    and, for a table, the number of writes made so far and the value
    looked for, which of the rows that match the database returns first
    (counted in the order of the list, the first one when there are not so
    many). *)
Class Runtime : Type := {
  Date_parse : string -> option Z;
  Number_toString : Z -> string;
  pgText : value -> option string;
  lastCodeOfNonArray : value -> option value;
  String_trim : string -> string;
  String_trim_empty : String_trim "" = "";
  String_substring : Z -> Z -> string -> string;
  LocalTime : Z -> Z;
  UTC : Z -> Z;
  rowOrder : string -> nat -> Z -> nat
}.

(** ToBoolean. *)
Definition truthy (v : value) : bool :=
  match v with
  | JUndef | JNull => false
  | JBool b => b
  | JNum n => negb (n =? 0)
  | JStr s => negb (s =? "")%string
  | JArr _ | JObj _ => true
  end.

Fixpoint lookupField (k : string) (fs : list (string * value)) : value :=
  match fs with
  | [] => JUndef
  | (k', v) :: r => if (k =? k')%string then v else lookupField k r
  end.

(** Member access [v.k] for the keys the service reads; [None] is the
    TypeError of reading a member of [null] or [undefined]. *)
Definition getProp (v : value) (k : string) : option value :=
  match v with
  | JUndef | JNull => None
  | JObj fs => Some (lookupField k fs)
  | _ => Some JUndef
  end.

(** Optional chaining [v?.k]. *)
Definition getPropOpt (v : value) (k : string) : value :=
  match getProp v k with
  | Some x => x
  | None => JUndef
  end.

Definition isArray (v : value) : bool :=
  match v with
  | JArr _ => true
  | _ => false
  end.

(** [a || b]. *)
Definition jsOr (a b : value) : value := if truthy a then a else b.

(** [v === s] for a string literal [s]. *)
Definition strictEqStr (v : value) (s : string) : bool :=
  match v with
  | JStr t => (t =? s)%string
  | _ => false
  end.

(** [l.includes(v)] for an array literal of strings. *)
Definition includes (l : list string) (v : value) : bool :=
  match v with
  | JStr t => existsb (String.eqb t) l
  | _ => false
  end.

Fixpoint joinStrings (sep : string) (l : list string) : string :=
  match l with
  | [] => ""
  | [x] => x
  | x :: r => x ++ sep ++ joinStrings sep r
  end.

Section Values.
Context {RT : Runtime}.

(** ToString. *)
Fixpoint toStringJS (v : value) : string :=
  match v with
  | JUndef => "undefined"
  | JNull => "null"
  | JBool true => "true"
  | JBool false => "false"
  | JNum n => Number_toString n
  | JStr s => s
  | JArr l =>
      joinStrings ","
        ((fix each (l : list value) : list string :=
            match l with
            | [] => []
            | x :: r =>
                match x with
                | JUndef | JNull => ""
                | _ => toStringJS x
                end :: each r
            end) l)
  | JObj _ => "[object Object]"
  end.

(** The string [Array.prototype.join] makes of one element. *)
Definition elementString (v : value) : string :=
  match v with
  | JUndef | JNull => ""
  | _ => toStringJS v
  end.

(** [l.join(sep)]. *)
Definition Array_join (sep : string) (l : list value) : string :=
  joinStrings sep (map elementString l).

(** [TimeClip]: a time value outside the range of [Date] is NaN. *)
Definition timeClip (t : Z) : option Z :=
  if Z.abs t <=? 8640000000000000 then Some t else None.

(** [new Date(v).getTime()]; [None] is NaN. *)
Definition newDate (v : value) : option Z :=
  match v with
  | JUndef => None
  | JNull => Some 0
  | JBool b => Some (if b then 1 else 0)
  | JNum n => timeClip n
  | JStr s => Date_parse s
  | JArr _ | JObj _ => Date_parse (toStringJS v)
  end.

(** [s.trim()] as a condition: the trimmed string is not empty. *)
Definition nonBlank (s : string) : bool :=
  negb (String_trim s =? "")%string.

End Values.

(** [(now - t) / (1000 * 60) < m], false when [t] is NaN.  The quotient of
    the two integers by the positive constant is below [m] exactly when the
    difference is below [m * 60000]. *)
Definition minutesSinceLt (now : Z) (t : option Z) (m : Z) : bool :=
  match t with
  | Some t => now - t <? m * (1000 * 60)
  | None => false
  end.

(** ** The database *)

(** The rows of the tables [calendar_events], [google_accounts], [settings],
    [recall_bots] and [meetings], with the columns that the toggle route,
    the service and the background task read or write.  Keys and foreign
    keys are integers, timestamps are time values, a nullable column is an
    [option]. *)

Record CalendarEvent : Type := {
  e_id : Z;
  e_googleAccountId : Z;
  e_title : string;
  e_startTime : Z;
  e_endTime : option Z;
  e_platform : option string;
  e_meetingLink : option string;
  e_attendees : value;
  e_isRecordingEnabled : bool
}.

Record GoogleAccount : Type := {
  g_id : Z;
  g_userId : Z
}.

Record Settings : Type := {
  s_userId : Z;
  s_botJoinMinutesBefore : Z
}.

Record RecallBot : Type := {
  b_id : Z;
  b_userId : Z;
  b_calendarEventId : Z;
  b_recallBotId : string;
  b_status : string;
  b_updatedAt : Z
}.

Record Meeting : Type := {
  m_id : Z;
  m_userId : Z;
  m_calendarEventId : Z;
  m_recallBotId : option Z;
  m_title : string;
  m_startTime : Z;
  m_endTime : option Z;
  m_platform : option string;
  m_transcript : option string;
  m_attendees : value;
  m_status : string;
  m_updatedAt : Z
}.

(** The [Partial<InsertMeeting>] objects passed to [updateMeeting]: a field
    that is [None] is absent from the object. *)
Record MeetingPatch : Type := {
  p_recallBotId : option Z;
  p_transcript : option string;
  p_status : option string
}.

(** The statements that write. *)
Inductive Write : Type :=
| W_updateCalendarEvent (id : Z) (isRecordingEnabled : bool)
| W_createRecallBot (row : RecallBot)
| W_updateRecallBot (id : Z) (status : string)
| W_createMeeting (row : Meeting)
| W_updateMeeting (id : Z) (data : MeetingPatch)
| W_deleteRecallBots
| W_deleteMeetings.

Record Store : Type := {
  calendarEvents : list CalendarEvent;
  googleAccounts : list GoogleAccount;
  settings : list Settings;
  recallBots : list RecallBot;
  meetings : list Meeting;
  nextBotId : Z;
  nextMeetingId : Z;
  log : list Write
}.

Definition withCalendarEvents (es : list CalendarEvent) (st : Store) : Store :=
  {| calendarEvents := es; googleAccounts := googleAccounts st;
     settings := settings st; recallBots := recallBots st;
     meetings := meetings st; nextBotId := nextBotId st;
     nextMeetingId := nextMeetingId st; log := log st |}.

Definition withRecallBots (bs : list RecallBot) (st : Store) : Store :=
  {| calendarEvents := calendarEvents st; googleAccounts := googleAccounts st;
     settings := settings st; recallBots := bs;
     meetings := meetings st; nextBotId := nextBotId st;
     nextMeetingId := nextMeetingId st; log := log st |}.

Definition withMeetings (ms : list Meeting) (st : Store) : Store :=
  {| calendarEvents := calendarEvents st; googleAccounts := googleAccounts st;
     settings := settings st; recallBots := recallBots st;
     meetings := ms; nextBotId := nextBotId st;
     nextMeetingId := nextMeetingId st; log := log st |}.

Definition logged (w : Write) (st : Store) : Store :=
  {| calendarEvents := calendarEvents st; googleAccounts := googleAccounts st;
     settings := settings st; recallBots := recallBots st;
     meetings := meetings st; nextBotId := nextBotId st;
     nextMeetingId := nextMeetingId st; log := log st ++ [w] |}.

(** The tables the reconciliation engine does not write: calendar sync,
    account linking and the settings routes replace them. *)
Definition withOtherTables (es : list CalendarEvent) (gs : list GoogleAccount)
    (ss : list Settings) (st : Store) : Store :=
  {| calendarEvents := es; googleAccounts := gs; settings := ss;
     recallBots := recallBots st; meetings := meetings st;
     nextBotId := nextBotId st; nextMeetingId := nextMeetingId st;
     log := log st |}.

(** A database in which no bot and no meeting was created yet. *)
Definition emptyStore (es : list CalendarEvent) (gs : list GoogleAccount)
    (ss : list Settings) : Store :=
  {| calendarEvents := es; googleAccounts := gs; settings := ss;
     recallBots := []; meetings := [];
     nextBotId := 1; nextMeetingId := 1; log := [] |}.

(** *** Storage methods

    [const [row] = await db.select()...where(...)] is the first of the rows
    that match, in the order in which the database returns them.  A lookup
    on a primary key or on a column that is [unique] has at most one row to
    return, found with [find]; a lookup on the calendar event of a bot or of
    a meeting can have several, and [firstRow] takes the one the database
    returns first.  [update ... returning] changes every row that matches
    and gives the first of them back. *)

(** The row that comes first when the database returns [rows] starting with
    the one at position [n]. *)
Definition firstRow {A : Type} (n : nat) (rows : list A) : option A :=
  match rows with
  | [] => None
  | row :: _ => Some (nth n rows row)
  end.

Definition getCalendarEvent (st : Store) (id : Z) : option CalendarEvent :=
  find (fun e => e_id e =? id) (calendarEvents st).

Definition getGoogleAccount (st : Store) (id : Z) : option GoogleAccount :=
  find (fun g => g_id g =? id) (googleAccounts st).

Definition getSettings (st : Store) (userId : Z) : option Settings :=
  find (fun s => s_userId s =? userId) (settings st).

Definition setRecording (flag : bool) (e : CalendarEvent) : CalendarEvent :=
  {| e_id := e_id e; e_googleAccountId := e_googleAccountId e;
     e_title := e_title e; e_startTime := e_startTime e;
     e_endTime := e_endTime e; e_platform := e_platform e;
     e_meetingLink := e_meetingLink e; e_attendees := e_attendees e;
     e_isRecordingEnabled := flag |}.

Definition updateCalendarEvent (id : Z) (isRecordingEnabled : bool)
    (st : Store) : option CalendarEvent * Store :=
  let es := map (fun e => if e_id e =? id then setRecording isRecordingEnabled e
                          else e) (calendarEvents st) in
  (find (fun e => e_id e =? id) es,
   logged (W_updateCalendarEvent id isRecordingEnabled)
     (withCalendarEvents es st)).

Definition getRecallBot (st : Store) (id : Z) : option RecallBot :=
  find (fun b => b_id b =? id) (recallBots st).

Definition getRecallBotByCalendarEventId {RT : Runtime} (st : Store)
    (calendarEventId : Z) : option RecallBot :=
  firstRow (rowOrder "recall_bots" (List.length (log st)) calendarEventId)
    (filter (fun b => b_calendarEventId b =? calendarEventId)
       (recallBots st)).

(** [createRecallBot({userId, calendarEventId, recallBotId, status})]: the
    row gets the next value of the [serial] key. *)
Definition createRecallBot (userId calendarEventId : Z)
    (recallBotId status : string) (now : Z) (st : Store) : RecallBot * Store :=
  let row := {| b_id := nextBotId st; b_userId := userId;
                b_calendarEventId := calendarEventId;
                b_recallBotId := recallBotId; b_status := status;
                b_updatedAt := now |} in
  (row,
   {| calendarEvents := calendarEvents st; googleAccounts := googleAccounts st;
      settings := settings st; recallBots := recallBots st ++ [row];
      meetings := meetings st; nextBotId := nextBotId st + 1;
      nextMeetingId := nextMeetingId st;
      log := log st ++ [W_createRecallBot row] |}).

Definition setBotStatus (status : string) (now : Z) (b : RecallBot) : RecallBot :=
  {| b_id := b_id b; b_userId := b_userId b;
     b_calendarEventId := b_calendarEventId b;
     b_recallBotId := b_recallBotId b; b_status := status;
     b_updatedAt := now |}.

(** [updateRecallBot(id, { status })]. *)
Definition updateRecallBot (id : Z) (status : string) (now : Z) (st : Store)
    : option RecallBot * Store :=
  let bs := map (fun b => if b_id b =? id then setBotStatus status now b else b)
                (recallBots st) in
  (find (fun b => b_id b =? id) bs,
   logged (W_updateRecallBot id status) (withRecallBots bs st)).

Definition getMeeting (st : Store) (id : Z) : option Meeting :=
  find (fun m => m_id m =? id) (meetings st).

Definition getMeetingByCalendarEventId {RT : Runtime} (st : Store)
    (calendarEventId : Z) : option Meeting :=
  firstRow (rowOrder "meetings" (List.length (log st)) calendarEventId)
    (filter (fun m => m_calendarEventId m =? calendarEventId)
       (meetings st)).

(** [createMeeting] as the toggle route calls it: no transcript, no bot. *)
Definition createMeeting (userId calendarEventId : Z) (title : string)
    (startTime : Z) (endTime : option Z) (platform : option string)
    (attendees : value) (status : string) (now : Z) (st : Store)
    : Meeting * Store :=
  let row := {| m_id := nextMeetingId st; m_userId := userId;
                m_calendarEventId := calendarEventId; m_recallBotId := None;
                m_title := title; m_startTime := startTime;
                m_endTime := endTime; m_platform := platform;
                m_transcript := None; m_attendees := attendees;
                m_status := status; m_updatedAt := now |} in
  (row,
   {| calendarEvents := calendarEvents st; googleAccounts := googleAccounts st;
      settings := settings st; recallBots := recallBots st;
      meetings := meetings st ++ [row]; nextBotId := nextBotId st;
      nextMeetingId := nextMeetingId st + 1;
      log := log st ++ [W_createMeeting row] |}).

Definition orElse {A : Type} (o : option A) (d : A) : A :=
  match o with
  | Some x => x
  | None => d
  end.

Definition applyPatch (data : MeetingPatch) (now : Z) (m : Meeting) : Meeting :=
  {| m_id := m_id m; m_userId := m_userId m;
     m_calendarEventId := m_calendarEventId m;
     m_recallBotId := match p_recallBotId data with
                      | Some b => Some b
                      | None => m_recallBotId m
                      end;
     m_title := m_title m; m_startTime := m_startTime m;
     m_endTime := m_endTime m; m_platform := m_platform m;
     m_transcript := match p_transcript data with
                     | Some t => Some t
                     | None => m_transcript m
                     end;
     m_attendees := m_attendees m;
     m_status := orElse (p_status data) (m_status m);
     m_updatedAt := now |}.

Definition updateMeeting (id : Z) (data : MeetingPatch) (now : Z) (st : Store)
    : option Meeting * Store :=
  let ms := map (fun m => if m_id m =? id then applyPatch data now m else m)
                (meetings st) in
  (find (fun m => m_id m =? id) ms,
   logged (W_updateMeeting id data) (withMeetings ms st)).

Definition clearBotLink (m : Meeting) : Meeting :=
  {| m_id := m_id m; m_userId := m_userId m;
     m_calendarEventId := m_calendarEventId m; m_recallBotId := None;
     m_title := m_title m; m_startTime := m_startTime m;
     m_endTime := m_endTime m; m_platform := m_platform m;
     m_transcript := m_transcript m; m_attendees := m_attendees m;
     m_status := m_status m; m_updatedAt := m_updatedAt m |}.

(** [db.delete(recallBots)]; the foreign key of [meetings] is
    [ON DELETE set null]. *)
Definition deleteAllRecallBots (st : Store) : Store :=
  logged W_deleteRecallBots
    (withMeetings (map clearBotLink (meetings st)) (withRecallBots [] st)).

(** [db.delete(meetings)]. *)
Definition deleteAllMeetings (st : Store) : Store :=
  logged W_deleteMeetings (withMeetings [] st).

(** ** The provider *)

(** The body of [POST /bot]; the transcription options and the recording
    mode are constants of the code. *)
Record BotData : Type := {
  bot_name : string;
  meeting_url : string;
  join_at : Z
}.

(** The provider during one service call: what [request] returns for the
    [GET] of an endpoint when the call has made [n] requests before, and
    for the [POST] that creates a bot.  [None] is a thrown error (network
    failure, a status that is not 2xx, a body that is not JSON). *)
Record Provider : Type := {
  GET : nat -> string -> option value;
  POST_bot : BotData -> option value
}.

(** ** RecallService *)

Section Service.
Context {RT : Runtime}.

(** [getBotStatus(botId)] as the request number [n] of the call: logs and
    rethrows. *)
Definition getBotStatus (p : Provider) (n : nat) (botId : string)
    : option value :=
  GET p n ("/bot/" ++ botId).

(** [userSettings?.botJoinMinutesBefore || 5]. *)
Definition joinMinutesBefore (userSettings : option Settings) : Z :=
  match userSettings with
  | Some s => if s_botJoinMinutesBefore s =? 0 then 5
              else s_botJoinMinutesBefore s
  | None => 5
  end.

(** [d = new Date(t); d.setMinutes(d.getMinutes() - m)]: the minutes are
    those of the local time, and the new local time, [m] minutes earlier,
    is made a time value again; [None] is the invalid date. *)
Definition minusMinutes (t m : Z) : option Z :=
  timeClip (UTC (LocalTime t - m * 60000)).

(** [createBot(calendarEvent, userId)]. *)
Definition createBot (p : Provider) (now : Z) (calendarEvent : CalendarEvent)
    (userId : Z) (st : Store) : option (RecallBot * Store) :=
  match e_meetingLink calendarEvent with
  | None => None
  | Some meetingUrl =>
      if (meetingUrl =? "")%string then None
      else
        let userSettings := getSettings st userId in
        match minusMinutes (e_startTime calendarEvent)
                (joinMinutesBefore userSettings) with
        | None => None
        | Some joinAt =>
            let botData :=
              {| bot_name := "Meeting: " ++ e_title calendarEvent;
                 meeting_url := meetingUrl;
                 join_at := joinAt |} in
            match POST_bot p botData with
            | None => None
            | Some recallBot =>
                match getProp recallBot "id" with
                | None => None
                | Some id =>
                    match pgText id with
                    | None => None
                    | Some recallBotId =>
                        Some (createRecallBot userId (e_id calendarEvent)
                                recallBotId "scheduled" now st)
                    end
                end
            end
        end
  end.

(** [segment.text || segment.content || segment.transcript || ''];
    [None] when [segment] is [null]. *)
Definition segmentText (segment : value) : option value :=
  match getProp segment "text", getProp segment "content",
        getProp segment "transcript" with
  | Some t, Some c, Some tr => Some (jsOr (jsOr (jsOr t c) tr) (JStr ""))
  | _, _, _ => None
  end.

(** [segments.map(segmentText)]; [None] when one of the calls throws. *)
Fixpoint mapSegments (segments : list value) : option (list value) :=
  match segments with
  | [] => Some []
  | x :: r =>
      match segmentText x, mapSegments r with
      | Some y, Some ys => Some (y :: ys)
      | _, _ => None
      end
  end.

(** The text of an array of segments, when [trim] does not empty it. *)
Definition segmentsTranscript (segments : list value) : option (option value) :=
  match mapSegments segments with
  | None => None
  | Some texts =>
      let fullTranscript := Array_join " " texts in
      if nonBlank fullTranscript then Some (Some (JStr fullTranscript))
      else Some None
  end.

(** The body of the loop of [getTranscript] after [request] returned
    [response]: [Some v] when the function returns [v], [None] when the loop
    goes on to the next endpoint (no shape matched, or a TypeError was
    caught). *)
Definition probeShapes (response : value) : option value :=
  if negb (truthy response) then None
  else
    match response with
    | JStr _ => Some response
    | _ =>
        let transcript := getPropOpt response "transcript" in
        let text := getPropOpt response "text" in
        let content := getPropOpt response "content" in
        if truthy transcript then Some transcript
        else if truthy text then Some text
        else if truthy content then Some content
        else
          let fromArray :=
            match response with
            | JArr segments => segmentsTranscript segments
            | _ => Some None
            end in
          match fromArray with
          | None => None
          | Some (Some t) => Some t
          | Some None =>
              let data := getPropOpt response "data" in
              if truthy data then
                match data with
                | JStr _ => Some data
                | JArr segments =>
                    match segmentsTranscript segments with
                    | Some (Some t) => Some t
                    | _ => None
                    end
                | _ => None
                end
              else None
          end
    end.

(** The loop over the endpoints, the first of them being the request
    number [n] of the call: the value of the first one whose answer has a
    shape that is returned ([JNull] when there is none), and the endpoints
    requested, in order. *)
Fixpoint probeEndpoints (p : Provider) (n : nat) (endpoints : list string)
    : value * list string :=
  match endpoints with
  | [] => (JNull, [])
  | endpoint :: rest =>
      let next := probeEndpoints p (S n) rest in
      match GET p n endpoint with
      | None => (fst next, endpoint :: snd next)
      | Some response =>
          match probeShapes response with
          | Some v => (v, [endpoint])
          | None => (fst next, endpoint :: snd next)
          end
      end
  end.

Definition transcriptEndpoints (botId : string) (recording : value)
    : list string :=
  [ "/bot/" ++ botId ++ "/transcript";
    "/bot/" ++ botId ++ "/transcript/";
    "/recording/" ++ toStringJS (getPropOpt recording "id") ++ "/transcript" ].

(** [recordings[0]] of a snapshot that has a non-empty array of recordings. *)
Definition firstRecording (botStatus : value) : option value :=
  match getProp botStatus "recordings" with
  | Some (JArr (recording :: _)) => Some recording
  | _ => None
  end.

(** [getTranscript(botId)], its status request being the request number
    [n] of the call: the value returned ([JNull] for [null]) and the
    endpoints requested, in order. *)
Definition getTranscript (p : Provider) (n : nat) (botId : string)
    : value * list string :=
  let statusEndpoint := "/bot/" ++ botId in
  match getBotStatus p n botId with
  | None => (JNull, [statusEndpoint])
  | Some botStatus =>
      match firstRecording botStatus with
      | None => (JNull, [statusEndpoint])
      | Some recording =>
          match getProp recording "transcription_completed_at" with
          | None => (JNull, [statusEndpoint])
          | Some completedAt =>
              if negb (truthy completedAt) then (JNull, [statusEndpoint])
              else
                let probed :=
                  probeEndpoints p (S n)
                    (transcriptEndpoints botId recording) in
                (fst probed, statusEndpoint :: snd probed)
          end
      end
  end.

(** The mapping of the provider's code to the bot status, with the current
    status when no case applies. *)
Definition mapStatus (latestStatus : value) (current : string) : string :=
  if strictEqStr latestStatus "ready" then "scheduled"
  else if includes ["joining_call"; "in_waiting_room"] latestStatus
  then "joining"
  else if includes ["in_call_not_recording"; "in_call_recording"] latestStatus
  then "recording"
  else if includes ["call_ended"; "recording_done"; "done"] latestStatus
  then "completed"
  else if includes ["failed"; "error"] latestStatus then "failed"
  else current.

(** [botStatus.status_changes[botStatus.status_changes.length - 1].code]
    behind the guard of [updateBotStatus]: [None] when the guard returns or
    the member access throws. *)
Definition latestCode (botStatus : value) : option value :=
  match getProp botStatus "status_changes" with
  | Some (JArr (c :: cs)) => getProp (last cs c) "code"
  | _ => None
  end.

(** [updateBotStatus(recallBot)]: the bot it returns ([None] is the
    [undefined] of an update that matched no row) and the database. *)
Definition updateBotStatus (p : Provider) (now : Z) (recallBot : RecallBot)
    (st : Store) : option RecallBot * Store :=
  match getBotStatus p 0 (b_recallBotId recallBot) with
  | None => (Some recallBot, st)
  | Some botStatus =>
      match latestCode botStatus with
      | None => (Some recallBot, st)
      | Some latestStatus =>
          let status := mapStatus latestStatus (b_status recallBot) in
          if negb (status =? b_status recallBot)%string
          then updateRecallBot (b_id recallBot) status now st
          else (Some recallBot, st)
      end
  end.

(** The same expression in [processMeeting], which has no guard. *)
Definition latestCodeUnguarded (botStatus : value) : option value :=
  match getProp botStatus "status_changes" with
  | None | Some JUndef | Some JNull => None
  | Some (JArr []) => None
  | Some (JArr (c :: cs)) => getProp (last cs c) "code"
  | Some x => lastCodeOfNonArray x
  end.

(** The gates of [processMeeting] between the read of the snapshot and the
    call of [getTranscript]: [Some true] when the fetch is attempted,
    [Some false] when the function returns before, [None] when it throws. *)
Definition readyToFetch (now : Z) (botStatus : value) : option bool :=
  match latestCodeUnguarded botStatus with
  | None => None
  | Some latestStatus =>
      if negb (includes ["done"; "recording_done"; "call_ended"] latestStatus)
      then Some false
      else
        match getProp botStatus "recordings" with
        | Some (JArr (recording :: _)) =>
            match getProp recording "transcription_completed_at",
                  getProp recording "completed_at" with
            | Some transcriptionCompletedAt, Some recordingCompletedAt =>
                if strictEqStr
                     (getPropOpt (getPropOpt botStatus "transcription_options")
                        "provider") "none"
                then Some false
                else if truthy transcriptionCompletedAt
                then Some (negb (minutesSinceLt now
                                   (newDate transcriptionCompletedAt) 2))
                else Some (negb (minutesSinceLt now
                                   (newDate recordingCompletedAt) 5))
            | _, _ => None
            end
        | _ => Some false
        end
  end.

Definition hasTranscript (m : Meeting) : bool :=
  match m_transcript m with
  | Some t => negb (t =? "")%string
  | None => false
  end.

Definition transcriptPatch (transcript : string) : MeetingPatch :=
  {| p_recallBotId := None; p_transcript := Some transcript;
     p_status := Some "completed" |}.

(** [processMeeting(recallBot)]: the status is requested first, and
    [getTranscript] requests it again.  A value that [getTranscript] returns
    and that is not a string has no [trim], or is falsy. *)
Definition processMeeting (p : Provider) (now : Z) (recallBot : RecallBot)
    (st : Store) : Store :=
  if negb (b_status recallBot =? "completed")%string then st
  else
    match getMeetingByCalendarEventId st (b_calendarEventId recallBot) with
    | None => st
    | Some meeting =>
        if hasTranscript meeting then st
        else
          match getBotStatus p 0 (b_recallBotId recallBot) with
          | None => st
          | Some botStatus =>
              match readyToFetch now botStatus with
              | Some true =>
                  match fst (getTranscript p 1 (b_recallBotId recallBot)) with
                  | JStr transcript =>
                      if truthy (JStr transcript) && nonBlank transcript
                      then snd (updateMeeting (m_id meeting)
                                  (transcriptPatch transcript) now st)
                      else st
                  | _ => st
                  end
              | _ => st
              end
          end
    end.

End Service.

(** ** The routes and the background task *)

Section Routes.
Context {RT : Runtime}.

Definition failedPatch : MeetingPatch :=
  {| p_recallBotId := None;
     p_transcript := Some "Failed to create recording bot";
     p_status := Some "failed" |}.

Definition linkPatch (botId : Z) : MeetingPatch :=
  {| p_recallBotId := Some botId; p_transcript := None; p_status := None |}.

Definition statusPatch (status : string) : MeetingPatch :=
  {| p_recallBotId := None; p_transcript := None; p_status := Some status |}.

(** [joinTime > new Date()], false when [joinTime] is the invalid date. *)
Definition laterThan (joinTime : option Z) (now : Z) : bool :=
  match joinTime with
  | Some t => t >? now
  | None => false
  end.

(** The block of the toggle route under [if (isRecordingEnabled && eventId)];
    [event] is the row read before the flag was written. *)
Definition setupRecording (p : Provider) (now : Z) (sessionUserId : Z)
    (event : CalendarEvent) (eventId : Z) (st : Store) : Store :=
  match getRecallBotByCalendarEventId st eventId with
  | Some _ => st
  | None =>
      let userSettings := getSettings st sessionUserId in
      let joinTime := minusMinutes (e_startTime event)
                        (joinMinutesBefore userSettings) in
      if laterThan joinTime now then
        let (meeting, st1) :=
          createMeeting sessionUserId eventId (e_title event)
            (e_startTime event) (e_endTime event) (e_platform event)
            (e_attendees event) "scheduled" now st in
        match createBot p now event sessionUserId st1 with
        | Some (bot, st2) =>
            snd (updateMeeting (m_id meeting) (linkPatch (b_id bot)) now st2)
        | None =>
            snd (updateMeeting (m_id meeting) failedPatch now st1)
        end
      else st
  end.

(** [PATCH /api/calendar-events/:id/toggle-recording], for a request whose
    id is a number and whose flag is a boolean. *)
Definition toggleRecording (p : Provider) (now : Z) (sessionUserId eventId : Z)
    (isRecordingEnabled : bool) (st : Store) : Store :=
  match getCalendarEvent st eventId with
  | None => st
  | Some event =>
      match getGoogleAccount st (e_googleAccountId event) with
      | None => st
      | Some googleAccount =>
          if negb (g_userId googleAccount =? sessionUserId) then st
          else
            let st1 := snd (updateCalendarEvent eventId isRecordingEnabled st) in
            if isRecordingEnabled && negb (eventId =? 0)
            then setupRecording p now sessionUserId event eventId st1
            else st1
      end
  end.

(** The meeting status the sweep derives from the bot status. *)
Definition propagate (botStatus current : string) : string :=
  if (botStatus =? "joined")%string then "in_progress"
  else if (botStatus =? "recording")%string then "in_progress"
  else if (botStatus =? "completed")%string then "completed"
  else if (botStatus =? "failed")%string then "failed"
  else current.

(** One iteration of the first loop of the background task. *)
Definition sweepBot (p : Provider) (now : Z) (bot : RecallBot) (st : Store)
    : Store :=
  let oldStatus := b_status bot in
  let (updated, st1) := updateBotStatus p now bot st in
  match updated with
  | None => st1
  | Some updatedBot =>
      if negb (b_status updatedBot =? oldStatus)%string then
        match getMeetingByCalendarEventId st1 (b_calendarEventId bot) with
        | Some meeting =>
            let meetingStatus :=
              propagate (b_status updatedBot) (m_status meeting) in
            if negb (meetingStatus =? m_status meeting)%string
            then snd (updateMeeting (m_id meeting) (statusPatch meetingStatus)
                        now st1)
            else st1
        | None => st1
        end
      else st1
  end.

Definition isActive (b : RecallBot) : bool :=
  existsb (String.eqb (b_status b))
    ["scheduled"; "joined"; "joining"; "recording"].

Definition isCompleted (b : RecallBot) : bool :=
  (b_status b =? "completed")%string.

(** The first loop: the bots that were active when the task started. *)
Definition sweepStatuses (p : Provider) (now : Z) (st : Store) : Store :=
  fold_left (fun s bot => sweepBot p now bot s)
    (filter isActive (recallBots st)) st.

(** The second loop: the bots that are completed after the first loop. *)
Definition sweepTranscripts (p : Provider) (now : Z) (st : Store) : Store :=
  fold_left (fun s bot => processMeeting p now bot s)
    (filter isCompleted (recallBots st)) st.

(** One run of the background task. *)
Definition sweep (p : Provider) (now : Z) (st : Store) : Store :=
  sweepTranscripts p now (sweepStatuses p now st).

(** [POST /api/meetings/:id/fetch-transcript]. *)
Definition fetchTranscript (p : Provider) (now : Z) (sessionUserId meetingId : Z)
    (st : Store) : Store :=
  match getMeeting st meetingId with
  | None => st
  | Some meeting =>
      if negb (m_userId meeting =? sessionUserId) then st
      else
        match m_recallBotId meeting with
        | None => st
        | Some botId =>
            if botId =? 0 then st
            else
              match getRecallBot st botId with
              | None => st
              | Some bot => processMeeting p now bot st
              end
        end
  end.

(** The databases the application can be in: it starts with no bot and no
    meeting, and every request and every run of the task is a step. *)
Inductive reachable : Store -> Prop :=
| reach_empty es gs ss : reachable (emptyStore es gs ss)
| reach_other es gs ss st :
    reachable st -> reachable (withOtherTables es gs ss st)
| reach_toggle p now sessionUserId eventId flag st :
    reachable st ->
    reachable (toggleRecording p now sessionUserId eventId flag st)
| reach_sweep p now st :
    reachable st -> reachable (sweep p now st)
| reach_fetch p now sessionUserId meetingId st :
    reachable st ->
    reachable (fetchTranscript p now sessionUserId meetingId st)
| reach_deleteBots st :
    reachable st -> reachable (deleteAllRecallBots st)
| reach_deleteMeetings st :
    reachable st -> reachable (deleteAllMeetings st).

(** A sequence of runs of the background task, each with the provider
    snapshot and the clock it sees. *)
Definition sweeps (runs : list (Provider * Z)) (st : Store) : Store :=
  fold_left (fun s run => sweep (fst run) (snd run) s) runs st.

End Routes.

(** ** Sample data *)

(** The strings of the examples have one character for each code unit, all
    of them below 256.  The white space and the line terminators that
    [trim] removes are then the code units 9 to 13, 32 and 160. *)
Definition isSpace (a : ascii) : bool :=
  let n := N_of_ascii a in
  ((9 <=? n) && (n <=? 13) || (n =? 32) || (n =? 160))%N.

Fixpoint trimStart (s : string) : string :=
  match s with
  | EmptyString => EmptyString
  | String a r => if isSpace a then trimStart r else s
  end.

Fixpoint revString (acc s : string) : string :=
  match s with
  | EmptyString => acc
  | String a r => revString (String a acc) r
  end.

Definition trim (s : string) : string :=
  revString "" (trimStart (revString "" (trimStart s))).

(** [s.substring(from, to)] on such a string: an argument below 0 counts as
    0, and the two are swapped when the first is the greater. *)
Definition substringJS (from to : Z) (s : string) : string :=
  let a := Z.max 0 from in
  let b := Z.max 0 to in
  substring (Z.to_nat (Z.min a b)) (Z.to_nat (Z.max a b - Z.min a b)) s.

(** A runtime for the examples: two ISO dates, decimal numbers, string and
    number ids, the last character of a string (which has no [code]),
    strings of code units below 256, the time zone UTC, and a database that
    returns rows in the order of the list. *)
Definition sampleRuntime : Runtime :=
  {| Date_parse := fun s =>
       if (s =? "2024-06-01T15:00:00Z")%string then Some 1717254000000
       else if (s =? "2024-06-01T16:00:00Z")%string then Some 1717257600000
       else None;
     Number_toString := fun n => NilZero.string_of_int (Z.to_int n);
     pgText := fun v =>
       match v with
       | JStr s => Some s
       | JNum n => Some (NilZero.string_of_int (Z.to_int n))
       | _ => None
       end;
     lastCodeOfNonArray := fun v =>
       match v with
       | JStr s => if (s =? "")%string then None else Some JUndef
       | _ => None
       end;
     String_trim := trim;
     String_trim_empty := eq_refl;
     String_substring := substringJS;
     LocalTime := fun t => t;
     UTC := fun t => t;
     rowOrder := fun _ _ _ => 0%nat |}.

Definition sampleEvent : CalendarEvent :=
  {| e_id := 1; e_googleAccountId := 1; e_title := "Kickoff";
     e_startTime := 1717254000000; e_endTime := Some 1717257600000;
     e_platform := Some "zoom";
     e_meetingLink := Some "https://zoom.us/j/1";
     e_attendees := JArr []; e_isRecordingEnabled := false |}.

Definition sampleAccount : GoogleAccount := {| g_id := 1; g_userId := 7 |}.

Definition sampleSettings : Settings :=
  {| s_userId := 7; s_botJoinMinutesBefore := 10 |}.

Definition store0 : Store :=
  emptyStore [sampleEvent] [sampleAccount] [sampleSettings].

(** A snapshot whose latest status change has the given code. *)
Definition snapshotWithCode (code : string) : value :=
  JObj [("status_changes",
         JArr [JObj [("code", JStr "ready")]; JObj [("code", JStr code)]])].

(** A provider that refuses to create bots and answers every status request
    with the given snapshot. *)
Definition providerOf (botStatus : value) : Provider :=
  {| GET := fun _ endpoint =>
       if (endpoint =? "/bot/rb-1")%string then Some botStatus else None;
     POST_bot := fun _ => None |}.

(** A provider that creates the bot [rb-1]. *)
Definition providerOk : Provider :=
  {| GET := fun _ _ => None;
     POST_bot := fun _ => Some (JObj [("id", JStr "rb-1")]) |}.

Definition providerDown : Provider :=
  {| GET := fun _ _ => None; POST_bot := fun _ => None |}.

Definition t0 : Z := 1717000000000.

(** Recording is enabled once while the provider is down. *)
Definition storeFailed : Store :=
  toggleRecording (RT := sampleRuntime) providerDown t0 7 1 true store0.

(** It is enabled again, and the provider creates the bot. *)
Definition storeRetried : Store :=
  toggleRecording (RT := sampleRuntime) providerOk t0 7 1 true storeFailed.

(** It is enabled while the provider is up. *)
Definition storeScheduled : Store :=
  toggleRecording (RT := sampleRuntime) providerOk t0 7 1 true store0.

(** The bot of [storeScheduled], with a status. *)
Definition sampleBot (status : string) : RecallBot :=
  {| b_id := 1; b_userId := 7; b_calendarEventId := 1;
     b_recallBotId := "rb-1"; b_status := status; b_updatedAt := t0 |}.

(** The provider reports [done] before it lists a recording: the bot and the
    meeting are completed, and there is no transcript yet. *)
Definition storeCompleted : Store :=
  sweep (RT := sampleRuntime) (providerOf (snapshotWithCode "done")) t0
    storeScheduled.

(** A snapshot of a finished call: one recording, transcribed at 16:00. *)
Definition snapshotDone (more : list (string * value)) : value :=
  JObj ([("status_changes", JArr [JObj [("code", JStr "done")]]);
         ("recordings",
          JArr [JObj [("id", JStr "rec-1");
                      ("completed_at", JStr "2024-06-01T15:00:00Z");
                      ("transcription_completed_at",
                       JStr "2024-06-01T16:00:00Z")]])] ++ more).

(** A snapshot of a finished call whose recording is not transcribed. *)
Definition snapshotUntranscribed : value :=
  JObj [("status_changes", JArr [JObj [("code", JStr "done")]]);
        ("recordings",
         JArr [JObj [("id", JStr "rec-1");
                     ("completed_at", JStr "2024-06-01T15:00:00Z")]])].

(** A provider with that bot and a transcript at the first endpoint. *)
Definition providerWithTranscript (botStatus body : value) : Provider :=
  {| GET := fun _ endpoint =>
       if (endpoint =? "/bot/rb-1")%string then Some botStatus
       else if (endpoint =? "/bot/rb-1/transcript")%string then Some body
       else None;
     POST_bot := fun _ => None |}.

(** A provider whose transcription is completed between the two status
    requests of a call: the first is answered with [before], the later
    ones with [after]. *)
Definition providerTranscribing (before after body : value) : Provider :=
  {| GET := fun n endpoint =>
       if (endpoint =? "/bot/rb-1")%string
       then Some (match n with O => before | S _ => after end)
       else if (endpoint =? "/bot/rb-1/transcript")%string then Some body
       else None;
     POST_bot := fun _ => None |}.


(** 16:01 and 16:10 on the day of the call. *)
Definition t1601 : Z := 1717257660000.
Definition t1610 : Z := 1717258200000.

(** The bot of [storeScheduled] is seen in the call. *)
Definition storeRecording : Store :=
  sweep (RT := sampleRuntime)
    (providerOf (snapshotWithCode "in_call_recording")) t0 storeScheduled.

(** The transcript of [storeCompleted] is fetched at 16:10. *)
Definition storeTranscribed : Store :=
  sweep (RT := sampleRuntime)
    (providerWithTranscript (snapshotDone []) (JStr "Hello")) t1610
    storeCompleted.

(** ** Statements *)

(** *** The orders of the statuses *)

(** The order of the bot statuses: [scheduled], then [joining], then
    [recording], then the terminal ones. *)
Definition botRank (status : string) : Z :=
  if (status =? "scheduled")%string then 0
  else if (status =? "joining")%string then 1
  else if (status =? "recording")%string then 2
  else if (status =? "completed")%string then 3
  else if (status =? "failed")%string then 3
  else 0.

(** The order of the meeting statuses. *)
Definition meetingRank (status : string) : Z :=
  if (status =? "scheduled")%string then 0
  else if (status =? "in_progress")%string then 1
  else if (status =? "completed")%string then 2
  else if (status =? "failed")%string then 2
  else 0.

(** The statuses after which nothing more is to happen. *)
Definition isTerminal (status : string) : Prop :=
  status = "completed" \/ status = "failed".

(** *** The status mapping *)

(** The table of the specification, as a second definition: the status for
    a recognised code. *)
Definition statusTable (code : string) : option string :=
  if (code =? "ready")%string then Some "scheduled"
  else if (code =? "joining_call")%string then Some "joining"
  else if (code =? "in_waiting_room")%string then Some "joining"
  else if (code =? "in_call_not_recording")%string then Some "recording"
  else if (code =? "in_call_recording")%string then Some "recording"
  else if (code =? "call_ended")%string then Some "completed"
  else if (code =? "recording_done")%string then Some "completed"
  else if (code =? "done")%string then Some "completed"
  else if (code =? "failed")%string then Some "failed"
  else if (code =? "error")%string then Some "failed"
  else None.

(** The status of the table for a code of any type: only strings are
    recognised. *)
Definition codeStatus (code : value) : option string :=
  match code with
  | JStr c => statusTable c
  | _ => None
  end.

(** The snapshot has no usable list of status changes: the snapshot is
    [null], or the list is missing, is not an array, or is empty. *)
Definition noStatusChanges (botStatus : value) : Prop :=
  match getProp botStatus "status_changes" with
  | None => True
  | Some changes =>
      truthy changes = false \/ isArray changes = false \/ changes = JArr []
  end.

(** The code [updateBotStatus] reads for a bot: the latest one of the
    snapshot, when the request succeeds and the snapshot has one. *)
Definition observedCode (p : Provider) (b : RecallBot) : option value :=
  match getBotStatus p 0 (b_recallBotId b) with
  | Some botStatus => latestCode botStatus
  | None => None
  end.

(** The status [updateBotStatus] writes for a bot, when it writes one: the
    status mapped from the observed code, if it is not the current one. *)
Definition statusChange (p : Provider) (b : RecallBot) : option string :=
  match observedCode p b with
  | Some latestStatus =>
      let status := mapStatus latestStatus (b_status b) in
      if (status =? b_status b)%string then None else Some status
  | None => None
  end.

(** What a stored bot becomes when [updateBotStatus] is called on it. *)
Definition polled (p : Provider) (now : Z) (b : RecallBot) : RecallBot :=
  match statusChange p b with
  | Some status => setBotStatus status now b
  | None => b
  end.

(** What one iteration of the first loop does to a row of the bots. *)
Definition stepRow (p : Provider) (now : Z) (a r : RecallBot) : RecallBot :=
  match statusChange p a with
  | Some status => if b_id r =? b_id a then setBotStatus status now r else r
  | None => r
  end.

(** *** Transcripts *)

(** The snapshot has no recording whose transcription is completed: no
    array of recordings, an empty one, or a first recording without
    [transcription_completed_at]. *)
Definition transcriptionPending (botStatus : value) : Prop :=
  match firstRecording botStatus with
  | None => True
  | Some recording =>
      truthy (getPropOpt recording "transcription_completed_at") = false
  end.


(** An endpoint that gives nothing when it is the request number [n] of
    the call: the request fails, or no shape of the answer is returned. *)
Definition givesNothing {RT : Runtime} (p : Provider) (n : nat)
    (endpoint : string) : Prop :=
  match GET p n endpoint with
  | None => True
  | Some response => probeShapes response = None
  end.

(** Endpoints requested one after the other from the request number [n] on,
    each of which gives nothing. *)
Fixpoint giveNothing {RT : Runtime} (p : Provider) (n : nat)
    (endpoints : list string) : Prop :=
  match endpoints with
  | [] => True
  | endpoint :: rest => givesNothing p n endpoint /\ giveNothing p (S n) rest
  end.

(** A meeting row before and after: same key, and a transcript that was
    there is still there. *)
Definition keepsTranscript (m m' : Meeting) : Prop :=
  m_id m' = m_id m /\
  (m_transcript m <> None -> m_transcript m' = m_transcript m).

(** The statements of the log that write the transcript of a meeting. *)
Definition writesTranscript (id : Z) (w : Write) : bool :=
  match w with
  | W_updateMeeting id' data =>
      (id' =? id) && match p_transcript data with
                     | Some _ => true
                     | None => false
                     end
  | _ => false
  end.

(** How many of them a log has for a meeting. *)
Definition transcriptWrites (id : Z) (l : list Write) : nat :=
  List.length (filter (writesTranscript id) l).

(** The log tells the history of the transcripts: a meeting's transcript
    was written at most once, a meeting whose transcript was written has
    one, and nothing was written for a key that is not yet given out. *)
Record transcriptsOnce (st : Store) : Prop := {
  written_once :
    forall id, (transcriptWrites id (log st) <= 1)%nat;
  written_kept :
    forall id m, (1 <= transcriptWrites id (log st))%nat ->
                 In m (meetings st) -> m_id m = id -> m_transcript m <> None;
  written_old :
    forall id, (1 <= transcriptWrites id (log st))%nat ->
               id < nextMeetingId st
}.

(** *** The bots and the meetings of an event *)

(** The bots of a calendar event. *)
Definition botsOf (st : Store) (calendarEventId : Z) : list RecallBot :=
  filter (fun b => b_calendarEventId b =? calendarEventId) (recallBots st).

(** The meetings of a calendar event. *)
Definition meetingsOf (st : Store) (calendarEventId : Z) : list Meeting :=
  filter (fun m => m_calendarEventId m =? calendarEventId) (meetings st).

(** The meeting row the toggle route inserts for an event. *)
Definition meetingFor (sessionUserId : Z) (event : CalendarEvent)
    (eventId now : Z) (st : Store) : Meeting :=
  fst (createMeeting sessionUserId eventId (e_title event)
         (e_startTime event) (e_endTime event) (e_platform event)
         (e_attendees event) "scheduled" now st).

(** Keys are unique, rows are older than the next key, a calendar event has
    at most one bot, and no stored transcript is the empty string. *)
Record consistent (st : Store) : Prop := {
  bot_ids : NoDup (map b_id (recallBots st));
  bot_ids_lt : forall b, In b (recallBots st) -> b_id b < nextBotId st;
  bot_events : NoDup (map b_calendarEventId (recallBots st));
  meeting_ids : NoDup (map m_id (meetings st));
  meeting_ids_lt : forall m, In m (meetings st) -> m_id m < nextMeetingId st;
  transcripts_nonempty :
    forall m, In m (meetings st) -> m_transcript m <> Some ""
}.

(** Every meeting that names a bot names a stored bot of its own event and
    of its own user. *)
Definition linksResolve (st : Store) : Prop :=
  forall m botId,
    In m (meetings st) -> m_recallBotId m = Some botId ->
    exists b,
      In b (recallBots st) /\ b_id b = botId /\
      b_calendarEventId b = m_calendarEventId m /\
      b_userId b = m_userId m.

(** A meeting that is completed or failed and names a bot names one that is
    not polled any more. *)
Definition terminalMeetingHasTerminalBot (st : Store) : Prop :=
  forall m b,
    In m (meetings st) -> In b (recallBots st) ->
    m_recallBotId m = Some (b_id b) -> isTerminal (m_status m) ->
    isActive b = false.

(** What every database the application reaches satisfies about the links
    between meetings and bots. *)
Record wellLinked (st : Store) : Prop := {
  links_resolve : linksResolve st;
  terminal_links : terminalMeetingHasTerminalBot st
}.

(** A meeting without a bot whose event has a bot is not the only meeting
    of the event. *)
Definition orphanHasSibling (st : Store) : Prop :=
  forall m b,
    In m (meetings st) -> In b (recallBots st) ->
    m_calendarEventId m = b_calendarEventId b -> m_recallBotId m = None ->
    (2 <= List.length (meetingsOf st (b_calendarEventId b)))%nat.

(** The calendar event has a bot that the background task polls. *)
Definition polledEvent (st : Store) (calendarEventId : Z) : Prop :=
  exists b,
    In b (recallBots st) /\ b_calendarEventId b = calendarEventId /\
    isActive b = true.

(** The meetings the background task cannot move backward: those that name
    a bot, those that are scheduled or in progress, and those whose event
    has no bot that is polled. *)
Definition guarded (st : Store) (m : Meeting) : Prop :=
  m_recallBotId m <> None \/
  ~ isTerminal (m_status m) \/
  ~ polledEvent st (m_calendarEventId m).

(** A meeting row before and after: same key, same event, same bot; a
    status that is the same or one of in_progress, completed and failed;
    and, when the meeting names a bot or its event is one of those picked
    out, a status that is not earlier in the order. *)
Definition noRegress (quiet : Z -> Prop) (m m' : Meeting) : Prop :=
  m_id m' = m_id m /\
  m_calendarEventId m' = m_calendarEventId m /\
  m_recallBotId m' = m_recallBotId m /\
  (m_status m' = m_status m \/ 1 <= meetingRank (m_status m')) /\
  (m_recallBotId m <> None \/ quiet (m_calendarEventId m) ->
   meetingRank (m_status m) <= meetingRank (m_status m')).

(** ** OpenAIService: retries *)

(** What a call of an [async] function comes to: a value, or a thrown
    error. *)
Inductive Outcome (T E : Type) : Type :=
| Returned (x : T)
| Threw (e : E).

Arguments Returned {T E} x.
Arguments Threw {T E} e.

(** A run of [retryWithBackoff]: what it comes to (the error thrown after
    the loop is [lastError], which is [undefined] when the loop body never
    ran), how often it called [operation], and the pauses it made, in
    milliseconds and in order. *)
Record Retried (T E : Type) : Type := {
  r_outcome : Outcome T (option E);
  r_calls : nat;
  r_sleeps : list Z
}.

Arguments r_outcome {T E} r.
Arguments r_calls {T E} r.
Arguments r_sleeps {T E} r.

(** The loop [for (let i = 0; i < maxRetries; i++)] from the iteration [i]
    on, with [remaining] iterations to go.  [operation i] is what the call
    of [operation] in the iteration [i] comes to. *)
Fixpoint retryFrom {T E : Type} (operation : nat -> Outcome T E)
    (maxRetries : nat) (delay : Z) (remaining i : nat) (lastError : option E)
    : Retried T E :=
  match remaining with
  | O => {| r_outcome := Threw lastError; r_calls := 0; r_sleeps := [] |}
  | S remaining' =>
      match operation i with
      | Returned x =>
          {| r_outcome := Returned x; r_calls := 1; r_sleeps := [] |}
      | Threw error =>
          let rest := retryFrom operation maxRetries delay remaining' (S i)
                        (Some error) in
          {| r_outcome := r_outcome rest;
             r_calls := S (r_calls rest);
             r_sleeps :=
               (if (S i <? maxRetries)%nat then [delay * 2 ^ Z.of_nat i]
                else []) ++ r_sleeps rest |}
      end
  end.

(** [retryWithBackoff(operation, maxRetries, delay)]. *)
Definition retryWithBackoff {T E : Type} (operation : nat -> Outcome T E)
    (maxRetries : nat) (delay : Z) : Retried T E :=
  retryFrom operation maxRetries delay maxRetries 0%nat None.

Definition MAX_RETRIES : nat := 3.
Definition RETRY_DELAY : Z := 1000.

Fixpoint sumZ (l : list Z) : Z :=
  match l with
  | [] => 0
  | x :: r => x + sumZ r
  end.

(** The pauses before the attempts [1] to [n]. *)
Definition backoffDelays (delay : Z) (n : nat) : list Z :=
  map (fun i => delay * 2 ^ Z.of_nat i) (seq 0 n).

(** ** The session *)

(** [req.session] as the session middleware leaves it: an object, or
    nothing. *)
Definition Session : Type := option (list (string * value)).

(** [req.session?.userId]. *)
Definition sessionUserId (session : Session) : value :=
  match session with
  | Some fields => lookupField "userId" fields
  | None => JUndef
  end.

(** [object[k] = v] on the fields of an object. *)
Fixpoint setField (k : string) (v : value) (fs : list (string * value))
    : list (string * value) :=
  match fs with
  | [] => [(k, v)]
  | (k', v') :: r =>
      if (k =? k')%string then (k, v) :: r else (k', v') :: setField k v r
  end.

(** [getUserId(req)]; [None] is [null]. *)
Definition getUserId (session : Session) : option Z :=
  match sessionUserId session with
  | JNum n => Some n
  | _ => None
  end.

(** [requireAuth(req, res, next)]: the session with which [next] is called;
    [None] when the assignment throws because there is no session. *)
Definition requireAuth (session : Session) : option Session :=
  if negb (truthy (sessionUserId session)) then
    match session with
    | Some fields => Some (Some (setField "userId" (JNum 4) fields))
    | None => None
    end
  else Some session.

(** [assertUserId(userId)]; [None] when it throws. *)
Definition assertUserId (userId : option Z) : option unit :=
  match userId with
  | Some _ => Some tt
  | None => None
  end.

(** ** Follow-up emails *)

(** A row of [meeting_contents]. *)
Record MeetingContent : Type := {
  c_id : Z;
  c_meetingId : Z;
  c_type : string;
  c_platform : option string;
  c_automationId : option Z;
  c_content : string;
  c_imageUrl : option string;
  c_status : string;
  c_publishedAt : option Z;
  c_createdAt : Z;
  c_updatedAt : Z
}.

(** The table [meeting_contents] and the next value of its key. *)
Record Contents : Type := {
  meetingContents : list MeetingContent;
  nextContentId : Z
}.

Definition getMeetingContentsByMeetingIdAndType (cs : Contents)
    (meetingId : Z) (type : string) : list MeetingContent :=
  filter (fun c => (c_meetingId c =? meetingId) && (c_type c =? type)%string)
    (meetingContents cs).

(** [createMeetingContent({meetingId, type, content, status})]. *)
Definition createMeetingContent (meetingId : Z) (type content status : string)
    (now : Z) (cs : Contents) : MeetingContent * Contents :=
  let row := {| c_id := nextContentId cs; c_meetingId := meetingId;
                c_type := type; c_platform := None; c_automationId := None;
                c_content := content; c_imageUrl := None; c_status := status;
                c_publishedAt := None; c_createdAt := now;
                c_updatedAt := now |} in
  (row,
   {| meetingContents := meetingContents cs ++ [row];
      nextContentId := nextContentId cs + 1 |}).

(** The character [U+0022]. *)
Definition quote : string := String (ascii_of_nat 34) EmptyString.

(** [generateFollowUpEmail(meeting)]; [None] when it throws.
    [generateChat messages max_tokens] is what the call of [generateChat]
    comes to; a message is its role and its content. *)
Definition generateFollowUpEmail {RT : Runtime}
    (generateChat : list (string * string) -> Z -> option string)
    (meeting : Meeting) : option string :=
  match m_transcript meeting with
  | None => None
  | Some transcript =>
      if (transcript =? "")%string then None
      else
        generateChat
          [("system",
            "You are an expert assistant that creates professional follow-up emails based on meeting transcripts. Create a concise, professional follow-up email that summarizes the key points discussed, action items, and next steps.");
           ("user",
            "Please create a follow-up email for a meeting titled "
            ++ quote ++ m_title meeting ++ quote
            ++ " with the following transcript: "
            ++ String_substring 0 8000 transcript)]
          1000
  end.

(** What the route answers: the status 404, the status 400, the status 500,
    or the row of the email. *)
Inductive EmailResponse : Type :=
| EmailNotFound
| EmailNoTranscript
| EmailFailed
| EmailContent (content : MeetingContent).

(** [POST /api/meetings/:id/generate-email], for a request whose id is a
    number and whose session has the number [sessionUser] as user id. *)
Definition generateEmail {RT : Runtime}
    (generateChat : list (string * string) -> Z -> option string)
    (now sessionUser meetingId : Z) (st : Store) (cs : Contents)
    : EmailResponse * Contents :=
  match getMeeting st meetingId with
  | None => (EmailNotFound, cs)
  | Some meeting =>
      if negb (m_userId meeting =? sessionUser) then (EmailNotFound, cs)
      else if negb (hasTranscript meeting) then (EmailNoTranscript, cs)
      else
        match getMeetingContentsByMeetingIdAndType cs meetingId
                "follow_up_email" with
        | existing :: _ => (EmailContent existing, cs)
        | [] =>
            match generateFollowUpEmail generateChat meeting with
            | None => (EmailFailed, cs)
            | Some emailContent =>
                let (content, cs') :=
                  createMeetingContent meetingId "follow_up_email"
                    emailContent "draft" now cs in
                (EmailContent content, cs')
            end
        end
  end.

(** The follow-up emails of a meeting. *)
Definition emailsOf (cs : Contents) (meetingId : Z) : list MeetingContent :=
  getMeetingContentsByMeetingIdAndType cs meetingId "follow_up_email".

(** ** Statements about the rows *)

(** A bot row before and after: everything but the status and the time of
    the update is the same. *)
Definition sameBot (b b' : RecallBot) : Prop :=
  b_id b' = b_id b /\ b_userId b' = b_userId b /\
  b_calendarEventId b' = b_calendarEventId b /\
  b_recallBotId b' = b_recallBotId b.

(** A meeting row before and after: everything but the status, the
    transcript and the time of the update is the same. *)
Definition sameMeeting (m m' : Meeting) : Prop :=
  m_id m' = m_id m /\ m_userId m' = m_userId m /\
  m_calendarEventId m' = m_calendarEventId m /\
  m_recallBotId m' = m_recallBotId m /\
  m_title m' = m_title m /\ m_startTime m' = m_startTime m /\
  m_endTime m' = m_endTime m /\ m_platform m' = m_platform m /\
  m_attendees m' = m_attendees m.

(** What two lookups on a key find: corresponding rows, or nothing both
    times. *)
Definition sameUnderKey {A : Type} (R : A -> A -> Prop) (o o' : option A)
    : Prop :=
  match o, o' with
  | Some x, Some y => R x y
  | None, None => True
  | _, _ => False
  end.

(** Two databases whose lists of rows correspond row by row, up to
    statuses, transcripts and update times. *)
Record sameRows (st st' : Store) : Prop := {
  same_events : calendarEvents st' = calendarEvents st;
  same_accounts : googleAccounts st' = googleAccounts st;
  same_settings : settings st' = settings st;
  same_nextBotId : nextBotId st' = nextBotId st;
  same_nextMeetingId : nextMeetingId st' = nextMeetingId st;
  same_bots : Forall2 sameBot (recallBots st) (recallBots st');
  same_meetings : Forall2 sameMeeting (meetings st) (meetings st')
}.

(** The statuses the application writes. *)
Definition botStatuses : list string :=
  ["scheduled"; "joining"; "recording"; "completed"; "failed"].

Definition meetingStatuses : list string :=
  ["scheduled"; "in_progress"; "completed"; "failed"].

(** Every row has one of them. *)
Definition knownStatuses (st : Store) : Prop :=
  (forall b, In b (recallBots st) -> In (b_status b) botStatuses) /\
  (forall m, In m (meetings st) -> In (m_status m) meetingStatuses).

(** ** More sample data *)

(** An operation that is refused twice and then returns. *)
Definition flakyOperation (attempt : nat) : Outcome Z string :=
  if (attempt <? 2)%nat then Threw "rate limit" else Returned 42.

(** No content was generated yet. *)
Definition noContents : Contents :=
  {| meetingContents := []; nextContentId := 1 |}.

(** A generator that always writes the same email, and one that is down. *)
Definition sampleGenerator (messages : list (string * string))
    (max_tokens : Z) : option string :=
  Some "Thanks for joining the kickoff.".

Definition generatorDown (messages : list (string * string))
    (max_tokens : Z) : option string :=
  None.

(** The email of the meeting of [storeTranscribed], and the table that has
    it. *)
Definition sampleEmail : MeetingContent :=
  {| c_id := 1; c_meetingId := 1; c_type := "follow_up_email";
     c_platform := None; c_automationId := None;
     c_content := "Thanks for joining the kickoff."; c_imageUrl := None;
     c_status := "draft"; c_publishedAt := None; c_createdAt := t1610;
     c_updatedAt := t1610 |}.

Definition contentsWithEmail : Contents :=
  {| meetingContents := [sampleEmail]; nextContentId := 2 |}.

(** Case analysis on the value a [match] or an [if] of the goal, or of a
    hypothesis, inspects. *)
Ltac case_match_goal :=
  match goal with
  | |- context [match ?x with _ => _ end] => destruct x eqn:?
  end.

Ltac case_match_in H :=
  match type of H with
  | context [match ?x with _ => _ end] => destruct x eqn:?
  end.

(** ** Proofs *)

Section Properties.
Context {RT : Runtime}.

Local Open Scope list_scope.

(** *** Tables as lists of rows *)

Lemma map_proj_update {A B : Type} (proj : A -> B) (c : A -> bool)
    (f : A -> A) (l : list A) :
  (forall x, proj (f x) = proj x) ->
  map proj (map (fun x => if c x then f x else x) l) = map proj l.
Proof.
  intros Hf. rewrite map_map. apply map_ext. intros x.
  destruct (c x); [apply Hf | reflexivity].
Qed.

Lemma In_update {A : Type} (c : A -> bool) (f : A -> A) (l : list A) (y : A) :
  In y (map (fun x => if c x then f x else x) l) ->
  exists x, In x l /\ ((c x = false /\ y = x) \/ (c x = true /\ y = f x)).
Proof.
  intros H. apply in_map_iff in H. destruct H as [x [Hx Hin]].
  exists x. split; [assumption|].
  destruct (c x) eqn:E; [right | left]; auto.
Qed.

Lemma NoDup_map_snoc {A B : Type} (proj : A -> B) (l : list A) (x : A) :
  NoDup (map proj l) ->
  (forall y, In y l -> proj y <> proj x) ->
  NoDup (map proj (l ++ [x])).
Proof.
  induction l as [|a l IH]; simpl; intros Hnd Hfresh.
  - constructor; [intros [] | constructor].
  - inversion Hnd as [|? ? Hnotin Hnd']; subst. constructor.
    + rewrite map_app, in_app_iff. simpl. intros [H | [H | []]].
      * contradiction.
      * apply (Hfresh a); auto.
    + apply IH; auto.
Qed.

Lemma find_key_none {A : Type} (key : A -> Z) (k : Z) (l : list A) :
  find (fun x => key x =? k) l = None ->
  forall y, In y l -> key y <> k.
Proof.
  intros H y Hy E. apply (find_none _ _ H) in Hy. simpl in Hy.
  apply Z.eqb_neq in Hy. contradiction.
Qed.

Lemma find_key_some {A : Type} (key : A -> Z) (k : Z) (l : list A) (x : A) :
  find (fun x => key x =? k) l = Some x -> In x l /\ key x = k.
Proof.
  intros H. apply find_some in H. destruct H as [Hin Hk].
  split; [assumption | apply Z.eqb_eq; assumption].
Qed.

(** With unique keys, a row of the table is the row its key finds. *)
(** *** The row a lookup takes *)

Lemma firstRow_In {A : Type} (n : nat) (rows : list A) (x : A) :
  firstRow n rows = Some x -> In x rows.
Proof.
  unfold firstRow. destruct rows as [|row rest]; [discriminate|].
  intros H.
  assert (E : x = nth n (row :: rest) row) by (injection H; auto).
  rewrite E.
  destruct (Nat.lt_ge_cases n (List.length (row :: rest))) as [Hlt | Hge].
  - apply nth_In. exact Hlt.
  - rewrite nth_overflow by exact Hge. left. reflexivity.
Qed.

Lemma firstRow_none {A : Type} (n : nat) (rows : list A) :
  firstRow n rows = None -> rows = [].
Proof. destruct rows; [reflexivity | discriminate]. Qed.

Lemma firstRow_single {A : Type} (n : nat) (x : A) :
  firstRow n [x] = Some x.
Proof. destruct n as [|[|n]]; reflexivity. Qed.

(** With at most one row to return, the order does not matter. *)
Lemma firstRow_le1 {A : Type} (n n' : nat) (rows : list A) :
  (List.length rows <= 1)%nat -> firstRow n rows = firstRow n' rows.
Proof.
  destruct rows as [|x [|y rows]]; intros H.
  - reflexivity.
  - rewrite (firstRow_single n x), (firstRow_single n' x). reflexivity.
  - exfalso. simpl in H.
    apply (Nat.nle_succ_0 _ (proj2 (Nat.succ_le_mono _ _) H)).
Qed.

Lemma getMeetingByCalendarEventId_some st ev m :
  getMeetingByCalendarEventId st ev = Some m ->
  In m (meetings st) /\ m_calendarEventId m = ev.
Proof.
  unfold getMeetingByCalendarEventId. intros H.
  apply firstRow_In, filter_In in H. destruct H as [H1 H2].
  apply Z.eqb_eq in H2. auto.
Qed.

Lemma getRecallBotByCalendarEventId_some st ev b :
  getRecallBotByCalendarEventId st ev = Some b ->
  In b (recallBots st) /\ b_calendarEventId b = ev.
Proof.
  unfold getRecallBotByCalendarEventId. intros H.
  apply firstRow_In, filter_In in H. destruct H as [H1 H2].
  apply Z.eqb_eq in H2. auto.
Qed.

Lemma getRecallBotByCalendarEventId_none st ev :
  getRecallBotByCalendarEventId st ev = None ->
  forall b, In b (recallBots st) -> b_calendarEventId b <> ev.
Proof.
  unfold getRecallBotByCalendarEventId. intros H b Hb E.
  apply firstRow_none in H.
  assert (Hin : In b (filter (fun b => b_calendarEventId b =? ev)
                        (recallBots st))).
  { apply filter_In. split; [exact Hb | apply Z.eqb_eq; exact E]. }
  rewrite H in Hin. exact Hin.
Qed.

Lemma getRecallBotByCalendarEventId_absent st ev :
  (forall b, In b (recallBots st) -> b_calendarEventId b <> ev) ->
  getRecallBotByCalendarEventId st ev = None.
Proof.
  intros H.
  destruct (getRecallBotByCalendarEventId st ev) as [b|] eqn:E;
    [|reflexivity].
  apply getRecallBotByCalendarEventId_some in E. destruct E as [Hb Hev].
  contradiction (H b Hb Hev).
Qed.

(** Whether an event has a bot depends on the bots alone. *)
Lemma getRecallBotByCalendarEventId_same st st' ev :
  recallBots st' = recallBots st ->
  getRecallBotByCalendarEventId st ev = None ->
  getRecallBotByCalendarEventId st' ev = None.
Proof.
  intros Hsame H. apply getRecallBotByCalendarEventId_absent.
  rewrite Hsame. apply getRecallBotByCalendarEventId_none. exact H.
Qed.

Lemma NoDup_key_eq {A : Type} (key : A -> Z) (l : list A) (x y : A) :
  NoDup (map key l) -> In x l -> In y l -> key x = key y -> x = y.
Proof.
  induction l as [|a l IH]; simpl; intros Hnd Hx Hy E; [contradiction|].
  inversion Hnd as [|? ? Hnotin Hnd']; subst.
  destruct Hx as [Hx | Hx], Hy as [Hy | Hy]; subst.
  - reflexivity.
  - exfalso. apply Hnotin. rewrite E. apply in_map. assumption.
  - exfalso. apply Hnotin. rewrite <- E. apply in_map. assumption.
  - apply IH; assumption.
Qed.

Lemma Forall2_refl_on {A : Type} (R : A -> A -> Prop) (l : list A) :
  (forall x, R x x) -> Forall2 R l l.
Proof. intros H. induction l; constructor; auto. Qed.

Lemma Forall2_map_r {A : Type} (R : A -> A -> Prop) (f : A -> A) (l : list A) :
  (forall x, In x l -> R x (f x)) -> Forall2 R l (map f l).
Proof.
  induction l as [|a l IH]; simpl; intros H; constructor.
  - apply H. left. reflexivity.
  - apply IH. intros x Hx. apply H. right. assumption.
Qed.

Lemma Forall2_trans_on {A : Type} (R : A -> A -> Prop) (l1 l2 l3 : list A) :
  (forall x y z, R x y -> R y z -> R x z) ->
  Forall2 R l1 l2 -> Forall2 R l2 l3 -> Forall2 R l1 l3.
Proof.
  intros Ht H12. revert l3.
  induction H12 as [|x y l1 l2 Hxy H12 IH]; intros l3 H23;
    inversion H23; subst; constructor; eauto.
Qed.

(** *** The storage methods keep the database consistent *)

Lemma setBotStatus_id s now b : b_id (setBotStatus s now b) = b_id b.
Proof. reflexivity. Qed.

Lemma applyPatch_id data now m : m_id (applyPatch data now m) = m_id m.
Proof. reflexivity. Qed.

Lemma consistent_logged w st : consistent st -> consistent (logged w st).
Proof. intros [? ? ? ? ? ?]. constructor; assumption. Qed.

Lemma consistent_updateCalendarEvent id flag st :
  consistent st -> consistent (snd (updateCalendarEvent id flag st)).
Proof. intros [? ? ? ? ? ?]. constructor; assumption. Qed.

Lemma consistent_withOtherTables es gs ss st :
  consistent st -> consistent (withOtherTables es gs ss st).
Proof. intros [? ? ? ? ? ?]. constructor; assumption. Qed.

Lemma consistent_emptyStore es gs ss : consistent (emptyStore es gs ss).
Proof.
  constructor; simpl; try constructor; intros ? [].
Qed.

Lemma consistent_updateRecallBot id status now st :
  consistent st -> consistent (snd (updateRecallBot id status now st)).
Proof.
  intros [H1 H2 H3 H4 H5 H6]. constructor; simpl; try assumption.
  - rewrite map_proj_update; auto.
  - intros b Hb. apply In_update in Hb.
    destruct Hb as [x [Hx [[_ ->] | [_ ->]]]]; simpl; auto.
  - rewrite map_proj_update; auto.
Qed.

Lemma consistent_updateMeeting id data now st :
  consistent st -> p_transcript data <> Some "" ->
  consistent (snd (updateMeeting id data now st)).
Proof.
  intros [H1 H2 H3 H4 H5 H6] Hd. constructor; simpl; try assumption.
  - rewrite map_proj_update; auto.
  - intros m Hm. apply In_update in Hm.
    destruct Hm as [x [Hx [[_ ->] | [_ ->]]]]; simpl; auto.
  - intros m Hm. apply In_update in Hm.
    destruct Hm as [x [Hx [[_ ->] | [_ ->]]]]; simpl; auto.
    destruct (p_transcript data); auto.
Qed.

Lemma consistent_createMeeting uid ev title start fin plat att status now st :
  consistent st ->
  consistent (snd (createMeeting uid ev title start fin plat att status now st)).
Proof.
  intros [H1 H2 H3 H4 H5 H6]. constructor; simpl; try assumption.
  - apply NoDup_map_snoc; auto. intros y Hy. simpl.
    specialize (H5 y Hy). lia.
  - intros m Hm. apply in_app_iff in Hm. destruct Hm as [Hm | [<- | []]].
    + specialize (H5 m Hm). lia.
    + simpl. lia.
  - intros m Hm. apply in_app_iff in Hm. destruct Hm as [Hm | [<- | []]].
    + auto.
    + simpl. discriminate.
Qed.

Lemma consistent_createRecallBot uid ev rid status now st :
  consistent st -> getRecallBotByCalendarEventId st ev = None ->
  consistent (snd (createRecallBot uid ev rid status now st)).
Proof.
  intros [H1 H2 H3 H4 H5 H6] Hnone. constructor; simpl; try assumption.
  - apply NoDup_map_snoc; auto. intros y Hy. simpl.
    specialize (H2 y Hy). lia.
  - intros b Hb. apply in_app_iff in Hb. destruct Hb as [Hb | [<- | []]].
    + specialize (H2 b Hb). lia.
    + simpl. lia.
  - apply NoDup_map_snoc; auto. intros y Hy. simpl.
    apply (getRecallBotByCalendarEventId_none st ev Hnone y Hy).
Qed.

Lemma consistent_deleteAllRecallBots st :
  consistent st -> consistent (deleteAllRecallBots st).
Proof.
  intros [H1 H2 H3 H4 H5 H6]. constructor; simpl; try constructor.
  - intros ? [].
  - rewrite map_map. simpl. assumption.
  - intros m Hm. apply in_map_iff in Hm. destruct Hm as [x [<- Hx]].
    simpl. auto.
  - intros m Hm. apply in_map_iff in Hm. destruct Hm as [x [<- Hx]].
    simpl. auto.
Qed.

Lemma consistent_deleteAllMeetings st :
  consistent st -> consistent (deleteAllMeetings st).
Proof.
  intros [H1 H2 H3 H4 H5 H6]. constructor; simpl; try assumption;
    try constructor; intros ? [].
Qed.

(** *** The service and the routes keep the database consistent *)

Lemma nonBlank_nonempty t : nonBlank t = true -> t <> "".
Proof.
  intros H ->. unfold nonBlank in H. rewrite String_trim_empty in H.
  discriminate.
Qed.

Lemma fold_left_preserves {A S : Type} (P : S -> Prop) (f : S -> A -> S)
    (l : list A) (s : S) :
  (forall s a, P s -> P (f s a)) -> P s -> P (fold_left f l s).
Proof.
  intros Hf. revert s. induction l as [|a l IH]; simpl; intros s Hs; auto.
Qed.

(** A successful [createBot] is one insert. *)
Lemma createBot_some p now ev uid st bot st' :
  createBot p now ev uid st = Some (bot, st') ->
  exists rid,
    createRecallBot uid (e_id ev) rid "scheduled" now st = (bot, st').
Proof.
  unfold createBot. intros H.
  repeat case_match_in H; try discriminate.
  eexists. unfold createRecallBot in *. inversion H; subst. reflexivity.
Qed.

Lemma consistent_updateBotStatus p now b st :
  consistent st -> consistent (snd (updateBotStatus p now b st)).
Proof.
  intros Hc. unfold updateBotStatus.
  repeat case_match_goal; simpl; auto.
  apply consistent_updateRecallBot. assumption.
Qed.

Lemma consistent_sweepBot p now b st :
  consistent st -> consistent (sweepBot p now b st).
Proof.
  intros Hc. unfold sweepBot.
  pose proof (consistent_updateBotStatus p now b st Hc) as H1.
  destruct (updateBotStatus p now b st) as [updated st1]. simpl in H1.
  repeat case_match_goal; auto.
  apply consistent_updateMeeting; [assumption | simpl; discriminate].
Qed.

Lemma consistent_processMeeting p now b st :
  consistent st -> consistent (processMeeting p now b st).
Proof.
  intros Hc. unfold processMeeting.
  repeat case_match_goal; auto.
  apply consistent_updateMeeting; [assumption|]. simpl.
  intros E. inversion E; subst. discriminate.
Qed.

Lemma consistent_sweep p now st : consistent st -> consistent (sweep p now st).
Proof.
  intros Hc. unfold sweep, sweepTranscripts, sweepStatuses.
  apply fold_left_preserves.
  - intros. apply consistent_processMeeting. assumption.
  - apply fold_left_preserves; [|assumption].
    intros. apply consistent_sweepBot. assumption.
Qed.

Lemma consistent_fetchTranscript p now uid mid st :
  consistent st -> consistent (fetchTranscript p now uid mid st).
Proof.
  intros Hc. unfold fetchTranscript.
  repeat case_match_goal; auto.
  apply consistent_processMeeting. assumption.
Qed.

Lemma consistent_setupRecording p now uid ev eid st :
  consistent st -> e_id ev = eid ->
  consistent (setupRecording p now uid ev eid st).
Proof.
  intros Hc He. unfold setupRecording.
  destruct (getRecallBotByCalendarEventId st eid) eqn:Hbot; [assumption|].
  destruct (laterThan _ now); [|assumption].
  pose proof (consistent_createMeeting uid eid (e_title ev) (e_startTime ev)
                (e_endTime ev) (e_platform ev) (e_attendees ev) "scheduled"
                now st Hc) as Hm.
  destruct (createMeeting _ _ _ _ _ _ _ _ _ _) as [meeting st1] eqn:Hcm.
  simpl in Hm.
  assert (Hbot1 : getRecallBotByCalendarEventId st1 eid = None).
  { unfold createMeeting in Hcm. inversion Hcm; subst.
    apply (getRecallBotByCalendarEventId_same st); [reflexivity | exact Hbot]. }
  destruct (createBot p now ev uid st1) as [[bot st2]|] eqn:Hcb.
  - apply createBot_some in Hcb. destruct Hcb as [rid Hcb].
    apply consistent_updateMeeting; [|simpl; discriminate].
    replace st2 with (snd (createRecallBot uid (e_id ev) rid "scheduled" now st1))
      by (rewrite Hcb; reflexivity).
    apply consistent_createRecallBot; [assumption|]. rewrite He. assumption.
  - apply consistent_updateMeeting; [assumption | simpl; discriminate].
Qed.

Lemma consistent_toggleRecording p now uid eid flag st :
  consistent st -> consistent (toggleRecording p now uid eid flag st).
Proof.
  intros Hc. unfold toggleRecording.
  destruct (getCalendarEvent st eid) as [ev|] eqn:Hev; [|assumption].
  destruct (getGoogleAccount st (e_googleAccountId ev)); [|assumption].
  destruct (negb _); [assumption|].
  pose proof (consistent_updateCalendarEvent eid flag st Hc) as H1.
  destruct (flag && _); [|assumption].
  apply consistent_setupRecording; [assumption|].
  apply (find_key_some e_id) in Hev. tauto.
Qed.

(** Every database the application reaches is consistent. *)
Lemma reachable_consistent st : reachable st -> consistent st.
Proof.
  induction 1.
  - apply consistent_emptyStore.
  - apply consistent_withOtherTables. assumption.
  - apply consistent_toggleRecording. assumption.
  - apply consistent_sweep. assumption.
  - apply consistent_fetchTranscript. assumption.
  - apply consistent_deleteAllRecallBots. assumption.
  - apply consistent_deleteAllMeetings. assumption.
Qed.

(** *** The status mapping *)

Lemma find_update {A : Type} (key : A -> Z) (k : Z) (f : A -> A) (l : list A) :
  (forall x, key (f x) = key x) ->
  find (fun x => key x =? k) (map (fun x => if key x =? k then f x else x) l)
  = option_map f (find (fun x => key x =? k) l).
Proof.
  intros Hf. induction l as [|a l IH]; simpl; [reflexivity|].
  destruct (key a =? k) eqn:E.
  - rewrite Hf, E. reflexivity.
  - rewrite E. assumption.
Qed.

Lemma find_unique {A : Type} (key : A -> Z) (l : list A) (x : A) :
  NoDup (map key l) -> In x l ->
  find (fun y => key y =? key x) l = Some x.
Proof.
  intros Hnd Hx.
  destruct (find (fun y => key y =? key x) l) as [y|] eqn:E.
  - apply (find_key_some key) in E. destruct E as [Hy Hk].
    f_equal. apply (NoDup_key_eq key l); assumption.
  - exfalso. apply (find_key_none key _ _ E x Hx). reflexivity.
Qed.

(** The mapping of the code is the table of the specification. *)
Lemma mapStatus_table code current :
  mapStatus code current = orElse (codeStatus code) current.
Proof.
  destruct code; try reflexivity.
  unfold mapStatus, codeStatus, statusTable, strictEqStr, includes, existsb.
  repeat (match goal with
          | |- context [(s =? ?c)%string] => destruct (s =? c)%string
          end; simpl; try reflexivity).
Qed.

Lemma latestCode_last botStatus init entry :
  getProp botStatus "status_changes" = Some (JArr (init ++ [entry])) ->
  latestCode botStatus = getProp entry "code".
Proof.
  intros H. unfold latestCode. rewrite H.
  destruct init as [|c cs]; simpl; [reflexivity|].
  rewrite last_last. reflexivity.
Qed.

(** C2. [updateBotStatus] gives the bot the status the table has for the
    code of the last entry of [status_changes], whatever the other entries
    and the current status are, stores it, and returns the stored row; for a
    code the table does not have (a string that is not in it, or a value
    that is not a string) it returns the bot as it is and leaves the
    database as it is. *)
Theorem updateBotStatus_follows_table
    (p : Provider) (now : Z) (bot : RecallBot) (st : Store)
    (botStatus : value) (init : list value) (entry code : value) :
  getRecallBot st (b_id bot) = Some bot ->
  getBotStatus p 0 (b_recallBotId bot) = Some botStatus ->
  getProp botStatus "status_changes" = Some (JArr (init ++ [entry])) ->
  getProp entry "code" = Some code ->
  match codeStatus code with
  | Some status =>
      exists bot',
        fst (updateBotStatus p now bot st) = Some bot' /\
        getRecallBot (snd (updateBotStatus p now bot st)) (b_id bot)
          = Some bot' /\
        b_status bot' = status
  | None => updateBotStatus p now bot st = (Some bot, st)
  end.
Proof.
  intros Hrow Hget Hsc Hcode. unfold updateBotStatus.
  rewrite Hget, (latestCode_last _ _ _ Hsc), Hcode, mapStatus_table.
  destruct (codeStatus code) as [status|]; simpl.
  - destruct (status =? b_status bot)%string eqn:E; simpl.
    + apply String.eqb_eq in E. exists bot. auto.
    + unfold getRecallBot in *. simpl.
      rewrite (find_update b_id (b_id bot) (setBotStatus status now))
        by reflexivity.
      rewrite Hrow. simpl. eexists. repeat split; reflexivity.
  - rewrite String.eqb_refl. reflexivity.
Qed.

(** C9. When the status request throws, or the snapshot has no usable list
    of status changes, [updateBotStatus] returns the bot it was given and
    the database is the one it started with, its log of writes included. *)
Theorem updateBotStatus_error_is_noop
    (p : Provider) (now : Z) (bot : RecallBot) (st : Store) :
  (getBotStatus p 0 (b_recallBotId bot) = None \/
   exists botStatus,
     getBotStatus p 0 (b_recallBotId bot) = Some botStatus /\
     noStatusChanges botStatus) ->
  updateBotStatus p now bot st = (Some bot, st).
Proof.
  unfold updateBotStatus, noStatusChanges, latestCode.
  intros [-> | [botStatus [-> H]]]; [reflexivity|].
  destruct (getProp botStatus "status_changes") as [changes|];
    [|reflexivity].
  destruct changes as [| | | | |items|]; try reflexivity.
  destruct items; [reflexivity|].
  destruct H as [H | [H | H]]; discriminate.
Qed.

(** *** Reading the transcript *)

(** C10. When the snapshot that [getTranscript] reads has no recording
    whose transcription is completed, [getTranscript] returns [null] after
    the status request alone; and when that request is the one
    [processMeeting] makes through [getTranscript], the second request of
    its call, [processMeeting] leaves the database as it is, whatever the
    first request was answered and whichever of its waits was over. *)
Theorem getTranscript_needs_completed_transcription
    (p : Provider) (n : nat) (now : Z) (bot : RecallBot) (st : Store)
    (botStatus : value) :
  getBotStatus p n (b_recallBotId bot) = Some botStatus ->
  transcriptionPending botStatus ->
  getTranscript p n (b_recallBotId bot)
    = (JNull, [("/bot/" ++ b_recallBotId bot)%string]) /\
  (n = 1%nat -> processMeeting p now bot st = st).
Proof.
  intros Hget Hpend.
  assert (Ht : getTranscript p n (b_recallBotId bot)
               = (JNull, [("/bot/" ++ b_recallBotId bot)%string])).
  { unfold getTranscript. rewrite Hget.
    unfold transcriptionPending in Hpend.
    destruct (firstRecording botStatus) as [recording|]; [|reflexivity].
    unfold getPropOpt in Hpend.
    destruct (getProp recording "transcription_completed_at");
      [|reflexivity].
    rewrite Hpend. reflexivity. }
  split; [exact Ht|].
  intros ->. unfold processMeeting. rewrite Ht. simpl.
  repeat case_match_goal; reflexivity.
Qed.






(** *** Enabling recording *)

Lemma map_update_fresh {A : Type} (key : A -> Z) (k : Z) (f : A -> A)
    (l : list A) :
  (forall x, In x l -> key x <> k) ->
  map (fun x => if key x =? k then f x else x) l = l.
Proof.
  intros H. rewrite <- (map_id l) at 2. apply map_ext_in. intros x Hx.
  destruct (key x =? k) eqn:E; [|reflexivity].
  apply Z.eqb_eq in E. exfalso. exact (H x Hx E).
Qed.

Lemma map_update_snoc {A : Type} (key : A -> Z) (k : Z) (f : A -> A)
    (l : list A) (y : A) :
  (forall x, In x l -> key x <> k) -> key y = k ->
  map (fun x => if key x =? k then f x else x) (l ++ [y]) = l ++ [f y].
Proof.
  intros H Hy. rewrite map_app, (map_update_fresh key k f l H). simpl.
  rewrite Hy, Z.eqb_refl. reflexivity.
Qed.

(** Whether [createBot] throws depends on the event, the provider and the
    settings only. *)
Lemma createBot_none_settings p now now' ev uid st st' :
  settings st' = settings st ->
  createBot p now ev uid st = None -> createBot p now' ev uid st' = None.
Proof.
  unfold createBot, getSettings. intros ->.
  intros H. repeat case_match_in H; try discriminate; reflexivity.
Qed.

(** What the block that sets up the recording does to the two tables:
    nothing, or a failed meeting, or a bot and its meeting. *)
Lemma setupRecording_effect p now uid ev eid st :
  consistent st -> e_id ev = eid ->
  let st' := setupRecording p now uid ev eid st in
  (recallBots st' = recallBots st /\ meetings st' = meetings st /\
   (getRecallBotByCalendarEventId st eid <> None \/
    laterThan
      (minusMinutes (e_startTime ev) (joinMinutesBefore (getSettings st uid)))
      now = false))
  \/
  (getRecallBotByCalendarEventId st eid = None /\
   createBot p now ev uid st = None /\
   recallBots st' = recallBots st /\
   meetings st'
   = meetings st ++ [applyPatch failedPatch now (meetingFor uid ev eid now st)])
  \/
  (getRecallBotByCalendarEventId st eid = None /\
   createBot p now ev uid st <> None /\
   exists bot,
     b_calendarEventId bot = eid /\ b_status bot = "scheduled" /\
     recallBots st' = recallBots st ++ [bot] /\
     meetings st'
     = meetings st
       ++ [applyPatch (linkPatch (b_id bot)) now (meetingFor uid ev eid now st)]).
Proof.
  intros Hc He. unfold setupRecording.
  destruct (getRecallBotByCalendarEventId st eid) eqn:Hbot.
  { left. repeat split. left. discriminate. }
  destruct (laterThan _ now) eqn:Hfuture.
  2:{ left. repeat split. right. reflexivity. }
  right.
  assert (Hfresh : forall x, In x (meetings st) -> m_id x <> nextMeetingId st).
  { intros x Hx. pose proof (meeting_ids_lt st Hc x Hx). lia. }
  destruct (createMeeting uid eid (e_title ev) (e_startTime ev) (e_endTime ev)
              (e_platform ev) (e_attendees ev) "scheduled" now st)
    as [meeting st1] eqn:Hcm.
  assert (Hmeeting : meeting = meetingFor uid ev eid now st)
    by (unfold meetingFor; rewrite Hcm; reflexivity).
  unfold createMeeting in Hcm. injection Hcm as _ Hst1.
  assert (Hset : settings st1 = settings st) by (subst st1; reflexivity).
  destruct (createBot p now ev uid st1) as [[bot st2]|] eqn:Hcb.
  - right. split; [reflexivity|]. split.
    { intros Hn.
      rewrite (createBot_none_settings p now now ev uid st st1 Hset Hn)
        in Hcb. discriminate. }
    apply createBot_some in Hcb. destruct Hcb as [rid Hcb].
    unfold createRecallBot in Hcb. injection Hcb as Hb Hst2.
    exists bot. subst bot st2 st1 meeting. simpl.
    split; [exact He|]. split; [reflexivity|]. split; [reflexivity|].
    apply (map_update_snoc m_id); [exact Hfresh | reflexivity].
  - left. split; [reflexivity|]. split.
    + apply (createBot_none_settings p now now ev uid st1 st);
        [symmetry; exact Hset | exact Hcb].
    + subst st1 meeting. simpl. split; [reflexivity|].
      apply (map_update_snoc m_id); [exact Hfresh | reflexivity].
Qed.

(** C8. When the toggle route creates the meeting and [createBot] throws,
    the meeting it has created is stored with the status [failed] and the
    transcript [Failed to create recording bot], no bot is stored, and no
    meeting that was not already there has the status [scheduled]. *)
Theorem toggle_marks_meeting_failed
    (p : Provider) (now sessionUserId eventId : Z) (st : Store)
    (event : CalendarEvent) (account : GoogleAccount) :
  consistent st ->
  getCalendarEvent st eventId = Some event ->
  getGoogleAccount st (e_googleAccountId event) = Some account ->
  g_userId account = sessionUserId ->
  eventId <> 0 ->
  getRecallBotByCalendarEventId st eventId = None ->
  laterThan (minusMinutes (e_startTime event)
               (joinMinutesBefore (getSettings st sessionUserId))) now
  = true ->
  createBot p now event sessionUserId st = None ->
  let st' := toggleRecording p now sessionUserId eventId true st in
  exists meeting,
    meetings st' = meetings st ++ [meeting] /\
    m_id meeting = nextMeetingId st /\
    m_calendarEventId meeting = eventId /\
    m_status meeting = "failed" /\
    m_transcript meeting = Some "Failed to create recording bot" /\
    recallBots st' = recallBots st /\
    forall m, In m (meetings st') -> m_status m = "scheduled" ->
              In m (meetings st).
Proof.
  intros Hc Hev Hacc Huser Hnz Hbot Hfuture Hfail st'.
  assert (He : e_id event = eventId)
    by (apply (find_key_some e_id) in Hev; tauto).
  subst st'. unfold toggleRecording.
  rewrite Hev, Hacc, Huser, Z.eqb_refl. simpl.
  assert (Hnz' : (eventId =? 0) = false) by (apply Z.eqb_neq; exact Hnz).
  rewrite Hnz'. simpl.
  set (st1 := logged _ _).
  assert (Hc1 : consistent st1)
    by (apply (consistent_updateCalendarEvent eventId true st Hc)).
  pose proof (setupRecording_effect p now sessionUserId event eventId st1
                Hc1 He) as Heff.
  simpl in Heff.
  destruct Heff as [[_ [_ [Hno | Hpast]]] | [[_ [_ [Hb Hm]]] | [_ [Hok _]]]].
  - exfalso. apply Hno.
    apply (getRecallBotByCalendarEventId_same st); [reflexivity | exact Hbot].
  - exfalso. change (getSettings st1 sessionUserId)
      with (getSettings st sessionUserId) in Hpast.
    rewrite Hfuture in Hpast. discriminate.
  - eexists. split; [exact Hm|]. repeat split; try reflexivity.
    + exact Hb.
    + intros m Hin Hs. rewrite Hm in Hin. apply in_app_iff in Hin.
      destruct Hin as [Hin | [<- | []]]; [exact Hin | discriminate Hs].
  - exfalso. apply Hok.
    apply (createBot_none_settings p now now event sessionUserId st st1);
      [reflexivity | exact Hfail].
Qed.

Lemma NoDup_key_filter_le1 {A : Type} (key : A -> Z) (k : Z) (l : list A) :
  NoDup (map key l) ->
  (List.length (filter (fun x => (key x =? k)%Z) l) <= 1)%nat.
Proof.
  induction l as [|a l IH]; simpl; intros Hnd; [lia|].
  inversion Hnd as [|? ? Hnotin Hnd']; subst.
  destruct (key a =? k) eqn:E; [|auto].
  apply Z.eqb_eq in E. simpl.
  assert (Hnil : filter (fun x => key x =? k) l = []).
  { destruct (filter (fun x => key x =? k) l) as [|y ys] eqn:F;
      [reflexivity|].
    assert (Hy : In y (filter (fun x => key x =? k) l))
      by (rewrite F; left; reflexivity).
    apply filter_In in Hy. destruct Hy as [Hy Hk]. apply Z.eqb_eq in Hk.
    exfalso. apply Hnotin. rewrite E, <- Hk. apply in_map. exact Hy. }
  rewrite Hnil. simpl. lia.
Qed.

(** C6, as the code has it.  In every database the application reaches, a
    calendar event has at most one bot; and the toggle route, called for an
    event that has a bot, leaves the bots and the meetings as they are. *)
Theorem one_bot_per_event (st : Store) :
  reachable st ->
  (forall eventId, (List.length (botsOf st eventId) <= 1)%nat) /\
  (forall p now sessionUserId eventId flag,
     getRecallBotByCalendarEventId st eventId <> None ->
     recallBots (toggleRecording p now sessionUserId eventId flag st)
       = recallBots st /\
     meetings (toggleRecording p now sessionUserId eventId flag st)
       = meetings st).
Proof.
  intros Hr. apply reachable_consistent in Hr. split.
  - intros eventId. apply (NoDup_key_filter_le1 b_calendarEventId).
    apply (bot_events st Hr).
  - intros p now uid eid flag Hbot. unfold toggleRecording.
    destruct (getCalendarEvent st eid); [|auto].
    destruct (getGoogleAccount st _); [|auto].
    destruct (negb _); [auto|].
    destruct (flag && _); [|auto].
    unfold setupRecording.
    destruct (getRecallBotByCalendarEventId
                (snd (updateCalendarEvent eid flag st)) eid) eqn:E; [auto|].
    contradiction Hbot.
    apply (getRecallBotByCalendarEventId_same
             (snd (updateCalendarEvent eid flag st)));
      [reflexivity | exact E].
Qed.

(** *** The status sweep *)

Lemma updateBotStatus_statusChange p now a st :
  updateBotStatus p now a st
  = match statusChange p a with
    | Some status => updateRecallBot (b_id a) status now st
    | None => (Some a, st)
    end.
Proof.
  unfold updateBotStatus, statusChange, observedCode.
  destruct (getBotStatus p 0 (b_recallBotId a)); [|reflexivity].
  destruct (latestCode v); [|reflexivity].
  cbv zeta. destruct (_ =? _)%string; reflexivity.
Qed.

Lemma sweepBot_bots p now a st :
  recallBots (sweepBot p now a st) = map (stepRow p now a) (recallBots st).
Proof.
  unfold sweepBot, stepRow. rewrite updateBotStatus_statusChange.
  destruct (statusChange p a) as [status|].
  - unfold updateRecallBot. cbv zeta.
    repeat case_match_goal; reflexivity.
  - rewrite map_id. rewrite String.eqb_refl. reflexivity.
Qed.

Lemma sweepStatuses_fold_bots p now act st :
  recallBots (fold_left (fun s bot => sweepBot p now bot s) act st)
  = map (fun r => fold_left (fun r a => stepRow p now a r) act r)
      (recallBots st).
Proof.
  revert st. induction act as [|a act IH]; intros st; simpl.
  - rewrite map_id. reflexivity.
  - rewrite IH, sweepBot_bots, map_map. reflexivity.
Qed.

Lemma stepRow_id p now a r : b_id (stepRow p now a r) = b_id r.
Proof.
  unfold stepRow. destruct (statusChange p a); [|reflexivity].
  destruct (_ =? _); reflexivity.
Qed.

Lemma stepRow_other p now a r : b_id a <> b_id r -> stepRow p now a r = r.
Proof.
  intros H. unfold stepRow. destruct (statusChange p a); [|reflexivity].
  destruct (b_id r =? b_id a) eqn:E; [|reflexivity].
  apply Z.eqb_eq in E. congruence.
Qed.

Lemma fold_stepRow_others p now act r :
  (forall a, In a act -> b_id a <> b_id r) ->
  fold_left (fun r a => stepRow p now a r) act r = r.
Proof.
  induction act as [|a act IH]; simpl; intros H; [reflexivity|].
  rewrite stepRow_other by (apply H; left; reflexivity).
  apply IH. intros a' Ha'. apply H. right. exact Ha'.
Qed.

(** The rows of the bots that are polled have distinct keys, so a row is
    changed by its own iteration only. *)
Lemma fold_stepRow_own p now act b :
  NoDup (map b_id act) ->
  (forall a, In a act -> b_id a = b_id b -> a = b) ->
  fold_left (fun r a => stepRow p now a r) act b
  = if existsb (fun a => b_id a =? b_id b) act then polled p now b else b.
Proof.
  induction act as [|a act IH]; simpl; intros Hnd Hown; [reflexivity|].
  inversion Hnd as [|? ? Hnotin Hnd']; subst.
  destruct (b_id a =? b_id b) eqn:E; simpl.
  - apply Z.eqb_eq in E.
    assert (a = b) by (apply Hown; auto). subst a.
    rewrite fold_stepRow_others.
    + unfold stepRow, polled. destruct (statusChange p b); [|reflexivity].
      rewrite Z.eqb_refl. reflexivity.
    + intros a' Ha' Heq. apply Hnotin. rewrite stepRow_id in Heq.
      rewrite <- Heq. apply in_map. exact Ha'.
  - apply Z.eqb_neq in E. rewrite stepRow_other by exact E.
    apply IH; [assumption|]. intros a' Ha'. apply Hown. right. exact Ha'.
Qed.

Lemma NoDup_map_filter {A B : Type} (proj : A -> B) (c : A -> bool)
    (l : list A) :
  NoDup (map proj l) -> NoDup (map proj (filter c l)).
Proof.
  induction l as [|a l IH]; simpl; intros Hnd; [constructor|].
  inversion Hnd as [|? ? Hnotin Hnd']; subst.
  destruct (c a); simpl; [|auto]. constructor; [|auto].
  intros Hin. apply Hnotin. apply in_map_iff in Hin.
  destruct Hin as [x [Hx Hin]]. apply filter_In in Hin.
  rewrite <- Hx. apply in_map. tauto.
Qed.

Lemma sweepStatuses_bots p now st :
  NoDup (map b_id (recallBots st)) ->
  recallBots (sweepStatuses p now st)
  = map (fun b => if isActive b then polled p now b else b) (recallBots st).
Proof.
  intros Hnd. unfold sweepStatuses. rewrite sweepStatuses_fold_bots.
  apply map_ext_in. intros b Hb.
  rewrite fold_stepRow_own.
  - destruct (isActive b) eqn:Hact.
    + assert (E : existsb (fun a => b_id a =? b_id b)
                    (filter isActive (recallBots st)) = true).
      { apply existsb_exists. exists b. split.
        - apply filter_In. auto.
        - apply Z.eqb_refl. }
      rewrite E. reflexivity.
    + destruct (existsb _ _) eqn:E; [|reflexivity].
      apply existsb_exists in E. destruct E as [a [Ha Heq]].
      apply filter_In in Ha. destruct Ha as [Ha Hact'].
      apply Z.eqb_eq in Heq.
      rewrite (NoDup_key_eq b_id _ a b Hnd Ha Hb Heq) in Hact'. congruence.
  - apply NoDup_map_filter. exact Hnd.
  - intros a Ha Heq. apply filter_In in Ha.
    apply (NoDup_key_eq b_id _ a b Hnd); tauto.
Qed.

Lemma processMeeting_bots p now b st :
  recallBots (processMeeting p now b st) = recallBots st.
Proof.
  unfold processMeeting. repeat case_match_goal; reflexivity.
Qed.

Lemma sweepTranscripts_bots p now st :
  recallBots (sweepTranscripts p now st) = recallBots st.
Proof.
  unfold sweepTranscripts.
  generalize (filter isCompleted (recallBots st)) as l.
  intros l. revert st. induction l as [|b l IH]; intros st; simpl.
  - reflexivity.
  - rewrite IH. apply processMeeting_bots.
Qed.

Lemma polled_status p now b :
  b_status (polled p now b)
  = match observedCode p b with
    | Some code => mapStatus code (b_status b)
    | None => b_status b
    end.
Proof.
  unfold polled, statusChange. destruct (observedCode p b); [|reflexivity].
  cbv zeta. destruct (_ =? _)%string eqn:E; simpl; [|reflexivity].
  apply String.eqb_eq in E. congruence.
Qed.

(** C1, as the code has it.  A run of the background task leaves a bot that
    is completed or failed (not among the active ones) as it is; an active
    bot comes out as [updateBotStatus] leaves it, with the status mapped
    from the code observed, whether that status is later or earlier than
    the one it had, and with its own status for a code that maps to none. *)
Theorem sweep_sets_bot_status_from_latest_code
    (st : Store) (p : Provider) (now : Z) :
  reachable st ->
  Forall2
    (fun b b' =>
       b_id b' = b_id b /\
       (isActive b = false -> b' = b) /\
       (isActive b = true ->
        b' = polled p now b /\
        b_status b' = match observedCode p b with
                      | Some code => orElse (codeStatus code) (b_status b)
                      | None => b_status b
                      end))
    (recallBots st) (recallBots (sweep p now st)).
Proof.
  intros Hr. apply reachable_consistent in Hr.
  unfold sweep. rewrite sweepTranscripts_bots, sweepStatuses_bots
    by (apply (bot_ids st Hr)).
  apply Forall2_map_r. intros b _.
  destruct (isActive b) eqn:Hact.
  - split; [|split]; [| discriminate |].
    + unfold polled. destruct (statusChange p b); reflexivity.
    + intros _. split; [reflexivity|].
      rewrite polled_status. destruct (observedCode p b); [|reflexivity].
      apply mapStatus_table.
  - split; [reflexivity|]. split; [reflexivity | discriminate].
Qed.

(** A sequence of runs of the task stays among the databases the
    application reaches. *)
Lemma reachable_sweeps runs st : reachable st -> reachable (sweeps runs st).
Proof.
  unfold sweeps. revert st.
  induction runs as [|run runs IH]; simpl; intros st Hr; [exact Hr|].
  apply IH. apply reach_sweep. exact Hr.
Qed.

(** *** Transcripts *)

Lemma transcriptWrites_snoc id l w :
  transcriptWrites id (l ++ [w])
  = (transcriptWrites id l + if writesTranscript id w then 1 else 0)%nat.
Proof.
  unfold transcriptWrites. rewrite filter_app, length_app. simpl.
  destruct (writesTranscript id w); reflexivity.
Qed.

Lemma transcriptsOnce_same st st' :
  meetings st' = meetings st -> nextMeetingId st' = nextMeetingId st ->
  (forall id, transcriptWrites id (log st') = transcriptWrites id (log st)) ->
  transcriptsOnce st -> transcriptsOnce st'.
Proof.
  intros Hm Hn Hl [H1 H2 H3]. constructor.
  - intros id. rewrite Hl. apply H1.
  - intros id m. rewrite Hl, Hm. apply H2.
  - intros id. rewrite Hl, Hn. apply H3.
Qed.

Lemma transcriptsOnce_logged w st :
  (forall id, writesTranscript id w = false) ->
  transcriptsOnce st -> transcriptsOnce (logged w st).
Proof.
  intros Hw. apply transcriptsOnce_same; try reflexivity.
  intros id. simpl. rewrite transcriptWrites_snoc, Hw. lia.
Qed.

Lemma transcriptsOnce_updateRecallBot id status now st :
  transcriptsOnce st -> transcriptsOnce (snd (updateRecallBot id status now st)).
Proof.
  apply transcriptsOnce_same; try reflexivity.
  intros i. simpl. rewrite transcriptWrites_snoc. simpl. lia.
Qed.

Lemma transcriptsOnce_createRecallBot uid ev rid status now st :
  transcriptsOnce st ->
  transcriptsOnce (snd (createRecallBot uid ev rid status now st)).
Proof.
  apply transcriptsOnce_same; try reflexivity.
  intros i. simpl. rewrite transcriptWrites_snoc. simpl. lia.
Qed.

Lemma transcriptsOnce_createMeeting uid ev title start fin plat att status now st :
  transcriptsOnce st ->
  transcriptsOnce
    (snd (createMeeting uid ev title start fin plat att status now st)).
Proof.
  intros [H1 H2 H3]. constructor; simpl.
  - intros id. rewrite transcriptWrites_snoc. simpl.
    specialize (H1 id). lia.
  - intros id m. rewrite transcriptWrites_snoc. simpl. rewrite Nat.add_0_r.
    intros Hw Hin Hid. apply in_app_iff in Hin.
    destruct Hin as [Hin | [<- | []]].
    + apply (H2 id m); assumption.
    + simpl in Hid. specialize (H3 id Hw). lia.
  - intros id. rewrite transcriptWrites_snoc. simpl. rewrite Nat.add_0_r.
    intros Hw. specialize (H3 id Hw). lia.
Qed.

(** An update that does not carry a transcript. *)
Lemma transcriptsOnce_updateMeeting_other id data now st :
  p_transcript data = None ->
  transcriptsOnce st -> transcriptsOnce (snd (updateMeeting id data now st)).
Proof.
  intros Hd [H1 H2 H3].
  assert (Hw : forall i, transcriptWrites i (log st ++ [W_updateMeeting id data])
                         = transcriptWrites i (log st)).
  { intros i. rewrite transcriptWrites_snoc. simpl. rewrite Hd.
    rewrite andb_false_r. lia. }
  constructor; simpl.
  - intros i. rewrite Hw. apply H1.
  - intros i m. rewrite Hw. intros Hc Hin Hid. apply In_update in Hin.
    destruct Hin as [x [Hx [[_ ->] | [_ ->]]]].
    + apply (H2 i x); assumption.
    + simpl. rewrite Hd. apply (H2 i x); assumption.
  - intros i. rewrite Hw. apply H3.
Qed.

(** An update that carries a transcript, for a meeting that has none. *)
Lemma transcriptsOnce_updateMeeting_transcript meeting data now st :
  consistent st ->
  In meeting (meetings st) -> m_transcript meeting = None ->
  transcriptsOnce st ->
  transcriptsOnce (snd (updateMeeting (m_id meeting) data now st)).
Proof.
  intros Hc Hin Hnone [H1 H2 H3].
  assert (Hzero : transcriptWrites (m_id meeting) (log st) = 0%nat).
  { destruct (transcriptWrites (m_id meeting) (log st)) eqn:E;
      [reflexivity|].
    exfalso. apply (H2 (m_id meeting) meeting); auto. lia. }
  assert (Hw : forall i,
             (transcriptWrites i
                (log st ++ [W_updateMeeting (m_id meeting) data])
              <= if (i =? m_id meeting)%Z then 1
                 else transcriptWrites i (log st))%nat).
  { intros i. rewrite transcriptWrites_snoc. simpl.
    rewrite (Z.eqb_sym (m_id meeting) i).
    destruct (i =? m_id meeting) eqn:E; simpl.
    - apply Z.eqb_eq in E. subst i. rewrite Hzero.
      destruct (p_transcript data); simpl; lia.
    - lia. }
  assert (Hw' : forall i, i <> m_id meeting ->
             transcriptWrites i
               (log st ++ [W_updateMeeting (m_id meeting) data])
             = transcriptWrites i (log st)).
  { intros i Hi. rewrite transcriptWrites_snoc. simpl.
    apply Z.eqb_neq in Hi. rewrite (Z.eqb_sym (m_id meeting) i), Hi.
    simpl. lia. }
  constructor; simpl.
  - intros i. specialize (Hw i). specialize (H1 i).
    destruct (i =? m_id meeting); lia.
  - intros i m Hcount Hm Hid. apply In_update in Hm.
    destruct Hm as [x [Hx [[Hk ->] | [Hk ->]]]].
    + apply Z.eqb_neq in Hk.
      assert (Hne : i <> m_id meeting) by congruence.
      rewrite Hw' in Hcount by exact Hne. apply (H2 i x); assumption.
    + apply Z.eqb_eq in Hk. simpl in Hid. simpl.
      assert (x = meeting)
        by (apply (NoDup_key_eq m_id (meetings st) x meeting
                     (meeting_ids st Hc) Hx Hin Hk)).
      subst x i.
      destruct (p_transcript data) eqn:Hp; [discriminate|].
      rewrite transcriptWrites_snoc, Hzero in Hcount. simpl in Hcount.
      rewrite Z.eqb_refl, Hp in Hcount. simpl in Hcount. lia.
  - intros i Hcount.
    destruct (Z.eq_dec i (m_id meeting)) as [-> | Hne].
    + apply (meeting_ids_lt st Hc). exact Hin.
    + rewrite Hw' in Hcount by exact Hne. apply H3. exact Hcount.
Qed.

Lemma hasTranscript_false st meeting :
  consistent st -> In meeting (meetings st) ->
  hasTranscript meeting = false -> m_transcript meeting = None.
Proof.
  intros Hc Hin H. unfold hasTranscript in H.
  destruct (m_transcript meeting) as [t|] eqn:E; [|reflexivity].
  apply negb_false_iff, String.eqb_eq in H. subst t.
  exfalso. exact (transcripts_nonempty st Hc meeting Hin E).
Qed.

Lemma transcriptsOnce_sweepBot p now a st :
  transcriptsOnce st -> transcriptsOnce (sweepBot p now a st).
Proof.
  intros Ht. unfold sweepBot. rewrite updateBotStatus_statusChange.
  assert (H1 : transcriptsOnce
                 (snd match statusChange p a with
                      | Some status => updateRecallBot (b_id a) status now st
                      | None => (Some a, st)
                      end)).
  { destruct (statusChange p a);
      [apply transcriptsOnce_updateRecallBot|]; exact Ht. }
  destruct (match statusChange p a with
            | Some status => updateRecallBot (b_id a) status now st
            | None => (Some a, st)
            end) as [updated st1].
  simpl in H1. repeat case_match_goal; auto.
  apply transcriptsOnce_updateMeeting_other; [reflexivity | exact H1].
Qed.

Lemma transcriptsOnce_processMeeting p now b st :
  consistent st -> transcriptsOnce st ->
  transcriptsOnce (processMeeting p now b st).
Proof.
  intros Hc Ht. unfold processMeeting.
  destruct (negb _); [exact Ht|].
  destruct (getMeetingByCalendarEventId st (b_calendarEventId b))
    as [meeting|] eqn:Hm; [|exact Ht].
  apply getMeetingByCalendarEventId_some in Hm. destruct Hm as [Hin _].
  destruct (hasTranscript meeting) eqn:Hhas; [exact Ht|].
  repeat case_match_goal; auto.
  apply transcriptsOnce_updateMeeting_transcript; auto.
  apply (hasTranscript_false st); assumption.
Qed.

Lemma fold_left_preserves2 {A S : Type} (P Q : S -> Prop) (f : S -> A -> S)
    (l : list A) (s : S) :
  (forall s a, P s -> P (f s a)) ->
  (forall s a, P s -> Q s -> Q (f s a)) ->
  P s -> Q s -> Q (fold_left f l s).
Proof.
  intros HP HQ. revert s. induction l as [|a l IH]; simpl; intros s Hp Hq;
    auto.
Qed.

Lemma transcriptsOnce_sweep p now st :
  consistent st -> transcriptsOnce st -> transcriptsOnce (sweep p now st).
Proof.
  intros Hc Ht. unfold sweep, sweepTranscripts.
  apply (fold_left_preserves2 consistent).
  - intros. apply consistent_processMeeting. assumption.
  - intros. apply transcriptsOnce_processMeeting; assumption.
  - unfold sweepStatuses. apply fold_left_preserves; [|assumption].
    intros. apply consistent_sweepBot. assumption.
  - unfold sweepStatuses. apply fold_left_preserves; [|assumption].
    intros. apply transcriptsOnce_sweepBot. assumption.
Qed.

Lemma transcriptsOnce_fetchTranscript p now uid mid st :
  consistent st -> transcriptsOnce st ->
  transcriptsOnce (fetchTranscript p now uid mid st).
Proof.
  intros Hc Ht. unfold fetchTranscript.
  repeat case_match_goal; auto.
  apply transcriptsOnce_processMeeting; assumption.
Qed.

Lemma transcriptsOnce_setupRecording p now uid ev eid st :
  consistent st -> transcriptsOnce st ->
  transcriptsOnce (setupRecording p now uid ev eid st).
Proof.
  intros Hc Ht. unfold setupRecording.
  destruct (getRecallBotByCalendarEventId st eid); [exact Ht|].
  destruct (laterThan _ now); [|exact Ht].
  pose proof (consistent_createMeeting uid eid (e_title ev) (e_startTime ev)
                (e_endTime ev) (e_platform ev) (e_attendees ev) "scheduled"
                now st Hc) as Hc1.
  pose proof (transcriptsOnce_createMeeting uid eid (e_title ev)
                (e_startTime ev) (e_endTime ev) (e_platform ev)
                (e_attendees ev) "scheduled" now st Ht) as Ht1.
  destruct (createMeeting _ _ _ _ _ _ _ _ _ _) as [meeting st1] eqn:Hcm.
  simpl in Hc1, Ht1.
  destruct (createBot p now ev uid st1) as [[bot st2]|] eqn:Hcb.
  - apply createBot_some in Hcb. destruct Hcb as [rid Hcb].
    apply transcriptsOnce_updateMeeting_other; [reflexivity|].
    replace st2 with (snd (createRecallBot uid (e_id ev) rid "scheduled" now st1))
      by (rewrite Hcb; reflexivity).
    apply transcriptsOnce_createRecallBot. exact Ht1.
  - unfold createMeeting in Hcm. injection Hcm as Hmeeting Hst1.
    apply transcriptsOnce_updateMeeting_transcript; auto.
    + rewrite <- Hst1. simpl. apply in_app_iff. right. left. exact Hmeeting.
    + rewrite <- Hmeeting. reflexivity.
Qed.

Lemma transcriptsOnce_toggleRecording p now uid eid flag st :
  consistent st -> transcriptsOnce st ->
  transcriptsOnce (toggleRecording p now uid eid flag st).
Proof.
  intros Hc Ht. unfold toggleRecording.
  destruct (getCalendarEvent st eid) as [ev|]; [|assumption].
  destruct (getGoogleAccount st (e_googleAccountId ev)); [|assumption].
  destruct (negb _); [assumption|].
  assert (Ht1 : transcriptsOnce (snd (updateCalendarEvent eid flag st))).
  { revert Ht. apply transcriptsOnce_same; try reflexivity.
    intros i. simpl. rewrite transcriptWrites_snoc. simpl. lia. }
  destruct (flag && _); [|assumption].
  apply transcriptsOnce_setupRecording; [|assumption].
  apply consistent_updateCalendarEvent. assumption.
Qed.

Lemma transcriptsOnce_deleteAllRecallBots st :
  transcriptsOnce st -> transcriptsOnce (deleteAllRecallBots st).
Proof.
  intros [H1 H2 H3].
  assert (Hw : forall i, transcriptWrites i (log st ++ [W_deleteRecallBots])
                         = transcriptWrites i (log st)).
  { intros i. rewrite transcriptWrites_snoc. simpl. lia. }
  constructor; simpl.
  - intros i. rewrite Hw. apply H1.
  - intros i m. rewrite Hw. intros Hcount Hin Hid.
    apply in_map_iff in Hin. destruct Hin as [x [<- Hx]]. simpl.
    apply (H2 i x); assumption.
  - intros i. rewrite Hw. apply H3.
Qed.

Lemma transcriptsOnce_deleteAllMeetings st :
  transcriptsOnce st -> transcriptsOnce (deleteAllMeetings st).
Proof.
  intros [H1 H2 H3].
  assert (Hw : forall i, transcriptWrites i (log st ++ [W_deleteMeetings])
                         = transcriptWrites i (log st)).
  { intros i. rewrite transcriptWrites_snoc. simpl. lia. }
  constructor; simpl.
  - intros i. rewrite Hw. apply H1.
  - intros i m _ [].
  - intros i. rewrite Hw. apply H3.
Qed.

Lemma reachable_transcriptsOnce st : reachable st -> transcriptsOnce st.
Proof.
  induction 1 as [es gs ss | es gs ss st Hr IH | p now uid eid flag st Hr IH
                 | p now st Hr IH | p now uid mid st Hr IH | st Hr IH
                 | st Hr IH];
    try (pose proof (reachable_consistent st Hr) as Hc).
  - constructor; unfold transcriptWrites; simpl; intros; lia.
  - revert IH. apply transcriptsOnce_same; reflexivity.
  - apply transcriptsOnce_toggleRecording; assumption.
  - apply transcriptsOnce_sweep; assumption.
  - apply transcriptsOnce_fetchTranscript; assumption.
  - apply transcriptsOnce_deleteAllRecallBots; assumption.
  - apply transcriptsOnce_deleteAllMeetings; assumption.
Qed.

Lemma keepsTranscript_refl m : keepsTranscript m m.
Proof. split; auto. Qed.

Lemma keepsTranscript_trans m1 m2 m3 :
  keepsTranscript m1 m2 -> keepsTranscript m2 m3 -> keepsTranscript m1 m3.
Proof.
  intros [H1 H2] [H3 H4]. split; [congruence|].
  intros Hn. rewrite H4; [auto|]. rewrite H2; auto.
Qed.

Lemma sweepBot_keeps p now a st :
  Forall2 keepsTranscript (meetings st) (meetings (sweepBot p now a st)).
Proof.
  unfold sweepBot. rewrite updateBotStatus_statusChange.
  assert (E : meetings (snd match statusChange p a with
                            | Some status =>
                                updateRecallBot (b_id a) status now st
                            | None => (Some a, st)
                            end) = meetings st)
    by (destruct (statusChange p a); reflexivity).
  destruct (match statusChange p a with
            | Some status => updateRecallBot (b_id a) status now st
            | None => (Some a, st)
            end) as [updated st1].
  simpl in E. rewrite <- E.
  repeat case_match_goal;
    try (apply Forall2_refl_on; apply keepsTranscript_refl).
  simpl. apply Forall2_map_r. intros x _.
  destruct (_ =? _); [|apply keepsTranscript_refl].
  split; reflexivity.
Qed.

Lemma processMeeting_keeps p now b st :
  consistent st ->
  Forall2 keepsTranscript (meetings st) (meetings (processMeeting p now b st)).
Proof.
  intros Hc. unfold processMeeting.
  destruct (negb _); [apply Forall2_refl_on; apply keepsTranscript_refl|].
  destruct (getMeetingByCalendarEventId st (b_calendarEventId b))
    as [meeting|] eqn:Hm;
    [|apply Forall2_refl_on; apply keepsTranscript_refl].
  apply getMeetingByCalendarEventId_some in Hm. destruct Hm as [Hin _].
  destruct (hasTranscript meeting) eqn:Hhas;
    [apply Forall2_refl_on; apply keepsTranscript_refl|].
  repeat case_match_goal;
    try (apply Forall2_refl_on; apply keepsTranscript_refl).
  simpl. apply Forall2_map_r. intros x Hx.
  destruct (m_id x =? m_id meeting) eqn:E; [|apply keepsTranscript_refl].
  apply Z.eqb_eq in E.
  assert (x = meeting)
    by (apply (NoDup_key_eq m_id (meetings st) x meeting
                 (meeting_ids st Hc) Hx Hin E)).
  subst x. split; [reflexivity|].
  rewrite (hasTranscript_false st meeting Hc Hin Hhas). congruence.
Qed.

Lemma fold_left_related {A S R : Type} (P : S -> Prop) (proj : S -> list R)
    (rel : R -> R -> Prop) (f : S -> A -> S) (l : list A) (s : S) :
  (forall x, rel x x) ->
  (forall x y z, rel x y -> rel y z -> rel x z) ->
  (forall s a, P s -> P (f s a)) ->
  (forall s a, P s -> Forall2 rel (proj s) (proj (f s a))) ->
  P s -> Forall2 rel (proj s) (proj (fold_left f l s)).
Proof.
  intros Hrefl Htrans HP Hrel. revert s.
  induction l as [|a l IH]; simpl; intros s Hs.
  - apply Forall2_refl_on. exact Hrefl.
  - apply (Forall2_trans_on rel _ (proj (f s a))); auto.
Qed.

Lemma sweep_keeps p now st :
  consistent st ->
  Forall2 keepsTranscript (meetings st) (meetings (sweep p now st)).
Proof.
  intros Hc. unfold sweep.
  apply (Forall2_trans_on keepsTranscript _
           (meetings (sweepStatuses p now st))).
  - apply keepsTranscript_trans.
  - unfold sweepStatuses.
    apply (fold_left_related consistent meetings keepsTranscript).
    + apply keepsTranscript_refl.
    + apply keepsTranscript_trans.
    + intros. apply consistent_sweepBot. assumption.
    + intros. apply sweepBot_keeps.
    + exact Hc.
  - unfold sweepTranscripts.
    apply (fold_left_related consistent meetings keepsTranscript).
    + apply keepsTranscript_refl.
    + apply keepsTranscript_trans.
    + intros. apply consistent_processMeeting. assumption.
    + intros. apply processMeeting_keeps. assumption.
    + unfold sweepStatuses. apply fold_left_preserves; [|exact Hc].
      intros. apply consistent_sweepBot. assumption.
Qed.

(** C5. In every database the application reaches, a run of the background
    task and a call of [processMeeting] leave every meeting that has a
    transcript with the transcript it has, and the log has at most one
    write of a transcript for a meeting. *)
Theorem stored_transcript_is_final (st : Store) :
  reachable st ->
  (forall id, (transcriptWrites id (log st) <= 1)%nat) /\
  (forall p now,
     Forall2 keepsTranscript (meetings st) (meetings (sweep p now st))) /\
  (forall p now bot,
     Forall2 keepsTranscript (meetings st)
       (meetings (processMeeting p now bot st))).
Proof.
  intros Hr. pose proof (reachable_consistent st Hr) as Hc.
  split; [|split].
  - apply (written_once st). apply reachable_transcriptsOnce. exact Hr.
  - intros p now. apply sweep_keeps. exact Hc.
  - intros p now bot. apply processMeeting_keeps. exact Hc.
Qed.

(** *** The meeting status *)

Lemma filter_map_length {A B : Type} (proj : A -> B) (c : B -> bool)
    (l : list A) :
  List.length (filter (fun x => c (proj x)) l)
  = List.length (filter c (map proj l)).
Proof.
  induction l as [|a l IH]; simpl; [reflexivity|].
  destruct (c (proj a)); simpl; rewrite IH; reflexivity.
Qed.

Lemma meetingsOf_length_events st st' E :
  map m_calendarEventId (meetings st') = map m_calendarEventId (meetings st) ->
  List.length (meetingsOf st' E) = List.length (meetingsOf st E).
Proof.
  intros H. unfold meetingsOf.
  rewrite (filter_map_length m_calendarEventId (fun e => e =? E)).
  rewrite (filter_map_length m_calendarEventId (fun e => e =? E) (meetings st)).
  rewrite H. reflexivity.
Qed.

Lemma meetingRank_le_2 s : meetingRank s <= 2.
Proof.
  unfold meetingRank.
  repeat match goal with
         | |- context [(s =? ?c)%string] => destruct (s =? c)%string
         end; lia.
Qed.

Lemma meetingRank_nonterminal s :
  ~ isTerminal s -> meetingRank s <= 1.
Proof.
  intros H. unfold meetingRank.
  destruct (s =? "scheduled")%string; [lia|].
  destruct (s =? "in_progress")%string; [lia|].
  destruct (s =? "completed")%string eqn:E1.
  { apply String.eqb_eq in E1. exfalso. apply H. left. exact E1. }
  destruct (s =? "failed")%string eqn:E2.
  { apply String.eqb_eq in E2. exfalso. apply H. right. exact E2. }
  lia.
Qed.

(** What the propagation writes when it writes. *)
Lemma propagate_cases botStatus current :
  propagate botStatus current = current \/
  ((botStatus = "joined" \/ botStatus = "recording") /\
   propagate botStatus current = "in_progress") \/
  (botStatus = "completed" /\ propagate botStatus current = "completed") \/
  (botStatus = "failed" /\ propagate botStatus current = "failed").
Proof.
  unfold propagate.
  destruct (botStatus =? "joined")%string eqn:E1.
  { apply String.eqb_eq in E1. right. left. auto. }
  destruct (botStatus =? "recording")%string eqn:E2.
  { apply String.eqb_eq in E2. right. left. auto. }
  destruct (botStatus =? "completed")%string eqn:E3.
  { apply String.eqb_eq in E3. right. right. left. auto. }
  destruct (botStatus =? "failed")%string eqn:E4.
  { apply String.eqb_eq in E4. right. right. right. auto. }
  left. reflexivity.
Qed.

(** The effect of one iteration of the first loop on the two tables. *)
Lemma sweepBot_effect p now a st :
  In a (recallBots st) ->
  (sweepBot p now a st = st) \/
  exists status,
    statusChange p a = Some status /\
    recallBots (sweepBot p now a st)
    = map (fun r => if b_id r =? b_id a then setBotStatus status now r else r)
        (recallBots st) /\
    (meetings (sweepBot p now a st) = meetings st \/
     exists meeting,
       In meeting (meetings st) /\
       m_calendarEventId meeting = b_calendarEventId a /\
       propagate status (m_status meeting) <> m_status meeting /\
       meetings (sweepBot p now a st)
       = map (fun m => if m_id m =? m_id meeting
                       then applyPatch
                              (statusPatch
                                 (propagate status (m_status meeting))) now m
                       else m) (meetings st)).
Proof.
  intros Hin. unfold sweepBot. rewrite updateBotStatus_statusChange.
  destruct (statusChange p a) as [status|] eqn:Hsc.
  - right. exists status. split; [reflexivity|].
    unfold updateRecallBot. cbv zeta.
    rewrite (find_update b_id (b_id a) (setBotStatus status now))
      by reflexivity.
    destruct (find (fun x => b_id x =? b_id a) (recallBots st)) as [r|] eqn:Hf.
    2:{ exfalso. apply (find_key_none b_id _ _ Hf a Hin). reflexivity. }
    simpl option_map. cbv iota. simpl b_status.
    destruct (negb (status =? b_status a)%string); [|simpl; auto].
    match goal with
    | |- context [getMeetingByCalendarEventId ?s ?e] =>
        destruct (getMeetingByCalendarEventId s e) as [meeting|] eqn:Hm
    end; [|simpl; auto].
    apply getMeetingByCalendarEventId_some in Hm. simpl in Hm.
    destruct Hm as [Hmin Hmev].
    destruct (negb (_ =? _)%string) eqn:Hneq; [|simpl; auto].
    simpl. split; [reflexivity|]. right. exists meeting.
    split; [exact Hmin|]. split; [exact Hmev|]. split; [|reflexivity].
    apply negb_true_iff, String.eqb_neq in Hneq. exact Hneq.
  - left. rewrite String.eqb_refl. reflexivity.
Qed.

Lemma not_terminal_in_progress : ~ isTerminal "in_progress".
Proof. intros [H | H]; discriminate. Qed.

(** The effect of [processMeeting] on the database: nothing, or one update
    of the meeting the lookup on the bot's event returns. *)
Lemma processMeeting_write p now b st :
  processMeeting p now b st = st \/
  exists meeting transcript,
    b_status b = "completed" /\
    getMeetingByCalendarEventId st (b_calendarEventId b) = Some meeting /\
    In meeting (meetings st) /\
    m_calendarEventId meeting = b_calendarEventId b /\
    hasTranscript meeting = false /\
    fst (getTranscript p 1 (b_recallBotId b)) = JStr transcript /\
    transcript <> "" /\
    nonBlank transcript = true /\
    processMeeting p now b st
    = snd (updateMeeting (m_id meeting) (transcriptPatch transcript) now st).
Proof.
  unfold processMeeting.
  destruct (b_status b =? "completed")%string eqn:Es; [|left; reflexivity].
  cbn [negb].
  destruct (getMeetingByCalendarEventId st (b_calendarEventId b))
    as [meeting|] eqn:Em; [|left; reflexivity].
  destruct (hasTranscript meeting) eqn:Eh; [left; reflexivity|].
  destruct (getBotStatus p 0 (b_recallBotId b)); [|left; reflexivity].
  destruct (readyToFetch now v) as [[|]|]; try (left; reflexivity).
  destruct (fst (getTranscript p 1 (b_recallBotId b))) eqn:Et;
    try (left; reflexivity).
  destruct (truthy (JStr s)) eqn:Etr; [|left; reflexivity].
  destruct (nonBlank s) eqn:En; [|left; reflexivity].
  right. exists meeting, s. apply String.eqb_eq in Es.
  destruct (getMeetingByCalendarEventId_some _ _ _ Em) as [Hin Hev].
  assert (Hne : s <> "").
  { intros ->. discriminate Etr. }
  simpl. auto 12.
Qed.

End Properties.

(** ** The statements on the sample data *)

Local Open Scope list_scope.

Lemma reachable_storeScheduled : reachable (RT := sampleRuntime) storeScheduled.
Proof. unfold storeScheduled, store0. apply reach_toggle. apply reach_empty. Qed.

Lemma reachable_storeRetried : reachable (RT := sampleRuntime) storeRetried.
Proof.
  unfold storeRetried, storeFailed, store0.
  apply reach_toggle. apply reach_toggle. apply reach_empty.
Qed.

Lemma reachable_storeRecording : reachable (RT := sampleRuntime) storeRecording.
Proof. unfold storeRecording. apply reach_sweep, reachable_storeScheduled. Qed.

Lemma reachable_storeTranscribed :
  reachable (RT := sampleRuntime) storeTranscribed.
Proof.
  unfold storeTranscribed, storeCompleted.
  apply reach_sweep, reach_sweep, reachable_storeScheduled.
Qed.

(** The bare array of segments of the specification. *)
Example probeShapes_hello_world :
  probeShapes (RT := sampleRuntime)
    (JArr [JObj [("text", JStr "Hello")]; JObj [("text", JStr "world")]])
  = Some (JStr "Hello world").
Proof. reflexivity. Qed.

(** C1, as stated, fails: the bot of [storeRecording] is recording, the
    provider then reports [ready], and [updateBotStatus], alone and in a run
    of the background task, stores [scheduled], which is earlier. *)
Lemma bot_status_moves_backward :
  reachable (RT := sampleRuntime) storeRecording /\
  getRecallBot storeRecording 1 = Some (sampleBot "recording") /\
  option_map b_status
    (getRecallBot
       (snd (updateBotStatus
               (providerOf (snapshotWithCode "ready")) t0
               (sampleBot "recording") storeRecording)) 1)
  = Some "scheduled" /\
  map b_status
    (recallBots (sweep (RT := sampleRuntime)
                   (providerOf (snapshotWithCode "ready")) t0 storeRecording))
  = ["scheduled"] /\
  botRank "scheduled" < botRank "recording".
Proof.
  split; [exact reachable_storeRecording|].
  repeat split.
Qed.

(** C3: the bot of [storeScheduled] goes to [joining] in a run of the
    background task, and its meeting stays [scheduled]. *)
Theorem joining_bot_leaves_meeting_scheduled :
  let st := sweep (RT := sampleRuntime)
              (providerOf (snapshotWithCode "joining_call")) t0
              storeScheduled in
  map b_status (recallBots storeScheduled) = ["scheduled"] /\
  map m_status (meetings storeScheduled) = ["scheduled"] /\
  map b_status (recallBots st) = ["joining"] /\
  map m_status (meetings st) = ["scheduled"] /\
  propagate "joining" "scheduled" = "scheduled" /\
  propagate "joined" "scheduled" = "in_progress".
Proof. repeat split. Qed.

(** C4, as stated, fails: in [storeRetried] the event has the failed
    meeting of the first attempt, which names no bot, and the scheduled
    meeting of the second.  The lookup on the event returns the failed one:
    when the bot of the second attempt is seen recording, the run of the
    background task moves that meeting from [failed] to [in_progress]. *)
Lemma meeting_status_moves_backward :
  reachable (RT := sampleRuntime) storeRetried /\
  map m_status (meetings storeRetried) = ["failed"; "scheduled"] /\
  map m_status
    (meetings (sweep (RT := sampleRuntime)
                 (providerOf (snapshotWithCode "in_call_recording")) t0
                 storeRetried))
  = ["in_progress"; "scheduled"] /\
  meetingRank "in_progress" < meetingRank "failed".
Proof.
  split; [exact reachable_storeRetried|].
  repeat split.
Qed.

(** C6, as stated, fails: after an attempt that failed the event has no
    bot, and the next call of the route inserts a second meeting. *)
Lemma retry_inserts_second_meeting :
  storeRetried
  = toggleRecording (RT := sampleRuntime) providerOk t0 7 1 true
      (toggleRecording (RT := sampleRuntime) providerDown t0 7 1 true store0)
  /\
  option_map e_isRecordingEnabled (getCalendarEvent storeRetried 1)
  = Some true /\
  List.length (meetingsOf storeFailed 1) = 1%nat /\
  List.length (meetingsOf storeRetried 1) = 2%nat /\
  List.length (botsOf storeRetried 1) = 1%nat.
Proof. repeat split. Qed.


(** C10, as stated, fails: the first status request of the call is answered
    with a recording that is completed for more than five minutes and not
    transcribed, so that [processMeeting] goes on to the fetch; the status
    request of [getTranscript] is answered with the transcription
    completed, and the transcript is written. *)
Lemma transcript_written_after_five_minute_wait :
  let p := providerTranscribing snapshotUntranscribed (snapshotDone [])
             (JStr "Hello") in
  getBotStatus p 0 "rb-1" = Some snapshotUntranscribed /\
  transcriptionPending snapshotUntranscribed /\
  readyToFetch (RT := sampleRuntime) t1610 snapshotUntranscribed
  = Some true /\
  map m_transcript (meetings storeCompleted) = [None] /\
  map m_transcript
    (meetings (processMeeting (RT := sampleRuntime) p t1610
                 (sampleBot "completed") storeCompleted))
  = [Some "Hello"].
Proof. repeat split. Qed.

(** *** Instances of the theorems *)

Lemma sweep_sets_bot_status_from_latest_code_witness :
  reachable (RT := sampleRuntime) storeScheduled /\
  Forall2
    (fun b b' =>
       b_id b' = b_id b /\
       (isActive b = false -> b' = b) /\
       (isActive b = true ->
        b' = polled (providerOf (snapshotWithCode "in_call_recording")) t0 b /\
        b_status b'
        = match observedCode
                  (providerOf (snapshotWithCode "in_call_recording")) b with
          | Some code => orElse (codeStatus code) (b_status b)
          | None => b_status b
          end))
    (recallBots storeScheduled) (recallBots storeRecording).
Proof.
  split; [exact reachable_storeScheduled|].
  exact (sweep_sets_bot_status_from_latest_code (RT := sampleRuntime)
           storeScheduled
           (providerOf (snapshotWithCode "in_call_recording")) t0
           reachable_storeScheduled).
Defined.

Lemma updateBotStatus_follows_table_witness :
  exists bot',
    fst (updateBotStatus
           (providerOf (snapshotWithCode "in_call_recording")) t0
           (sampleBot "scheduled") storeScheduled) = Some bot' /\
    getRecallBot
      (snd (updateBotStatus
              (providerOf (snapshotWithCode "in_call_recording")) t0
              (sampleBot "scheduled") storeScheduled)) 1 = Some bot' /\
    b_status bot' = "recording".
Proof.
  exact (updateBotStatus_follows_table
           (providerOf (snapshotWithCode "in_call_recording")) t0
           (sampleBot "scheduled") storeScheduled
           (snapshotWithCode "in_call_recording")
           [JObj [("code", JStr "ready")]]
           (JObj [("code", JStr "in_call_recording")])
           (JStr "in_call_recording")
           eq_refl eq_refl eq_refl eq_refl).
Defined.

Lemma stored_transcript_is_final_witness :
  reachable (RT := sampleRuntime) storeTranscribed /\
  map m_transcript (meetings storeTranscribed) = [Some "Hello"] /\
  (forall id, (transcriptWrites id (log storeTranscribed) <= 1)%nat) /\
  (forall p now,
     Forall2 keepsTranscript (meetings storeTranscribed)
       (meetings (sweep (RT := sampleRuntime) p now storeTranscribed))) /\
  (forall p now bot,
     Forall2 keepsTranscript (meetings storeTranscribed)
       (meetings (processMeeting (RT := sampleRuntime) p now bot
                    storeTranscribed))).
Proof.
  split; [exact reachable_storeTranscribed|].
  split; [reflexivity|].
  exact (stored_transcript_is_final (RT := sampleRuntime) storeTranscribed
           reachable_storeTranscribed).
Defined.

Lemma one_bot_per_event_witness :
  reachable (RT := sampleRuntime) storeRetried /\
  (forall eventId, (List.length (botsOf storeRetried eventId) <= 1)%nat) /\
  (forall p now sessionUserId eventId flag,
     getRecallBotByCalendarEventId (RT := sampleRuntime) storeRetried eventId
     <> None ->
     recallBots (toggleRecording (RT := sampleRuntime) p now sessionUserId
                   eventId flag storeRetried)
       = recallBots storeRetried /\
     meetings (toggleRecording (RT := sampleRuntime) p now sessionUserId
                 eventId flag storeRetried)
       = meetings storeRetried).
Proof.
  split; [exact reachable_storeRetried|].
  exact (one_bot_per_event (RT := sampleRuntime) storeRetried
           reachable_storeRetried).
Defined.


Lemma toggle_marks_meeting_failed_witness :
  exists meeting,
    meetings storeFailed = meetings store0 ++ [meeting] /\
    m_id meeting = nextMeetingId store0 /\
    m_calendarEventId meeting = 1 /\
    m_status meeting = "failed" /\
    m_transcript meeting = Some "Failed to create recording bot" /\
    recallBots storeFailed = recallBots store0 /\
    forall m, In m (meetings storeFailed) -> m_status m = "scheduled" ->
              In m (meetings store0).
Proof.
  refine (toggle_marks_meeting_failed (RT := sampleRuntime) providerDown t0 7 1
            store0 sampleEvent sampleAccount
            (consistent_emptyStore _ _ _) eq_refl eq_refl eq_refl _ eq_refl
            eq_refl eq_refl).
  discriminate.
Defined.

Lemma updateBotStatus_error_is_noop_witness :
  updateBotStatus providerDown t0 (sampleBot "scheduled")
    storeScheduled
  = (Some (sampleBot "scheduled"), storeScheduled).
Proof.
  exact (updateBotStatus_error_is_noop providerDown t0
           (sampleBot "scheduled") storeScheduled (or_introl eq_refl)).
Defined.

Lemma getTranscript_needs_completed_transcription_witness :
  let p := providerWithTranscript snapshotUntranscribed (JStr "Hello") in
  getTranscript (RT := sampleRuntime) p 1 "rb-1" = (JNull, ["/bot/rb-1"]) /\
  processMeeting (RT := sampleRuntime) p t1610 (sampleBot "completed")
    storeCompleted = storeCompleted.
Proof.
  intros p.
  destruct (getTranscript_needs_completed_transcription (RT := sampleRuntime)
              p 1 t1610 (sampleBot "completed") storeCompleted
              snapshotUntranscribed eq_refl eq_refl) as [H1 H2].
  split; [exact H1 | exact (H2 eq_refl)].
Defined.

(** ** More of the code *)

Section Extras.
Context {RT : Runtime}.

Local Open Scope list_scope.

(** *** Retries *)

Lemma sumZ_app l1 l2 : sumZ (l1 ++ l2) = sumZ l1 + sumZ l2.
Proof. induction l1 as [|x l1 IH]; simpl; [reflexivity | rewrite IH; lia]. Qed.

Lemma backoffDelays_S delay n :
  backoffDelays delay (S n)
  = backoffDelays delay n ++ [delay * 2 ^ Z.of_nat n].
Proof. unfold backoffDelays. rewrite seq_S, map_app. reflexivity. Qed.

Lemma sumZ_backoffDelays delay n :
  sumZ (backoffDelays delay n) = delay * (2 ^ Z.of_nat n - 1).
Proof.
  induction n as [|n IH].
  - simpl. lia.
  - rewrite backoffDelays_S, sumZ_app, IH. cbn [sumZ].
    rewrite Nat2Z.inj_succ, Z.pow_succ_r by lia. ring.
Qed.

(** The pauses of the loop, from any iteration on. *)
Lemma retryFrom_trace {T E : Type} (operation : nat -> Outcome T E)
    (maxRetries : nat) (delay : Z) (remaining : nat) :
  forall i lastError,
    (i + remaining)%nat = maxRetries ->
    let r := retryFrom operation maxRetries delay remaining i lastError in
    (r_calls r <= remaining)%nat /\
    (remaining <> 0%nat -> r_calls r <> 0%nat) /\
    r_sleeps r
    = map (fun j => delay * 2 ^ Z.of_nat j) (seq i (r_calls r - 1)).
Proof.
  induction remaining as [|remaining IH]; intros i lastError Hsum; simpl.
  - split; [lia|]. split; [auto | reflexivity].
  - destruct (operation i) as [x | error]; simpl.
    + split; [lia|]. split; [discriminate | reflexivity].
    + destruct (IH (S i) (Some error)) as [Hle [Hpos Hsleeps]]; [lia|].
      split; [lia|]. split; [discriminate|].
      rewrite Hsleeps, Nat.sub_0_r.
      destruct remaining as [|remaining'].
      * assert (E0 : (S i <? maxRetries)%nat = false)
          by (apply Nat.ltb_ge; lia).
        rewrite E0. simpl. reflexivity.
      * assert (E1 : (S i <? maxRetries)%nat = true)
          by (apply Nat.ltb_lt; lia).
        rewrite E1.
        destruct (r_calls _) as [|calls] eqn:Hcalls.
        { exfalso. apply Hpos; [congruence | reflexivity]. }
        simpl. rewrite Nat.sub_0_r. reflexivity.
Qed.

Lemma retryFrom_first_success {T E : Type} (operation : nat -> Outcome T E)
    (maxRetries : nat) (delay : Z) (x : T) (remaining : nat) :
  forall i k lastError,
    (i <= k)%nat -> (k < i + remaining)%nat ->
    (forall j, (i <= j)%nat -> (j < k)%nat -> exists e, operation j = Threw e) ->
    operation k = Returned x ->
    let r := retryFrom operation maxRetries delay remaining i lastError in
    r_outcome r = Returned x /\ r_calls r = S (k - i).
Proof.
  induction remaining as [|remaining IH]; intros i k lastError Hik Hk Hfail Hok;
    simpl; [lia|].
  destruct (Nat.eq_dec i k) as [-> | Hne].
  - rewrite Hok. simpl. split; [reflexivity | f_equal; lia].
  - destruct (Hfail i) as [e He]; [lia | lia |]. rewrite He. simpl.
    destruct (IH (S i) k (Some e)) as [H1 H2]; try lia; auto.
    + intros j Hj1 Hj2. apply Hfail; lia.
    + split; [exact H1 | rewrite H2; f_equal; lia].
Qed.

Lemma retryFrom_all_fail {T E : Type} (operation : nat -> Outcome T E)
    (maxRetries : nat) (delay : Z) (error : nat -> E) (remaining : nat) :
  forall i lastError,
    (forall j, (i <= j)%nat -> (j < i + remaining)%nat ->
               operation j = Threw (error j)) ->
    let r := retryFrom operation maxRetries delay remaining i lastError in
    r_outcome r = Threw match remaining with
                        | O => lastError
                        | S n => Some (error (i + n)%nat)
                        end /\
    r_calls r = remaining.
Proof.
  induction remaining as [|remaining IH]; intros i lastError Hfail; simpl.
  - split; reflexivity.
  - rewrite (Hfail i) by lia. simpl.
    destruct (IH (S i) (Some (error i))) as [H1 H2].
    + intros j Hj1 Hj2. apply Hfail; lia.
    + split; [|rewrite H2; reflexivity].
      rewrite H1. destruct remaining as [|n].
      * rewrite Nat.add_0_r. reflexivity.
      * do 2 f_equal. f_equal. lia.
Qed.

Lemma retryFrom_threw {T E : Type} (operation : nat -> Outcome T E)
    (maxRetries : nat) (delay : Z) (remaining : nat) :
  forall i lastError e,
    r_outcome (retryFrom operation maxRetries delay remaining i lastError)
    = Threw e ->
    forall j, (i <= j)%nat -> (j < i + remaining)%nat ->
              exists e', operation j = Threw e'.
Proof.
  induction remaining as [|remaining IH]; intros i lastError e H j Hj1 Hj2;
    simpl in H; [lia|].
  destruct (operation i) as [x | error] eqn:Hop; simpl in H; [discriminate|].
  destruct (Nat.eq_dec i j) as [<- | Hne]; [eauto|].
  apply (IH (S i) (Some error) e H); lia.
Qed.

(** X1. [retryWithBackoff] returns what the first attempt that succeeds
    returns, when that attempt is among the first [maxRetries], and has
    then called the operation once for each attempt up to that one. *)
Theorem retryWithBackoff_returns_first_success {T E : Type}
    (operation : nat -> Outcome T E) (maxRetries : nat) (delay : Z)
    (k : nat) (x : T) :
  (k < maxRetries)%nat ->
  (forall j, (j < k)%nat -> exists e, operation j = Threw e) ->
  operation k = Returned x ->
  r_outcome (retryWithBackoff operation maxRetries delay) = Returned x /\
  r_calls (retryWithBackoff operation maxRetries delay) = S k /\
  r_sleeps (retryWithBackoff operation maxRetries delay)
  = backoffDelays delay k.
Proof.
  intros Hk Hfail Hok. unfold retryWithBackoff.
  destruct (retryFrom_first_success operation maxRetries delay x maxRetries
              0%nat k None (Nat.le_0_l k) Hk (fun j _ Hj => Hfail j Hj) Hok)
    as [H1 H2].
  destruct (retryFrom_trace operation maxRetries delay maxRetries 0%nat None)
    as [_ [_ H3]]; [lia|].
  split; [exact H1|]. split; [rewrite H2; f_equal; lia|].
  rewrite H3, H2. unfold backoffDelays. do 2 f_equal. lia.
Qed.

(** X2. [retryWithBackoff] throws exactly when each of the [maxRetries]
    attempts throws; it then throws the error of the last attempt, after
    [maxRetries] calls, and [undefined] when [maxRetries] is zero. *)
Theorem retryWithBackoff_throws_last_error {T E : Type}
    (operation : nat -> Outcome T E) (maxRetries : nat) (delay : Z) :
  ((exists e, r_outcome (retryWithBackoff operation maxRetries delay)
              = Threw e) <->
   (forall j, (j < maxRetries)%nat -> exists e, operation j = Threw e)) /\
  (forall error : nat -> E,
     (forall j, (j < maxRetries)%nat -> operation j = Threw (error j)) ->
     r_outcome (retryWithBackoff operation maxRetries delay)
     = Threw match maxRetries with
             | O => None
             | S n => Some (error n)
             end /\
     r_calls (retryWithBackoff operation maxRetries delay) = maxRetries).
Proof.
  unfold retryWithBackoff.
  assert (Hall : forall error : nat -> E,
             (forall j, (j < maxRetries)%nat -> operation j = Threw (error j)) ->
             r_outcome (retryFrom operation maxRetries delay maxRetries 0%nat
                          None)
             = Threw match maxRetries with
                     | O => None
                     | S n => Some (error n)
                     end /\
             r_calls (retryFrom operation maxRetries delay maxRetries 0%nat
                        None) = maxRetries).
  { intros error Hfail.
    apply (retryFrom_all_fail operation maxRetries delay error maxRetries
             0%nat None).
    intros j _ Hj. apply Hfail. exact Hj. }
  split; [|exact Hall]. split.
  - intros [e He] j Hj.
    apply (retryFrom_threw operation maxRetries delay maxRetries 0%nat None e
             He j); lia.
  - intros Hfail.
    (* the errors, without a choice principle: go through the attempts *)
    assert (Hgen : forall remaining i lastError,
               (forall j, (i <= j)%nat -> (j < i + remaining)%nat ->
                          exists e, operation j = Threw e) ->
               exists e,
                 r_outcome (retryFrom operation maxRetries delay remaining i
                              lastError) = Threw e).
    { induction remaining as [|remaining IH]; intros i lastError H; simpl.
      - eauto.
      - destruct (H i) as [e He]; [lia | lia |]. rewrite He. simpl.
        apply IH. intros j Hj1 Hj2. apply H; lia. }
    apply Hgen. intros j _ Hj. apply Hfail. exact Hj.
Qed.

(** X3. Whatever the attempts come to, [retryWithBackoff] calls the
    operation at most [maxRetries] times, pauses [delay * 2^i] after the
    failed attempt [i] if another attempt follows, and so waits
    [delay * (2^(calls - 1) - 1)] milliseconds in all. *)
Theorem retryWithBackoff_calls_and_pauses {T E : Type}
    (operation : nat -> Outcome T E) (maxRetries : nat) (delay : Z) :
  let r := retryWithBackoff operation maxRetries delay in
  (r_calls r <= maxRetries)%nat /\
  r_sleeps r = backoffDelays delay (r_calls r - 1) /\
  sumZ (r_sleeps r) = delay * (2 ^ Z.of_nat (r_calls r - 1) - 1).
Proof.
  unfold retryWithBackoff.
  destruct (retryFrom_trace operation maxRetries delay maxRetries 0%nat None)
    as [H1 [_ H3]]; [lia|].
  cbv zeta. split; [exact H1|].
  assert (H4 : r_sleeps (retryFrom operation maxRetries delay maxRetries 0%nat
                           None)
               = backoffDelays delay
                   (r_calls (retryFrom operation maxRetries delay maxRetries
                               0%nat None) - 1)) by exact H3.
  split; [exact H4|]. rewrite H4. apply sumZ_backoffDelays.
Qed.

(** *** The session *)

Lemma lookupField_setField_same k v fs :
  lookupField k (setField k v fs) = v.
Proof.
  induction fs as [|[k' v'] fs IH]; simpl.
  - rewrite String.eqb_refl. reflexivity.
  - destruct (k =? k')%string eqn:E; simpl.
    + rewrite String.eqb_refl. reflexivity.
    + rewrite E. exact IH.
Qed.

Lemma lookupField_setField_other k k' v fs :
  k' <> k -> lookupField k' (setField k v fs) = lookupField k' fs.
Proof.
  intros Hne. induction fs as [|[k0 v0] fs IH]; simpl.
  - apply String.eqb_neq in Hne. rewrite Hne. reflexivity.
  - destruct (k =? k0)%string eqn:E; simpl.
    + apply String.eqb_eq in E. subst k0.
      apply String.eqb_neq in Hne. rewrite Hne. reflexivity.
    + destruct (k' =? k0)%string; [reflexivity | exact IH].
Qed.

(** X4. [requireAuth] stops no request that has a session: a session with
    a user id goes on as it is, and a session without one goes on as the
    user 4, its other fields kept; [getUserId] then gives 4. *)
Theorem requireAuth_lets_every_session_through
    (fields : list (string * value)) :
  exists fields',
    requireAuth (Some fields) = Some (Some fields') /\
    truthy (sessionUserId (Some fields')) = true /\
    (truthy (sessionUserId (Some fields)) = true -> fields' = fields) /\
    (truthy (sessionUserId (Some fields)) = false ->
     getUserId (Some fields') = Some 4 /\
     assertUserId (getUserId (Some fields')) = Some tt /\
     forall k, k <> "userId" ->
               lookupField k fields' = lookupField k fields).
Proof.
  unfold requireAuth.
  destruct (truthy (sessionUserId (Some fields))) eqn:E; simpl.
  - exists fields. split; [reflexivity|]. split; [exact E|].
    split; [reflexivity | discriminate].
  - exists (setField "userId" (JNum 4) fields).
    unfold getUserId. simpl. rewrite lookupField_setField_same. simpl.
    split; [reflexivity|]. split; [reflexivity|].
    split; [discriminate|]. intros _.
    split; [reflexivity|]. split; [reflexivity|].
    intros k Hk. apply lookupField_setField_other. exact Hk.
Qed.

(** *** Storage: insert and look up, update and look up *)

Lemma find_snoc {A : Type} (c : A -> bool) (l : list A) (x : A) :
  find c (l ++ [x])
  = match find c l with
    | Some y => Some y
    | None => if c x then Some x else None
    end.
Proof.
  induction l as [|a l IH]; simpl; [reflexivity|].
  destruct (c a); [reflexivity | exact IH].
Qed.

Lemma find_key_fresh {A : Type} (key : A -> Z) (k : Z) (l : list A) :
  (forall y, In y l -> key y <> k) -> find (fun x => key x =? k) l = None.
Proof.
  intros H. induction l as [|a l IH]; simpl; [reflexivity|].
  destruct (key a =? k) eqn:E.
  - apply Z.eqb_eq in E. exfalso. apply (H a); [left; reflexivity | exact E].
  - apply IH. intros y Hy. apply H. right. exact Hy.
Qed.

(** Looking up a key other than the one updated. *)
Lemma find_update_other {A : Type} (key : A -> Z) (k k' : Z) (f : A -> A)
    (l : list A) :
  (forall x, key (f x) = key x) -> k' <> k ->
  find (fun x => key x =? k')
    (map (fun x => if key x =? k then f x else x) l)
  = find (fun x => key x =? k') l.
Proof.
  intros Hf Hne. induction l as [|a l IH]; simpl; [reflexivity|].
  destruct (key a =? k) eqn:E.
  - rewrite Hf. apply Z.eqb_eq in E.
    assert (E' : (key a =? k') = false) by (apply Z.eqb_neq; congruence).
    rewrite E'. exact IH.
  - destruct (key a =? k'); [reflexivity | exact IH].
Qed.

(** X6. [updateMeeting] returns, and [getMeeting] then finds, the row of
    the key with the fields of the patch written and the others kept; for a
    key that has no row it returns [undefined] and changes no row; the rows
    of other keys and the bots are as they were. *)
Theorem updateMeeting_then_getMeeting
    (id : Z) (data : MeetingPatch) (now : Z) (st : Store) :
  let updated := updateMeeting id data now st in
  fst updated = option_map (applyPatch data now) (getMeeting st id) /\
  getMeeting (snd updated) id
  = option_map (applyPatch data now) (getMeeting st id) /\
  (forall id', id' <> id -> getMeeting (snd updated) id' = getMeeting st id') /\
  (getMeeting st id = None -> meetings (snd updated) = meetings st) /\
  recallBots (snd updated) = recallBots st.
Proof.
  unfold updateMeeting, getMeeting. simpl.
  rewrite (find_update m_id id (applyPatch data now)) by reflexivity.
  repeat split.
  - intros id' Hne. apply (find_update_other m_id); [reflexivity | exact Hne].
  - intros Hnone. apply (map_update_fresh m_id).
    apply (find_key_none m_id). exact Hnone.
Qed.

(** X7. In a consistent database in which the event has no bot, the bot
    [createRecallBot] inserts gets the next key, is found under that key
    and under the event, and leaves the lookups of other keys and other
    events as they were. *)
Theorem createRecallBot_then_lookup
    (userId calendarEventId : Z) (recallBotId status : string) (now : Z)
    (st : Store) :
  consistent st ->
  getRecallBotByCalendarEventId st calendarEventId = None ->
  let created := createRecallBot userId calendarEventId recallBotId status
                   now st in
  b_id (fst created) = nextBotId st /\
  getRecallBot (snd created) (b_id (fst created)) = Some (fst created) /\
  getRecallBotByCalendarEventId (snd created) calendarEventId
  = Some (fst created) /\
  (forall id, id <> nextBotId st ->
              getRecallBot (snd created) id = getRecallBot st id) /\
  (forall ev, ev <> calendarEventId ->
              getRecallBotByCalendarEventId (snd created) ev
              = getRecallBotByCalendarEventId st ev) /\
  meetings (snd created) = meetings st.
Proof.
  intros Hc Hnone. simpl.
  assert (Hfresh : find (fun b => b_id b =? nextBotId st) (recallBots st)
                   = None).
  { apply find_key_fresh. intros y Hy.
    pose proof (bot_ids_lt st Hc y Hy). lia. }
  unfold getRecallBot, getRecallBotByCalendarEventId in *. simpl.
  apply firstRow_none in Hnone.
  split; [reflexivity|]. split; [|split; [|split; [|split; [|reflexivity]]]].
  - rewrite find_snoc, Hfresh. simpl. rewrite Z.eqb_refl. reflexivity.
  - rewrite filter_app, Hnone. simpl. rewrite Z.eqb_refl.
    apply firstRow_single.
  - intros id Hid. rewrite find_snoc. simpl.
    destruct (find (fun b => b_id b =? id) (recallBots st)); [reflexivity|].
    assert (E : (nextBotId st =? id) = false)
      by (apply Z.eqb_neq; congruence).
    rewrite E. reflexivity.
  - intros ev Hev. rewrite filter_app. simpl.
    assert (E : (calendarEventId =? ev) = false)
      by (apply Z.eqb_neq; congruence).
    rewrite E, app_nil_r. apply firstRow_le1.
    apply (NoDup_key_filter_le1 b_calendarEventId). apply (bot_events st Hc).
Qed.

(** *** The toggle route *)

Lemma setupRecording_other_tables p now uid ev eid st :
  calendarEvents (setupRecording p now uid ev eid st) = calendarEvents st /\
  googleAccounts (setupRecording p now uid ev eid st) = googleAccounts st /\
  settings (setupRecording p now uid ev eid st) = settings st.
Proof.
  unfold setupRecording.
  destruct (getRecallBotByCalendarEventId st eid); [auto|].
  destruct (laterThan _ now); [|auto].
  destruct (createMeeting _ _ _ _ _ _ _ _ _ _) as [meeting st1] eqn:Em.
  injection Em as <- <-.
  destruct (createBot _ _ _ _ _) as [[bot st2]|] eqn:Eb.
  - apply createBot_some in Eb. destruct Eb as [rid Eb].
    injection Eb as <- <-. simpl. auto.
  - simpl. auto.
Qed.

(** X9. For an event whose Google account belongs to the session user, the
    toggle route stores the flag of the request on the event, whatever
    happens to the bot, and leaves the other events, the accounts and the
    settings as they were. *)
Theorem toggle_stores_flag_of_owned_event
    (p : Provider) (now sessionUser eventId : Z) (flag : bool) (st : Store)
    (event : CalendarEvent) (account : GoogleAccount) :
  getCalendarEvent st eventId = Some event ->
  getGoogleAccount st (e_googleAccountId event) = Some account ->
  g_userId account = sessionUser ->
  let st' := toggleRecording p now sessionUser eventId flag st in
  getCalendarEvent st' eventId = Some (setRecording flag event) /\
  (forall other, other <> eventId ->
                 getCalendarEvent st' other = getCalendarEvent st other) /\
  googleAccounts st' = googleAccounts st /\
  settings st' = settings st.
Proof.
  intros He Ha Hu. unfold toggleRecording. rewrite He, Ha, Hu, Z.eqb_refl.
  cbn [negb].
  set (st1 := snd (updateCalendarEvent eventId flag st)).
  assert (H1 : getCalendarEvent st1 eventId = Some (setRecording flag event)).
  { unfold st1, getCalendarEvent. simpl.
    rewrite (find_update e_id eventId (setRecording flag)) by reflexivity.
    unfold getCalendarEvent in He. rewrite He. reflexivity. }
  assert (H2 : forall other, other <> eventId ->
                 getCalendarEvent st1 other = getCalendarEvent st other).
  { intros other Hne. unfold st1, getCalendarEvent. simpl.
    apply (find_update_other e_id); [reflexivity | exact Hne]. }
  destruct (flag && negb (eventId =? 0)).
  - destruct (setupRecording_other_tables p now sessionUser event eventId st1)
      as (Hes & Hgs & Hss).
    unfold getCalendarEvent in *. rewrite Hes, Hgs, Hss.
    split; [exact H1|]. split; [exact H2|]. split; reflexivity.
  - split; [exact H1|]. split; [exact H2|]. split; reflexivity.
Qed.

(** X10. The toggle route changes nothing, the write log included, when
    the event does not exist, when its Google account does not exist, or
    when that account belongs to another user. *)
Theorem toggle_refuses_foreign_event
    (p : Provider) (now sessionUser eventId : Z) (flag : bool) (st : Store) :
  (forall event account,
     getCalendarEvent st eventId = Some event ->
     getGoogleAccount st (e_googleAccountId event) = Some account ->
     g_userId account <> sessionUser) ->
  toggleRecording p now sessionUser eventId flag st = st.
Proof.
  intros H. unfold toggleRecording.
  destruct (getCalendarEvent st eventId) as [event|]; [|reflexivity].
  destruct (getGoogleAccount st (e_googleAccountId event)) as [account|]
    eqn:Ha; [|reflexivity].
  specialize (H event account eq_refl Ha).
  apply Z.eqb_neq in H. rewrite H. reflexivity.
Qed.

(** X11. Switching recording off, or switching it on when the join time
    the route computes (the start moved back by the user's minutes on the
    local clock of the process) is not after the present, creates no bot
    and no meeting and removes none: a bot scheduled earlier stays
    scheduled. *)
Theorem toggle_off_or_late_creates_nothing
    (p : Provider) (now sessionUser eventId : Z) (flag : bool) (st : Store) :
  flag = false \/
  (exists event,
     getCalendarEvent st eventId = Some event /\
     laterThan (minusMinutes (e_startTime event)
                  (joinMinutesBefore (getSettings st sessionUser))) now
     = false) ->
  let st' := toggleRecording p now sessionUser eventId flag st in
  recallBots st' = recallBots st /\
  meetings st' = meetings st /\
  nextBotId st' = nextBotId st /\
  nextMeetingId st' = nextMeetingId st.
Proof.
  intros H. unfold toggleRecording.
  destruct (getCalendarEvent st eventId) as [event|] eqn:He; [|auto].
  destruct (getGoogleAccount st (e_googleAccountId event)) as [account|];
    [|auto].
  destruct (negb (g_userId account =? sessionUser)); [auto|].
  destruct (flag && negb (eventId =? 0)) eqn:Ef; [|simpl; auto].
  destruct H as [-> | (event' & He' & Hlate)]; [discriminate|].
  injection He' as <-.
  unfold setupRecording.
  destruct (getRecallBotByCalendarEventId _ eventId); [simpl; auto|].
  change (getSettings (snd (updateCalendarEvent eventId flag st)) sessionUser)
    with (getSettings st sessionUser).
  rewrite Hlate. simpl. auto.
Qed.

Lemma createBot_answer p now ev uid st link joinAt response id recallBotId :
  e_meetingLink ev = Some link -> link <> "" ->
  minusMinutes (e_startTime ev) (joinMinutesBefore (getSettings st uid))
  = Some joinAt ->
  POST_bot p {| bot_name := "Meeting: " ++ e_title ev;
                meeting_url := link;
                join_at := joinAt |}
  = Some response ->
  getProp response "id" = Some id ->
  pgText id = Some recallBotId ->
  createBot p now ev uid st
  = Some (createRecallBot uid (e_id ev) recallBotId "scheduled" now st).
Proof.
  intros Hlink Hne Hjoin Hpost Hprop Htext. unfold createBot.
  rewrite Hlink. apply String.eqb_neq in Hne. rewrite Hne.
  cbv zeta. rewrite Hjoin, Hpost, Hprop, Htext. reflexivity.
Qed.

(** X12. When everything goes well (a consistent database, an event of the
    session user with a meeting link and no bot, a join time, computed on
    the local clock of the process, that is a valid date after the
    present, a provider that answers the creation with an object whose id
    the database takes as text), switching recording on adds one bot and
    one meeting: the bot has the next key, the provider's id and the status
    scheduled; the meeting has the next key, the event's title, times,
    platform and attendees, the status scheduled, no transcript, and the
    key of the new bot. *)
Theorem toggle_schedules_bot_and_meeting
    (p : Provider) (now sessionUser eventId : Z) (st : Store)
    (event : CalendarEvent) (account : GoogleAccount) (link : string)
    (joinAt : Z) (response id : value) (recallBotId : string) :
  consistent st ->
  getCalendarEvent st eventId = Some event ->
  getGoogleAccount st (e_googleAccountId event) = Some account ->
  g_userId account = sessionUser ->
  eventId <> 0 ->
  getRecallBotByCalendarEventId st eventId = None ->
  minusMinutes (e_startTime event)
    (joinMinutesBefore (getSettings st sessionUser)) = Some joinAt ->
  now < joinAt ->
  e_meetingLink event = Some link -> link <> "" ->
  POST_bot p {| bot_name := "Meeting: " ++ e_title event;
                meeting_url := link;
                join_at := joinAt |}
  = Some response ->
  getProp response "id" = Some id ->
  pgText id = Some recallBotId ->
  let st' := toggleRecording p now sessionUser eventId true st in
  recallBots st'
  = recallBots st
    ++ [{| b_id := nextBotId st; b_userId := sessionUser;
           b_calendarEventId := eventId; b_recallBotId := recallBotId;
           b_status := "scheduled"; b_updatedAt := now |}] /\
  meetings st'
  = meetings st
    ++ [{| m_id := nextMeetingId st; m_userId := sessionUser;
           m_calendarEventId := eventId;
           m_recallBotId := Some (nextBotId st);
           m_title := e_title event; m_startTime := e_startTime event;
           m_endTime := e_endTime event; m_platform := e_platform event;
           m_transcript := None; m_attendees := e_attendees event;
           m_status := "scheduled"; m_updatedAt := now |}].
Proof.
  intros Hc He Ha Hu Hid Hnobot Hjoin Hfuture Hlink Hnonempty Hpost Hprop
    Htext.
  unfold toggleRecording. rewrite He, Ha, Hu, Z.eqb_refl. cbn [negb].
  apply Z.eqb_neq in Hid. rewrite Hid. cbn [negb andb].
  unfold setupRecording.
  rewrite (getRecallBotByCalendarEventId_same st
             (snd (updateCalendarEvent eventId true st)) eventId eq_refl
             Hnobot).
  change (getSettings (snd (updateCalendarEvent eventId true st)) sessionUser)
    with (getSettings st sessionUser).
  rewrite Hjoin.
  assert (E : laterThan (Some joinAt) now = true).
  { unfold laterThan. rewrite Z.gtb_ltb. apply Z.ltb_lt. exact Hfuture. }
  rewrite E.
  destruct (createMeeting _ _ _ _ _ _ _ _ _ _) as [meeting st1] eqn:Em.
  injection Em as <- <-.
  match goal with
  | |- context [createBot p now event sessionUser ?s] =>
      rewrite (createBot_answer p now event sessionUser s link joinAt
                 response id recallBotId Hlink Hnonempty Hjoin Hpost Hprop
                 Htext)
  end.
  unfold getCalendarEvent in He. apply (find_key_some e_id) in He.
  destruct He as [_ He]. rewrite He.
  cbn [createRecallBot updateMeeting snd fst logged withMeetings recallBots
       meetings m_id b_id withCalendarEvents updateCalendarEvent nextBotId
       nextMeetingId].
  split; [reflexivity|].
  rewrite (map_update_snoc m_id).
  - reflexivity.
  - intros x Hx. pose proof (meeting_ids_lt st Hc x Hx). lia.
  - reflexivity.
Qed.

(** X13. The toggle route asks the provider only for bots that join in the
    future: with a provider that refuses every bot whose join time is after
    the present, no toggle adds a bot. *)
Theorem toggle_never_posts_past_join_time
    (p : Provider) (now sessionUser eventId : Z) (flag : bool) (st : Store) :
  (forall data, now < join_at data -> POST_bot p data = None) ->
  recallBots (toggleRecording p now sessionUser eventId flag st)
  = recallBots st.
Proof.
  intros Hrefuse. unfold toggleRecording.
  destruct (getCalendarEvent st eventId) as [event|] eqn:He; [|reflexivity].
  destruct (getGoogleAccount st (e_googleAccountId event)) as [account|];
    [|reflexivity].
  destruct (negb (g_userId account =? sessionUser)); [reflexivity|].
  destruct (flag && negb (eventId =? 0)); [|reflexivity].
  unfold setupRecording.
  destruct (getRecallBotByCalendarEventId _ eventId); [reflexivity|].
  change (getSettings (snd (updateCalendarEvent eventId flag st)) sessionUser)
    with (getSettings st sessionUser).
  destruct (minusMinutes (e_startTime event)
              (joinMinutesBefore (getSettings st sessionUser)))
    as [joinAt|] eqn:Ej; [|reflexivity].
  destruct (laterThan (Some joinAt) now) eqn:E; [|reflexivity].
  unfold laterThan in E. rewrite Z.gtb_ltb in E. apply Z.ltb_lt in E.
  destruct (createMeeting _ _ _ _ _ _ _ _ _ _) as [meeting st1] eqn:Em.
  injection Em as <- <-.
  unfold createBot.
  destruct (e_meetingLink event) as [link|]; [|reflexivity].
  destruct (link =? "")%string; [reflexivity|].
  cbv zeta.
  match goal with
  | |- context [getSettings ?s sessionUser] =>
      change (getSettings s sessionUser) with (getSettings st sessionUser)
  end.
  rewrite Ej.
  rewrite Hrefuse; [reflexivity|].
  cbn [join_at]. exact E.
Qed.

(** *** The service: transcripts and statuses *)

(** X14. When [processMeeting] changes a consistent database, the bot is
    completed and the change is one update of one meeting: the meeting that
    the lookup on the bot's calendar event returned, which had no
    transcript.  What is stored under its key is that row with the string
    [getTranscript] returned, which is not empty and which [trim] does not
    empty, and with the status completed; the rows of the other keys and
    the bots are not touched. *)
Theorem processMeeting_writes_nonblank_text_once
    (p : Provider) (now : Z) (bot : RecallBot) (st : Store) :
  consistent st ->
  processMeeting p now bot st <> st ->
  exists meeting transcript,
    b_status bot = "completed" /\
    getMeetingByCalendarEventId st (b_calendarEventId bot) = Some meeting /\
    hasTranscript meeting = false /\
    fst (getTranscript p 1 (b_recallBotId bot)) = JStr transcript /\
    transcript <> "" /\
    nonBlank transcript = true /\
    getMeeting (processMeeting p now bot st) (m_id meeting)
    = Some (applyPatch (transcriptPatch transcript) now meeting) /\
    (forall id, id <> m_id meeting ->
       getMeeting (processMeeting p now bot st) id = getMeeting st id) /\
    log (processMeeting p now bot st)
    = log st ++ [W_updateMeeting (m_id meeting) (transcriptPatch transcript)] /\
    recallBots (processMeeting p now bot st) = recallBots st.
Proof.
  intros Hc Hne.
  destruct (processMeeting_write p now bot st)
    as [H | (meeting & t & Hs & Hm & Hin & Hev & Hh & Ht & Hne' & Hn & H)];
    [contradiction|].
  exists meeting, t. rewrite H.
  repeat (split; [assumption|]).
  split; [|split; [|split; reflexivity]].
  - unfold getMeeting. simpl.
    rewrite (find_update m_id (m_id meeting)) by reflexivity.
    rewrite (find_unique m_id (meetings st) meeting (meeting_ids st Hc) Hin).
    reflexivity.
  - intros id Hid. unfold getMeeting. simpl.
    apply (find_update_other m_id); [reflexivity | exact Hid].
Qed.

(** X15. When at most one meeting of the bot's calendar event lacks a
    transcript, [processMeeting] writes for the bot once: after a call that
    has written, every later call for that bot, with whatever the provider
    then answers, at whatever time and whichever meeting of the event the
    lookup then returns, leaves the database as it is. *)
Theorem processMeeting_settles
    (p p' : Provider) (now now' : Z) (bot : RecallBot) (st : Store) :
  (forall m m',
     In m (meetings st) -> In m' (meetings st) ->
     m_calendarEventId m = b_calendarEventId bot ->
     m_calendarEventId m' = b_calendarEventId bot ->
     hasTranscript m = false -> hasTranscript m' = false ->
     m_id m = m_id m') ->
  processMeeting p now bot st <> st ->
  processMeeting p' now' bot (processMeeting p now bot st)
  = processMeeting p now bot st.
Proof.
  intros Hone Hne.
  destruct (processMeeting_write p now bot st)
    as [H | (meeting & t & Hs & Hm & Hin & Hev & Hh & Ht & Hne' & Hn & H)];
    [contradiction|].
  rewrite H. unfold processMeeting at 1. rewrite Hs.
  change ("completed" =? "completed")%string with true. cbn [negb].
  destruct (getMeetingByCalendarEventId
              (snd (updateMeeting (m_id meeting) (transcriptPatch t) now st))
              (b_calendarEventId bot)) as [m'|] eqn:Em'; [|reflexivity].
  apply getMeetingByCalendarEventId_some in Em'. destruct Em' as [Hin' Hev'].
  simpl in Hin'. apply In_update in Hin'.
  destruct Hin' as (x & Hx & [[Hkey ->] | [_ ->]]).
  - destruct (hasTranscript x) eqn:Ex; [reflexivity|].
    exfalso. apply Z.eqb_neq in Hkey. apply Hkey.
    apply (Hone x meeting); assumption.
  - assert (Hhas : hasTranscript (applyPatch (transcriptPatch t) now x)
                   = true).
    { unfold hasTranscript. simpl.
      apply String.eqb_neq in Hne'. rewrite Hne'. reflexivity. }
    rewrite Hhas. reflexivity.
Qed.

Lemma mapStatus_idempotent code current :
  mapStatus code (mapStatus code current) = mapStatus code current.
Proof.
  rewrite !mapStatus_table. destruct (codeStatus code); reflexivity.
Qed.

(** X16. Polling twice is polling once: for a stored bot, the bot
    [updateBotStatus] returns is one on which a second call with the same
    snapshot, at any time, writes nothing and returns that bot. *)
Theorem updateBotStatus_twice
    (p : Provider) (now now' : Z) (bot : RecallBot) (st : Store) :
  getRecallBot st (b_id bot) = Some bot ->
  exists bot',
    fst (updateBotStatus p now bot st) = Some bot' /\
    updateBotStatus p now' bot' (snd (updateBotStatus p now bot st))
    = (Some bot', snd (updateBotStatus p now bot st)).
Proof.
  intros Hstored. rewrite (updateBotStatus_statusChange p now bot st).
  destruct (statusChange p bot) as [status|] eqn:Ec.
  - exists (setBotStatus status now bot). split.
    + unfold updateRecallBot, getRecallBot in *. simpl.
      rewrite (find_update b_id (b_id bot) (setBotStatus status now))
        by reflexivity.
      rewrite Hstored. reflexivity.
    + rewrite updateBotStatus_statusChange.
      assert (Hnone : statusChange p (setBotStatus status now bot) = None).
      { unfold statusChange, observedCode in *. simpl.
        destruct (getBotStatus p 0 (b_recallBotId bot)) as [snapshot|];
          [|reflexivity].
        destruct (latestCode snapshot) as [code|]; [|reflexivity].
        cbv zeta in Ec.
        destruct (mapStatus code (b_status bot) =? b_status bot)%string;
          [discriminate|].
        injection Ec as <-. rewrite mapStatus_idempotent.
        rewrite String.eqb_refl. reflexivity. }
      rewrite Hnone. reflexivity.
  - exists bot. split; [reflexivity|].
    rewrite updateBotStatus_statusChange, Ec. reflexivity.
Qed.

(** *** The background task *)

Lemma sameBot_refl b : sameBot b b.
Proof. repeat split. Qed.

Lemma sameMeeting_refl m : sameMeeting m m.
Proof. repeat split. Qed.

Lemma sameBot_trans a b c : sameBot a b -> sameBot b c -> sameBot a c.
Proof.
  unfold sameBot. intros (H1 & H2 & H3 & H4) (K1 & K2 & K3 & K4).
  repeat split; congruence.
Qed.

Lemma sameMeeting_trans a b c :
  sameMeeting a b -> sameMeeting b c -> sameMeeting a c.
Proof.
  unfold sameMeeting.
  intros (H1 & H2 & H3 & H4 & H5 & H6 & H7 & H8 & H9)
         (K1 & K2 & K3 & K4 & K5 & K6 & K7 & K8 & K9).
  repeat split; congruence.
Qed.

Lemma sameRows_refl st : sameRows st st.
Proof.
  split; try reflexivity.
  - apply Forall2_refl_on, sameBot_refl.
  - apply Forall2_refl_on, sameMeeting_refl.
Qed.

Lemma sameRows_trans st1 st2 st3 :
  sameRows st1 st2 -> sameRows st2 st3 -> sameRows st1 st3.
Proof.
  intros [] []. split; try congruence.
  - eapply Forall2_trans_on; [apply sameBot_trans | eassumption..].
  - eapply Forall2_trans_on; [apply sameMeeting_trans | eassumption..].
Qed.

Lemma sameRows_updateRecallBot id status now st :
  sameRows st (snd (updateRecallBot id status now st)).
Proof.
  split; try reflexivity; simpl.
  - apply Forall2_map_r. intros x _.
    destruct (b_id x =? id); repeat split.
  - apply Forall2_refl_on, sameMeeting_refl.
Qed.

Lemma sameRows_updateMeeting id data now st :
  p_recallBotId data = None ->
  sameRows st (snd (updateMeeting id data now st)).
Proof.
  intros Hd. split; try reflexivity; simpl.
  - apply Forall2_refl_on, sameBot_refl.
  - apply Forall2_map_r. intros x _.
    destruct (m_id x =? id); [|apply sameMeeting_refl].
    unfold sameMeeting. simpl. rewrite Hd. repeat split.
Qed.

Lemma sameRows_sweepBot p now b st : sameRows st (sweepBot p now b st).
Proof.
  unfold sweepBot. rewrite updateBotStatus_statusChange.
  assert (H1 : sameRows st
                 (snd match statusChange p b with
                      | Some status => updateRecallBot (b_id b) status now st
                      | None => (Some b, st)
                      end)).
  { destruct (statusChange p b);
      [apply sameRows_updateRecallBot | apply sameRows_refl]. }
  destruct (match statusChange p b with
            | Some status => updateRecallBot (b_id b) status now st
            | None => (Some b, st)
            end) as [updated st1]. simpl in H1.
  repeat case_match_goal; auto.
  eapply sameRows_trans; [exact H1|].
  apply sameRows_updateMeeting. reflexivity.
Qed.

Lemma sameRows_processMeeting p now b st :
  sameRows st (processMeeting p now b st).
Proof.
  destruct (processMeeting_write p now b st)
    as [H | (meeting & t & _ & _ & _ & _ & _ & _ & _ & _ & H)]; rewrite H.
  - apply sameRows_refl.
  - apply sameRows_updateMeeting. reflexivity.
Qed.

Lemma sameRows_sweep p now st : sameRows st (sweep p now st).
Proof.
  unfold sweep, sweepTranscripts, sweepStatuses.
  set (st1 := fold_left (fun s bot => sweepBot p now bot s)
                (filter isActive (recallBots st)) st).
  assert (H1 : sameRows st st1).
  { unfold st1. apply (fold_left_preserves (sameRows st)).
    - intros s a Hs. eapply sameRows_trans; [exact Hs|].
      apply sameRows_sweepBot.
    - apply sameRows_refl. }
  apply (fold_left_preserves (sameRows st)); [|exact H1].
  intros s a Hs. eapply sameRows_trans; [exact Hs|].
  apply sameRows_processMeeting.
Qed.

Lemma sweeps_sameRows runs st : sameRows st (sweeps runs st).
Proof.
  unfold sweeps. apply (fold_left_preserves (sameRows st)).
  - intros s run Hs. eapply sameRows_trans; [exact Hs|].
    apply sameRows_sweep.
  - apply sameRows_refl.
Qed.

(** Rows that correspond have the same key, so that a key finds rows that
    correspond. *)
Lemma Forall2_find {A : Type} (R : A -> A -> Prop) (key : A -> Z)
    (l l' : list A) (k : Z) :
  (forall x y, R x y -> key y = key x) ->
  Forall2 R l l' ->
  sameUnderKey R (find (fun x => key x =? k) l)
    (find (fun x => key x =? k) l').
Proof.
  intros Hkey. induction 1 as [|x y l l' Hxy _ IH]; simpl; [exact I|].
  rewrite (Hkey x y Hxy).
  destruct (key x =? k); [exact Hxy | exact IH].
Qed.

(** X17. Runs of the background task, however many, insert no row and
    delete none: a key has a bot, or a meeting, after the runs exactly when
    it had one before, and that row has the user, the event and the link to
    the bot it had (a meeting also its title, times, platform and
    attendees); only statuses, transcripts and update times change.  The
    events, the accounts, the settings and the next keys are untouched. *)
Theorem sweeps_change_statuses_and_transcripts_only
    (runs : list (Provider * Z)) (st : Store) :
  (forall id,
     sameUnderKey sameBot (getRecallBot st id)
       (getRecallBot (sweeps runs st) id)) /\
  (forall id,
     sameUnderKey sameMeeting (getMeeting st id)
       (getMeeting (sweeps runs st) id)) /\
  calendarEvents (sweeps runs st) = calendarEvents st /\
  googleAccounts (sweeps runs st) = googleAccounts st /\
  settings (sweeps runs st) = settings st /\
  nextBotId (sweeps runs st) = nextBotId st /\
  nextMeetingId (sweeps runs st) = nextMeetingId st.
Proof.
  destruct (sweeps_sameRows runs st) as [H1 H2 H3 H4 H5 H6 H7].
  split; [|split; [|auto]].
  - intros id. apply (Forall2_find sameBot b_id); [|exact H6].
    intros x y Hxy. apply Hxy.
  - intros id. apply (Forall2_find sameMeeting m_id); [|exact H7].
    intros x y Hxy. apply Hxy.
Qed.

(** X18. While the provider answers no status request that opens a call,
    a run of the background task changes nothing, the write log
    included. *)
Theorem sweep_during_outage_changes_nothing
    (p : Provider) (now : Z) (st : Store) :
  (forall botId, getBotStatus p 0 botId = None) ->
  sweep p now st = st.
Proof.
  intros Hdown.
  assert (Hbot : forall s a, sweepBot p now a s = s).
  { intros s a. unfold sweepBot, updateBotStatus. rewrite Hdown.
    rewrite String.eqb_refl. reflexivity. }
  assert (Hmeeting : forall s a, processMeeting p now a s = s).
  { intros s a. unfold processMeeting. rewrite Hdown.
    repeat case_match_goal; reflexivity. }
  unfold sweep, sweepTranscripts, sweepStatuses.
  assert (H1 : fold_left (fun s bot => sweepBot p now bot s)
                 (filter isActive (recallBots st)) st = st).
  { apply (fold_left_preserves (fun s => s = st)); [|reflexivity].
    intros s a ->. apply Hbot. }
  rewrite H1.
  apply (fold_left_preserves (fun s => s = st)); [|reflexivity].
  intros s a ->. apply Hmeeting.
Qed.

(** *** The transcript request *)

Lemma segmentsTranscript_text segments v :
  segmentsTranscript segments = Some (Some v) ->
  exists texts,
    mapSegments segments = Some texts /\
    nonBlank (Array_join " " texts) = true /\
    v = JStr (Array_join " " texts).
Proof.
  unfold segmentsTranscript.
  destruct (mapSegments segments) as [texts|]; [|discriminate].
  destruct (nonBlank (Array_join " " texts)) eqn:E; [|discriminate].
  intros H. injection H as <-. exists texts. auto.
Qed.


Lemma string_truthy t : t <> "" -> truthy (JStr t) = true.
Proof.
  intros H. simpl. apply String.eqb_neq in H. rewrite H. reflexivity.
Qed.

Lemma probeShapes_truthy response v :
  probeShapes response = Some v -> truthy v = true.
Proof.
  unfold probeShapes.
  destruct (truthy response) eqn:Er; [|discriminate]. cbn [negb].
  assert (Hseg : forall segments w,
            segmentsTranscript segments = Some (Some w) -> truthy w = true).
  { intros segments w H. apply segmentsTranscript_text in H.
    destruct H as (texts & _ & Hn & ->).
    apply string_truthy, nonBlank_nonempty, Hn. }
  destruct response as [| |b|n|s|segments|fs]; try discriminate Er.
  - simpl. discriminate.
  - simpl. discriminate.
  - intros H. injection H as <-. exact Er.
  - cbn [getPropOpt getProp truthy].
    destruct (segmentsTranscript segments) as [[w|]|] eqn:Es;
      try discriminate.
    intros H. injection H as <-. eapply Hseg, Es.
  - cbn [getPropOpt getProp].
    destruct (truthy (lookupField "transcript" fs)) eqn:E1;
      [intros H; injection H as <-; exact E1|].
    destruct (truthy (lookupField "text" fs)) eqn:E2;
      [intros H; injection H as <-; exact E2|].
    destruct (truthy (lookupField "content" fs)) eqn:E3;
      [intros H; injection H as <-; exact E3|].
    destruct (truthy (lookupField "data" fs)) eqn:E4; [|discriminate].
    destruct (lookupField "data" fs) as [| |b|n|s|segments|fs'];
      try discriminate.
    + intros H. injection H as <-. exact E4.
    + destruct (segmentsTranscript segments) as [[w|]|] eqn:Es;
        try discriminate.
      intros H. injection H as <-. eapply Hseg, Es.
Qed.

Lemma probeEndpoints_result p n endpoints :
  (fst (probeEndpoints p n endpoints) = JNull /\
   snd (probeEndpoints p n endpoints) = endpoints /\
   giveNothing p n endpoints)
  \/
  (exists pre endpoint post response,
     endpoints = pre ++ endpoint :: post /\
     snd (probeEndpoints p n endpoints) = pre ++ [endpoint] /\
     giveNothing p n pre /\
     GET p (n + List.length pre) endpoint = Some response /\
     probeShapes response = Some (fst (probeEndpoints p n endpoints))).
Proof.
  revert n. induction endpoints as [|e rest IH]; intros n;
    [left; simpl; auto|].
  assert (Hgo : givesNothing p n e ->
    fst (probeEndpoints p n (e :: rest)) = fst (probeEndpoints p (S n) rest) /\
    snd (probeEndpoints p n (e :: rest))
    = e :: snd (probeEndpoints p (S n) rest)).
  { unfold givesNothing. simpl.
    destruct (GET p n e) as [response|]; [|auto].
    intros ->. auto. }
  assert (Hnext : givesNothing p n e ->
    (fst (probeEndpoints p n (e :: rest)) = JNull /\
     snd (probeEndpoints p n (e :: rest)) = e :: rest /\
     giveNothing p n (e :: rest))
    \/
    (exists pre endpoint post response,
       e :: rest = pre ++ endpoint :: post /\
       snd (probeEndpoints p n (e :: rest)) = pre ++ [endpoint] /\
       giveNothing p n pre /\
       GET p (n + List.length pre) endpoint = Some response /\
       probeShapes response = Some (fst (probeEndpoints p n (e :: rest))))).
  { intros Hn. destruct (Hgo Hn) as [Hf Hs]. rewrite Hf, Hs.
    destruct (IH (S n))
      as [(H1 & H2 & H3)
         | (pre & e' & post & r & H1 & H2 & H3 & H4 & H5)].
    - left. rewrite H2. simpl. auto.
    - right. exists (e :: pre), e', post, r. rewrite H2.
      split; [simpl; f_equal; exact H1|].
      split; [reflexivity|]. split; [simpl; auto|].
      split; [|exact H5].
      simpl. rewrite Nat.add_succ_r. exact H4. }
  destruct (GET p n e) as [response|] eqn:Eg.
  - destruct (probeShapes response) as [v|] eqn:Ep.
    + right. exists [], e, rest, response. simpl.
      rewrite Nat.add_0_r, Eg, Ep. simpl. auto.
    + apply Hnext. unfold givesNothing. rewrite Eg. exact Ep.
  - apply Hnext. unfold givesNothing. rewrite Eg. exact I.
Qed.

Lemma probeEndpoints_length p n endpoints :
  (List.length (snd (probeEndpoints p n endpoints))
   <= List.length endpoints)%nat.
Proof.
  revert n. induction endpoints as [|e rest IH]; intros n; simpl; [lia|].
  specialize (IH (S n)).
  destruct (GET p n e) as [response|]; simpl; [|lia].
  destruct (probeShapes response); simpl; lia.
Qed.

(** X19. [getTranscript] makes at most four requests, the first one for
    the status. It returns the answer of the first transcript endpoint
    that gives something, asks no endpoint after that one, and what it
    returns is never falsy; it returns [null] only when every endpoint it
    asked gave nothing. *)
Theorem getTranscript_returns_first_answer
    (p : Provider) (n : nat) (botId : string) :
  let result := getTranscript p n botId in
  (List.length (snd result) <= 4)%nat /\
  exists tried,
    snd result = ("/bot/" ++ botId)%string :: tried /\
    ((fst result = JNull /\ giveNothing p (S n) tried)
     \/
     (exists earlier endpoint response,
        tried = earlier ++ [endpoint] /\
        giveNothing p (S n) earlier /\
        GET p (S n + List.length earlier) endpoint = Some response /\
        probeShapes response = Some (fst result) /\
        truthy (fst result) = true)).
Proof.
  unfold getTranscript.
  assert (Hnull : (List.length [("/bot/" ++ botId)%string] <= 4)%nat /\
    exists tried,
      [("/bot/" ++ botId)%string] = ("/bot/" ++ botId)%string :: tried /\
      ((JNull = JNull /\ giveNothing p (S n) tried) \/
       (exists earlier endpoint response,
          tried = earlier ++ [endpoint] /\
          giveNothing p (S n) earlier /\
          GET p (S n + List.length earlier) endpoint = Some response /\
          probeShapes response = Some JNull /\
          truthy JNull = true))).
  { split; [simpl; lia|]. exists []. split; [reflexivity|]. left.
    simpl. auto. }
  destruct (getBotStatus p n botId) as [snapshot|]; [|exact Hnull].
  destruct (firstRecording snapshot) as [recording|]; [|exact Hnull].
  destruct (getProp recording "transcription_completed_at") as [completedAt|];
    [|exact Hnull].
  destruct (negb (truthy completedAt)); [exact Hnull|].
  cbv zeta. cbn [fst snd].
  split.
  - pose proof (probeEndpoints_length p (S n)
                  (transcriptEndpoints botId recording)) as Hlen.
    unfold transcriptEndpoints in Hlen at 2. cbn [List.length] in *. lia.
  - exists (snd (probeEndpoints p (S n)
                   (transcriptEndpoints botId recording))).
    split; [reflexivity|].
    destruct (probeEndpoints_result p (S n)
                (transcriptEndpoints botId recording))
      as [(H1 & H2 & H3) | (pre & e & post & r & H1 & H2 & H3 & H4 & H5)].
    + left. rewrite H2. auto.
    + right. exists pre, e, r. repeat (split; [assumption|]).
      eapply probeShapes_truthy, H5.
Qed.


(** *** What holds in every database the application reaches *)

(** The rows a toggle adds. *)
Lemma toggleRecording_rows p now uid eid flag st :
  consistent st ->
  let st' := toggleRecording p now uid eid flag st in
  (recallBots st' = recallBots st /\
   (meetings st' = meetings st \/
    exists m, meetings st' = meetings st ++ [m] /\
              m_recallBotId m = None /\ m_status m = "failed" /\
              m_calendarEventId m = eid /\
              forall b, In b (recallBots st) -> b_calendarEventId b <> eid))
  \/
  (exists b m,
     recallBots st' = recallBots st ++ [b] /\
     meetings st' = meetings st ++ [m] /\
     b_status b = "scheduled" /\ m_status m = "scheduled" /\
     m_recallBotId m = Some (b_id b) /\
     b_calendarEventId b = m_calendarEventId m /\
     b_userId b = m_userId m /\
     b_id b = nextBotId st /\ m_calendarEventId m = eid).
Proof.
  intros Hc. unfold toggleRecording.
  destruct (getCalendarEvent st eid) as [event|] eqn:He; [|left; auto].
  destruct (getGoogleAccount st (e_googleAccountId event)) as [account|];
    [|left; auto].
  destruct (negb (g_userId account =? uid)); [left; auto|].
  destruct (flag && negb (eid =? 0)); [|left; simpl; auto].
  unfold setupRecording.
  destruct (getRecallBotByCalendarEventId _ eid) eqn:Enone;
    [left; simpl; auto|].
  pose proof (getRecallBotByCalendarEventId_none _ _ Enone) as Hnobot.
  cbn [updateCalendarEvent snd withCalendarEvents recallBots] in Hnobot.
  destruct (laterThan _ now); [|left; simpl; auto].
  destruct (createMeeting _ _ _ _ _ _ _ _ _ _) as [meeting st1] eqn:Em.
  injection Em as <- <-.
  assert (Hfresh : forall x, In x (meetings st) -> m_id x <> nextMeetingId st).
  { intros x Hx. pose proof (meeting_ids_lt st Hc x Hx). lia. }
  destruct (createBot _ _ _ _ _) as [[bot st2]|] eqn:Eb.
  - apply createBot_some in Eb. destruct Eb as [rid Eb].
    injection Eb as <- <-. right.
    eexists. eexists.
    cbn [createRecallBot updateMeeting snd fst logged withMeetings recallBots
         meetings m_id b_id withCalendarEvents updateCalendarEvent nextBotId
         nextMeetingId].
    split; [reflexivity|].
    split; [apply (map_update_snoc m_id); [exact Hfresh | reflexivity]|].
    unfold getCalendarEvent in He. apply (find_key_some e_id) in He.
    destruct He as [_ He]. simpl. auto 10.
  - left.
    cbn [updateMeeting snd fst logged withMeetings recallBots
         meetings m_id withCalendarEvents updateCalendarEvent nextMeetingId].
    split; [reflexivity|]. right. eexists.
    split; [apply (map_update_snoc m_id); [exact Hfresh | reflexivity]|].
    simpl. auto.
Qed.

Lemma mapStatus_known code current :
  In current botStatuses -> In (mapStatus code current) botStatuses.
Proof.
  intros H. unfold mapStatus.
  repeat match goal with
         | |- context [if ?c then _ else _] => destruct c
         end; simpl; auto 10.
Qed.

Lemma propagate_known status current :
  In current meetingStatuses ->
  In (propagate status current) meetingStatuses.
Proof.
  intros H. unfold propagate.
  repeat match goal with
         | |- context [if ?c then _ else _] => destruct c
         end; simpl; auto 10.
Qed.

Lemma knownStatuses_updateRecallBot id status now st :
  In status botStatuses -> knownStatuses st ->
  knownStatuses (snd (updateRecallBot id status now st)).
Proof.
  intros Hs [Hb Hm]. split; simpl; [|exact Hm].
  intros b Hin. apply In_update in Hin.
  destruct Hin as (x & Hx & [[_ ->] | [_ ->]]); [apply Hb, Hx | exact Hs].
Qed.

Lemma knownStatuses_updateMeeting id data now st :
  (forall s, p_status data = Some s -> In s meetingStatuses) ->
  knownStatuses st ->
  knownStatuses (snd (updateMeeting id data now st)).
Proof.
  intros Hs [Hb Hm]. split; simpl; [exact Hb|].
  intros m Hin. apply In_update in Hin.
  destruct Hin as (x & Hx & [[_ ->] | [_ ->]]); [apply Hm, Hx|].
  simpl. destruct (p_status data) as [s|]; simpl; [apply Hs; reflexivity|].
  apply Hm, Hx.
Qed.

Lemma knownStatuses_sweepBot p now a st :
  In (b_status a) botStatuses -> knownStatuses st ->
  knownStatuses (sweepBot p now a st).
Proof.
  intros Ha Hk. unfold sweepBot. rewrite updateBotStatus_statusChange.
  assert (H1 : knownStatuses
                 (snd match statusChange p a with
                      | Some status => updateRecallBot (b_id a) status now st
                      | None => (Some a, st)
                      end)).
  { unfold statusChange.
    destruct (observedCode p a) as [code|]; [|exact Hk]. cbv zeta.
    destruct (mapStatus code (b_status a) =? b_status a)%string; [exact Hk|].
    apply knownStatuses_updateRecallBot; [|exact Hk].
    apply mapStatus_known, Ha. }
  destruct (match statusChange p a with
            | Some status => updateRecallBot (b_id a) status now st
            | None => (Some a, st)
            end) as [updated st1]. simpl in H1.
  destruct updated as [updatedBot|]; [|exact H1].
  destruct (negb (b_status updatedBot =? b_status a)%string); [|exact H1].
  destruct (getMeetingByCalendarEventId st1 (b_calendarEventId a))
    as [meeting|] eqn:Em; [|exact H1].
  cbv zeta.
  destruct (negb (propagate (b_status updatedBot) (m_status meeting)
                  =? m_status meeting)%string); [|exact H1].
  apply knownStatuses_updateMeeting; [|exact H1].
  simpl. intros s Hs. injection Hs as <-.
  apply propagate_known. apply (proj2 H1).
  apply getMeetingByCalendarEventId_some in Em. tauto.
Qed.

Lemma knownStatuses_processMeeting p now b st :
  knownStatuses st -> knownStatuses (processMeeting p now b st).
Proof.
  intros Hk.
  destruct (processMeeting_write p now b st)
    as [H | (meeting & t & _ & _ & _ & _ & _ & _ & _ & _ & H)]; rewrite H; [exact Hk|].
  apply knownStatuses_updateMeeting; [|exact Hk].
  simpl. intros s Hs. injection Hs as <-. simpl. auto.
Qed.

Lemma knownStatuses_sweep p now st :
  knownStatuses st -> knownStatuses (sweep p now st).
Proof.
  intros Hk. unfold sweep, sweepTranscripts, sweepStatuses.
  apply fold_left_preserves;
    [intros; apply knownStatuses_processMeeting; assumption|].
  assert (Hact : Forall (fun a => In (b_status a) botStatuses)
                   (filter isActive (recallBots st))).
  { apply Forall_forall. intros a Ha. apply filter_In in Ha.
    apply (proj1 Hk), Ha. }
  revert Hk Hact. generalize (filter isActive (recallBots st)).
  intros act. revert st.
  induction act as [|a act IH]; intros st Hk Hact; simpl; [exact Hk|].
  inversion Hact; subst.
  apply IH; [|assumption].
  apply knownStatuses_sweepBot; assumption.
Qed.

Lemma knownStatuses_fetchTranscript p now uid mid st :
  knownStatuses st -> knownStatuses (fetchTranscript p now uid mid st).
Proof.
  intros Hk. unfold fetchTranscript.
  repeat case_match_goal; auto.
  apply knownStatuses_processMeeting. exact Hk.
Qed.

(** X21. In every database the application reaches, each bot has one of
    the statuses scheduled, joining, recording, completed and failed, and
    each meeting one of scheduled, in_progress, completed and failed. In
    particular no bot ever has the status joined. *)
Theorem reachable_statuses_are_known (st : Store) :
  reachable st ->
  knownStatuses st /\
  (forall b, In b (recallBots st) -> b_status b <> "joined").
Proof.
  intros Hr.
  assert (Hk : knownStatuses st).
  { induction Hr as [es gs ss | es gs ss st Hr IH
                     | p now uid eid flag st Hr IH | p now st Hr IH
                     | p now uid mid st Hr IH | st Hr IH | st Hr IH].
    - split; simpl; intros ? [].
    - exact IH.
    - pose proof (reachable_consistent st Hr) as Hc.
      destruct IH as [Hb Hm].
      destruct (toggleRecording_rows p now uid eid flag st Hc)
        as [(Eb & [Em | (m & Em & _ & Hs & _)])
           | (b & m & Eb & Em & Hsb & Hsm & _)];
        split; rewrite ?Eb, ?Em; intros x Hx;
        try apply in_app_or in Hx; auto.
      + destruct Hx as [Hx | [<- | []]]; [auto|]. rewrite Hs. simpl. auto.
      + destruct Hx as [Hx | [<- | []]]; [auto|]. rewrite Hsb. simpl. auto.
      + destruct Hx as [Hx | [<- | []]]; [auto|]. rewrite Hsm. simpl. auto.
    - apply knownStatuses_sweep, IH.
    - apply knownStatuses_fetchTranscript, IH.
    - destruct IH as [Hb Hm]. split; simpl; [intros ? []|].
      intros m Hin. apply in_map_iff in Hin.
      destruct Hin as (x & <- & Hx). simpl. apply Hm, Hx.
    - destruct IH as [Hb Hm]. split; simpl; [exact Hb | intros ? []]. }
  split; [exact Hk|].
  intros b Hb E. apply (proj1 Hk) in Hb. rewrite E in Hb. simpl in Hb.
  repeat (destruct Hb as [Hb|Hb]; [discriminate|]). exact Hb.
Qed.

Lemma Forall2_In_r {A : Type} (R : A -> A -> Prop) (l l' : list A) (y : A) :
  Forall2 R l l' -> In y l' -> exists x, In x l /\ R x y.
Proof.
  induction 1 as [|a b l l' Hab _ IH]; simpl; [intros []|].
  intros [<- | Hy]; [exists a; auto|].
  destruct (IH Hy) as (x & Hx & Hr). exists x. auto.
Qed.

Lemma Forall2_In_l {A : Type} (R : A -> A -> Prop) (l l' : list A) (x : A) :
  Forall2 R l l' -> In x l -> exists y, In y l' /\ R x y.
Proof.
  induction 1 as [|a b l l' Hab _ IH]; simpl; [intros []|].
  intros [<- | Hx]; [exists b; auto|].
  destruct (IH Hx) as (y & Hy & Hr). exists y. auto.
Qed.

Lemma linksResolve_sameRows st st' :
  sameRows st st' -> linksResolve st -> linksResolve st'.
Proof.
  intros Hs Hl m' botId Hm' Hlink.
  destruct (Forall2_In_r _ _ _ _ (same_meetings _ _ Hs) Hm')
    as (m & Hm & Hmm).
  destruct Hmm as (M1 & M2 & M3 & M4 & _).
  rewrite M4 in Hlink.
  destruct (Hl m botId Hm Hlink) as (b & Hb & B1 & B2 & B3).
  destruct (Forall2_In_l _ _ _ _ (same_bots _ _ Hs) Hb) as (b' & Hb' & Hbb).
  destruct Hbb as (K1 & K2 & K3 & _).
  exists b'. repeat split; congruence.
Qed.

Lemma sameRows_fetchTranscript p now uid mid st :
  sameRows st (fetchTranscript p now uid mid st).
Proof.
  unfold fetchTranscript.
  repeat case_match_goal; try apply sameRows_refl.
  apply sameRows_processMeeting.
Qed.

Lemma reachable_linksResolve st : reachable st -> linksResolve st.
Proof.
  intros Hr.
  induction Hr as [es gs ss | es gs ss st Hr IH
                   | p now uid eid flag st Hr IH | p now st Hr IH
                   | p now uid mid st Hr IH | st Hr IH | st Hr IH].
  - intros m botId [].
  - exact IH.
  - pose proof (reachable_consistent st Hr) as Hc.
    destruct (toggleRecording_rows p now uid eid flag st Hc)
      as [(Eb & [Em | (m & Em & Hnone & _)])
         | (b & m & Eb & Em & _ & _ & Hlink & Hev & Hu & _)];
      intros x botId Hx Hxl; unfold linksResolve in IH;
      rewrite ?Eb; rewrite ?Em in Hx.
    + exact (IH x botId Hx Hxl).
    + apply in_app_or in Hx. destruct Hx as [Hx | [<- | []]];
        [exact (IH x botId Hx Hxl) | congruence].
    + apply in_app_or in Hx. destruct Hx as [Hx | [<- | []]].
      * destruct (IH x botId Hx Hxl) as (b0 & Hb0 & H0).
        exists b0. split; [apply in_or_app; left; exact Hb0 | exact H0].
      * exists b. split; [apply in_or_app; right; left; reflexivity|].
        repeat split; congruence.
  - eapply linksResolve_sameRows; [|exact IH].
    apply sameRows_sweep.
  - eapply linksResolve_sameRows; [|exact IH].
    apply sameRows_fetchTranscript.
  - intros m botId Hm Hlink. simpl in Hm. apply in_map_iff in Hm.
    destruct Hm as (x & <- & _). discriminate.
  - intros m botId [].
Qed.

Lemma reachable_link st m botId :
  reachable st -> In m (meetings st) -> m_recallBotId m = Some botId ->
  exists b,
    getRecallBot st botId = Some b /\
    b_calendarEventId b = m_calendarEventId m /\
    b_userId b = m_userId m.
Proof.
  intros Hr Hm Hlink.
  destruct (reachable_linksResolve st Hr m botId Hm Hlink)
    as (b & Hb & Hid & Hev & Hu).
  exists b. split; [|auto].
  unfold getRecallBot. rewrite <- Hid. apply (find_unique b_id).
  - apply bot_ids. apply reachable_consistent. exact Hr.
  - exact Hb.
Qed.

(** X22. In every database the application reaches, the bot a meeting
    names is a stored one: [getRecallBot] finds it, and it is a bot of the
    meeting's own calendar event and of the meeting's own user. *)
Theorem reachable_links_resolve (st : Store) (m : Meeting) (botId : Z) :
  reachable st -> In m (meetings st) -> m_recallBotId m = Some botId ->
  exists b,
    getRecallBot st botId = Some b /\
    b_id b = botId /\
    b_calendarEventId b = m_calendarEventId m /\
    b_userId b = m_userId m.
Proof.
  intros Hr Hm Hlink.
  destruct (reachable_link st m botId Hr Hm Hlink) as (b & Hb & Hev & Hu).
  exists b. split; [exact Hb|]. split; [|auto].
  unfold getRecallBot in Hb. apply (find_key_some b_id) in Hb. tauto.
Qed.

(** X23. In every database the application reaches, a manual fetch that
    changes something was asked for a meeting of the session user, and
    what it changes is the meeting that the lookup on that meeting's
    calendar event returns, a meeting of the same event that had no
    transcript and that is not always the one asked for: it gets the text,
    which is not empty and which [trim] does not empty, and the status
    completed. *)
Theorem fetchTranscript_writes_looked_up_meeting
    (p : Provider) (now sessionUser meetingId : Z) (st : Store) :
  reachable st ->
  fetchTranscript p now sessionUser meetingId st <> st ->
  exists requested target transcript,
    getMeeting st meetingId = Some requested /\
    m_userId requested = sessionUser /\
    getMeetingByCalendarEventId st (m_calendarEventId requested)
    = Some target /\
    m_calendarEventId target = m_calendarEventId requested /\
    hasTranscript target = false /\
    transcript <> "" /\
    nonBlank transcript = true /\
    fetchTranscript p now sessionUser meetingId st
    = snd (updateMeeting (m_id target) (transcriptPatch transcript) now st).
Proof.
  intros Hr. unfold fetchTranscript.
  destruct (getMeeting st meetingId) as [requested|] eqn:Eg;
    [|intros H; contradiction].
  destruct (m_userId requested =? sessionUser) eqn:Eu;
    [|intros H; contradiction].
  cbn [negb].
  destruct (m_recallBotId requested) as [botId|] eqn:El;
    [|intros H; contradiction].
  destruct (botId =? 0); [intros H; contradiction|].
  destruct (getRecallBot st botId) as [bot|] eqn:Eb;
    [|intros H; contradiction].
  intros Hne.
  destruct (processMeeting_write p now bot st)
    as [H | (target & t & _ & Hm & _ & Hev' & Hh & _ & Hne' & Hn & H)];
    [contradiction|].
  unfold getMeeting in Eg. apply find_some in Eg. destruct Eg as [Hin Hid].
  destruct (reachable_link st requested botId Hr Hin El) as (b & Hb & Hev & _).
  rewrite Eb in Hb. injection Hb as <-.
  exists requested, target, t. apply Z.eqb_eq in Eu.
  split; [reflexivity|]. split; [exact Eu|].
  rewrite <- Hev. auto 10.
Qed.

Lemma minutesSinceLt_later now now' t m :
  now <= now' -> minutesSinceLt now t m = false ->
  minutesSinceLt now' t m = false.
Proof.
  intros Hle. unfold minutesSinceLt. destruct t as [t|]; [|reflexivity].
  rewrite !Z.ltb_ge. lia.
Qed.

Lemma readyToFetch_later now now' botStatus :
  now <= now' -> readyToFetch now botStatus = Some true ->
  readyToFetch now' botStatus = Some true.
Proof.
  intros Hle. unfold readyToFetch.
  repeat case_match_goal; try discriminate; try (intros; assumption);
    intros H; injection H as H; f_equal;
    apply negb_true_iff in H; apply negb_true_iff;
    eapply minutesSinceLt_later; eassumption.
Qed.

(** X24. The waiting time of [processMeeting] only has to pass once: with
    the same answers of the provider, a call that writes at one time
    writes at every later time, and it writes the same thing (the same
    statement in the log, the same transcripts and statuses). *)
Theorem processMeeting_later_writes_the_same
    (p : Provider) (now now' : Z) (bot : RecallBot) (st : Store) :
  now <= now' ->
  processMeeting p now bot st <> st ->
  log (processMeeting p now' bot st) = log (processMeeting p now bot st) /\
  map m_transcript (meetings (processMeeting p now' bot st))
  = map m_transcript (meetings (processMeeting p now bot st)) /\
  map m_status (meetings (processMeeting p now' bot st))
  = map m_status (meetings (processMeeting p now bot st)).
Proof.
  intros Hle. unfold processMeeting.
  destruct (negb (b_status bot =? "completed")%string);
    [intros H; contradiction|].
  destruct (getMeetingByCalendarEventId st (b_calendarEventId bot))
    as [meeting|]; [|intros H; contradiction].
  destruct (hasTranscript meeting); [intros H; contradiction|].
  destruct (getBotStatus p 0 (b_recallBotId bot)) as [snapshot|];
    [|intros H; contradiction].
  destruct (readyToFetch now snapshot) as [[|]|] eqn:Er;
    try (intros H; contradiction).
  rewrite (readyToFetch_later now now' snapshot Hle Er).
  destruct (fst (getTranscript p 1 (b_recallBotId bot)));
    try (intros H; contradiction).
  destruct (truthy (JStr s) && nonBlank s); [|intros H; contradiction].
  intros _. simpl. rewrite !map_map.
  split; [reflexivity|].
  split; apply map_ext; intros m; destruct (m_id m =? m_id meeting);
    reflexivity.
Qed.

(** *** Follow-up emails *)

Lemma emailsOf_snoc cs row id :
  filter (fun c => (c_meetingId c =? id) && (c_type c =? "follow_up_email")%string)
    (meetingContents cs ++ [row])
  = emailsOf cs id
    ++ (if (c_meetingId row =? id) && (c_type row =? "follow_up_email")%string
        then [row] else []).
Proof.
  rewrite filter_app. reflexivity.
Qed.

(** What the route does to the table: nothing, or one draft appended for a
    meeting of the session user that has a transcript and had no email. *)
Lemma generateEmail_rows generateChat now sessionUser meetingId st cs :
  snd (generateEmail generateChat now sessionUser meetingId st cs) = cs \/
  exists meeting emailContent,
    getMeeting st meetingId = Some meeting /\
    m_userId meeting = sessionUser /\
    hasTranscript meeting = true /\
    emailsOf cs meetingId = [] /\
    generateFollowUpEmail generateChat meeting = Some emailContent /\
    generateEmail generateChat now sessionUser meetingId st cs
    = (EmailContent
         (fst (createMeetingContent meetingId "follow_up_email" emailContent
                 "draft" now cs)),
       snd (createMeetingContent meetingId "follow_up_email" emailContent
              "draft" now cs)).
Proof.
  unfold generateEmail.
  destruct (getMeeting st meetingId) as [meeting|]; [|left; reflexivity].
  destruct (m_userId meeting =? sessionUser) eqn:Eu; [|left; reflexivity].
  destruct (hasTranscript meeting) eqn:Eh; [|left; reflexivity].
  cbn [negb].
  destruct (getMeetingContentsByMeetingIdAndType cs meetingId
              "follow_up_email") as [|existing rest] eqn:Ee;
    [|left; reflexivity].
  destruct (generateFollowUpEmail generateChat meeting) as [emailContent|]
    eqn:Eg; [|left; reflexivity].
  right. exists meeting, emailContent. apply Z.eqb_eq in Eu.
  repeat (split; [auto; fail|]). reflexivity.
Qed.

(** X25. Once the route has answered with an email, every later request
    for that meeting gets the same row and writes nothing, whatever the
    text generator would produce then. *)
Theorem generateEmail_again_returns_stored_email
    (generateChat generateChat' : list (string * string) -> Z -> option string)
    (now now' sessionUser meetingId : Z) (st : Store) (cs cs' : Contents)
    (email : MeetingContent) :
  generateEmail generateChat now sessionUser meetingId st cs
  = (EmailContent email, cs') ->
  generateEmail generateChat' now' sessionUser meetingId st cs'
  = (EmailContent email, cs').
Proof.
  intros H.
  destruct (generateEmail_rows generateChat now sessionUser meetingId st cs)
    as [Hsame | (meeting & text & Hm & Hu & Hh & He & Hg & Hcreate)].
  - rewrite H in Hsame. simpl in Hsame. subst cs'.
    revert H. unfold generateEmail.
    destruct (getMeeting st meetingId) as [meeting|]; [|discriminate].
    destruct (negb (m_userId meeting =? sessionUser)); [discriminate|].
    destruct (negb (hasTranscript meeting)); [discriminate|].
    destruct (getMeetingContentsByMeetingIdAndType cs meetingId
                "follow_up_email") as [|existing rest] eqn:Ee.
    + destruct (generateFollowUpEmail generateChat meeting) as [text|];
        [|discriminate].
      simpl. intros H. injection H as _ H.
      exfalso. apply (f_equal nextContentId) in H. simpl in H. lia.
    + intros H. injection H as <-. reflexivity.
  - rewrite Hcreate in H. injection H as <- <-.
    unfold generateEmail. rewrite Hm, Hu, Z.eqb_refl, Hh. cbn [negb].
    unfold getMeetingContentsByMeetingIdAndType. simpl.
    rewrite emailsOf_snoc, He. simpl. rewrite Z.eqb_refl. reflexivity.
Qed.

(** X26. The route keeps the follow-up emails of a meeting at one: it
    never removes or changes a row, and a table in which no meeting has
    more than one follow-up email is still such a table after any
    request. *)
Theorem generateEmail_keeps_one_email_per_meeting
    (generateChat : list (string * string) -> Z -> option string)
    (now sessionUser meetingId : Z) (st : Store) (cs : Contents) :
  (forall id, (List.length (emailsOf cs id) <= 1)%nat) ->
  let cs' := snd (generateEmail generateChat now sessionUser meetingId st cs) in
  (forall id, (List.length (emailsOf cs' id) <= 1)%nat) /\
  (forall id, id <> meetingId -> emailsOf cs' id = emailsOf cs id) /\
  (exists added, meetingContents cs' = meetingContents cs ++ added).
Proof.
  intros Hone.
  destruct (generateEmail_rows generateChat now sessionUser meetingId st cs)
    as [Hsame | (meeting & text & Hm & Hu & Hh & He & Hg & Hcreate)].
  - cbv zeta. rewrite Hsame. split; [exact Hone|]. split; [reflexivity|].
    exists []. rewrite app_nil_r. reflexivity.
  - cbv zeta. rewrite Hcreate. cbn [snd createMeetingContent].
    assert (Hemails : forall id,
      emailsOf {| meetingContents :=
                    meetingContents cs
                    ++ [fst (createMeetingContent meetingId "follow_up_email"
                               text "draft" now cs)];
                  nextContentId := nextContentId cs + 1 |} id
      = emailsOf cs id
        ++ (if meetingId =? id
            then [fst (createMeetingContent meetingId "follow_up_email"
                         text "draft" now cs)]
            else [])).
    { intros id. unfold emailsOf at 1, getMeetingContentsByMeetingIdAndType.
      cbn [meetingContents]. rewrite emailsOf_snoc. simpl.
      destruct (meetingId =? id); reflexivity. }
    split; [|split].
    + intros id. cbn [fst createMeetingContent] in Hemails.
      rewrite Hemails.
      destruct (meetingId =? id) eqn:E.
      * apply Z.eqb_eq in E. subst id. rewrite He. simpl. lia.
      * rewrite app_nil_r. apply Hone.
    + intros id Hne. cbn [fst createMeetingContent] in Hemails.
      rewrite Hemails.
      assert (E : (meetingId =? id) = false) by (apply Z.eqb_neq; congruence).
      rewrite E. apply app_nil_r.
    + eexists. reflexivity.
Qed.

(** X27. The route writes only for a meeting of the session user that has
    a transcript and no follow-up email yet, and only when the generator
    returns a text: what it writes is one row, a draft of type
    follow_up_email for that meeting with that text and the next key. *)
Theorem generateEmail_writes_one_draft
    (generateChat : list (string * string) -> Z -> option string)
    (now sessionUser meetingId : Z) (st : Store) (cs : Contents) :
  snd (generateEmail generateChat now sessionUser meetingId st cs) <> cs ->
  exists meeting transcript emailContent,
    getMeeting st meetingId = Some meeting /\
    m_userId meeting = sessionUser /\
    m_transcript meeting = Some transcript /\ transcript <> "" /\
    emailsOf cs meetingId = [] /\
    generateFollowUpEmail generateChat meeting = Some emailContent /\
    generateEmail generateChat now sessionUser meetingId st cs
    = (EmailContent
         {| c_id := nextContentId cs; c_meetingId := meetingId;
            c_type := "follow_up_email"; c_platform := None;
            c_automationId := None; c_content := emailContent;
            c_imageUrl := None; c_status := "draft"; c_publishedAt := None;
            c_createdAt := now; c_updatedAt := now |},
       {| meetingContents :=
            meetingContents cs
            ++ [{| c_id := nextContentId cs; c_meetingId := meetingId;
                   c_type := "follow_up_email"; c_platform := None;
                   c_automationId := None; c_content := emailContent;
                   c_imageUrl := None; c_status := "draft";
                   c_publishedAt := None; c_createdAt := now;
                   c_updatedAt := now |}];
          nextContentId := nextContentId cs + 1 |}).
Proof.
  intros Hne.
  destruct (generateEmail_rows generateChat now sessionUser meetingId st cs)
    as [Hsame | (meeting & text & Hm & Hu & Hh & He & Hg & Hcreate)];
    [contradiction|].
  unfold hasTranscript in Hh.
  destruct (m_transcript meeting) as [transcript|] eqn:Et; [|discriminate].
  exists meeting, transcript, text.
  repeat (split; [auto; fail|]).
  split; [intros ->; discriminate|].
  repeat (split; [auto; fail|]).
  exact Hcreate.
Qed.

(** *** Meetings that name a bot do not move backward *)

Lemma isTerminal_dec s : {isTerminal s} + {~ isTerminal s}.
Proof.
  unfold isTerminal.
  destruct (string_dec s "completed"); [left; auto|].
  destruct (string_dec s "failed"); [left; auto|].
  right. tauto.
Defined.

Lemma noRegress_refl quiet m : noRegress quiet m m.
Proof.
  repeat split; [left; reflexivity|]. intros _. lia.
Qed.

Lemma noRegress_trans quiet m1 m2 m3 :
  noRegress quiet m1 m2 -> noRegress quiet m2 m3 -> noRegress quiet m1 m3.
Proof.
  intros (A1 & A2 & A3 & A4 & A5) (B1 & B2 & B3 & B4 & B5).
  repeat split; try congruence.
  - destruct B4 as [B4 | B4]; [|right; exact B4].
    rewrite B4. exact A4.
  - intros G. specialize (A5 G).
    rewrite A2, A3 in B5. specialize (B5 G). lia.
Qed.

Lemma noRegress_events quiet l l' :
  Forall2 (noRegress quiet) l l' ->
  map m_calendarEventId l' = map m_calendarEventId l.
Proof.
  induction 1 as [|x y l l' (_ & H & _) _ IH]; simpl; [reflexivity|].
  rewrite H, IH. reflexivity.
Qed.

(** The propagation writes [in_progress], [completed] or [failed]. *)
Lemma propagate_rank status current :
  propagate status current <> current ->
  1 <= meetingRank (propagate status current).
Proof.
  intros Hne.
  destruct (propagate_cases status current)
    as [H | [[_ H] | [[_ H] | [_ H]]]];
    [contradiction | rewrite H; vm_compute; discriminate ..].
Qed.

(** A row of the bots after the status of [a] was written. *)
Lemma updated_bot_row status now a st b' :
  consistent st -> In a (recallBots st) ->
  In b' (map (fun r => if b_id r =? b_id a then setBotStatus status now r
                       else r) (recallBots st)) ->
  (In b' (recallBots st) /\ b_id b' <> b_id a) \/
  b' = setBotStatus status now a.
Proof.
  intros Hc Ha H. apply In_update in H.
  destruct H as (x & Hx & [[E ->] | [E ->]]).
  - left. split; [exact Hx|]. apply Z.eqb_neq. exact E.
  - right. apply Z.eqb_eq in E.
    rewrite (NoDup_key_eq b_id _ x a (bot_ids st Hc) Hx Ha E). reflexivity.
Qed.

(** A row of the meetings after [target] was updated. *)
Lemma updated_meeting_row data now target st m' :
  consistent st -> In target (meetings st) ->
  In m' (map (fun m => if m_id m =? m_id target then applyPatch data now m
                       else m) (meetings st)) ->
  (In m' (meetings st) /\ m_id m' <> m_id target) \/
  m' = applyPatch data now target.
Proof.
  intros Hc Ht H. apply In_update in H.
  destruct H as (x & Hx & [[E ->] | [E ->]]).
  - left. split; [exact Hx|]. apply Z.eqb_neq. exact E.
  - right. apply Z.eqb_eq in E.
    rewrite (NoDup_key_eq m_id _ x target (meeting_ids st Hc) Hx Ht E).
    reflexivity.
Qed.

(** A meeting of the event of a bot that names a bot names that bot. *)
Lemma linked_meeting_names_bot st a m botId :
  consistent st -> wellLinked st ->
  In a (recallBots st) -> In m (meetings st) ->
  m_calendarEventId m = b_calendarEventId a ->
  m_recallBotId m = Some botId -> botId = b_id a.
Proof.
  intros Hc Hw Ha Hm Hev Hl.
  destruct (links_resolve st Hw m botId Hm Hl) as (b & Hb & Hid & Hbe & _).
  assert (E : b = a).
  { apply (NoDup_key_eq b_calendarEventId (recallBots st) b a
             (bot_events st Hc) Hb Ha). congruence. }
  subst b. symmetry. exact Hid.
Qed.

(** One iteration of the first loop keeps the links as they should be. *)
Lemma sweepBot_terminal p now a st :
  consistent st -> wellLinked st ->
  In a (recallBots st) -> isActive a = true ->
  terminalMeetingHasTerminalBot (sweepBot p now a st).
Proof.
  intros Hc Hw Ha Hact.
  pose proof (terminal_links st Hw) as HT.
  destruct (sweepBot_effect p now a st Ha)
    as [E | (status & Hsc & Hbots & Hms)].
  { rewrite E. exact HT. }
  assert (Hold : forall m b',
            In m (meetings st) -> In b' (recallBots (sweepBot p now a st)) ->
            m_recallBotId m = Some (b_id b') -> isTerminal (m_status m) ->
            isActive b' = false).
  { intros m b' Hm Hb' Hl Ht. rewrite Hbots in Hb'.
    destruct (updated_bot_row _ _ _ _ _ Hc Ha Hb') as [[Hb _] | ->].
    - exact (HT m b' Hm Hb Hl Ht).
    - exfalso. rewrite setBotStatus_id in Hl.
      pose proof (HT m a Hm Ha Hl Ht). congruence. }
  intros m' b' Hm' Hb' Hl Ht.
  destruct Hms as [Em | (target & Htin & Htev & Hprop & Em)];
    rewrite Em in Hm'.
  { exact (Hold m' b' Hm' Hb' Hl Ht). }
  destruct (updated_meeting_row _ _ _ _ _ Hc Htin Hm') as [[Hm _] | ->].
  { exact (Hold m' b' Hm Hb' Hl Ht). }
  cbn [m_recallBotId m_status applyPatch statusPatch p_recallBotId p_status
       orElse] in Hl, Ht.
  pose proof (linked_meeting_names_bot st a target _ Hc Hw Ha Htin Htev Hl)
    as Hid.
  rewrite Hbots in Hb'.
  destruct (updated_bot_row _ _ _ _ _ Hc Ha Hb') as [[_ Hne] | ->];
    [contradiction|].
  destruct (propagate_cases status (m_status target))
    as [H | [[_ H] | [[-> _] | [-> _]]]].
  - contradiction.
  - rewrite H in Ht. contradiction (not_terminal_in_progress Ht).
  - reflexivity.
  - reflexivity.
Qed.

(** One iteration of the first loop moves backward no meeting that names a
    bot, and it writes to a meeting of the event of the bot it polls. *)
Lemma sweepBot_noRegress (quiet : Z -> Prop) p now a st :
  consistent st -> wellLinked st ->
  In a (recallBots st) -> isActive a = true ->
  ~ quiet (b_calendarEventId a) ->
  Forall2 (noRegress quiet) (meetings st) (meetings (sweepBot p now a st)).
Proof.
  intros Hc Hw Ha Hact Hquiet.
  destruct (sweepBot_effect p now a st Ha)
    as [E | (status & Hsc & Hbots & Hms)].
  { rewrite E. apply Forall2_refl_on, noRegress_refl. }
  destruct Hms as [-> | (target & Htin & Htev & Hprop & ->)].
  { apply Forall2_refl_on, noRegress_refl. }
  apply Forall2_map_r. intros x Hx.
  destruct (m_id x =? m_id target) eqn:Eid; [|apply noRegress_refl].
  apply Z.eqb_eq in Eid.
  assert (E : x = target)
    by (apply (NoDup_key_eq m_id (meetings st) x target
                 (meeting_ids st Hc) Hx Htin Eid)).
  subst x. repeat split;
    cbn [m_status applyPatch statusPatch p_status orElse].
  { right. apply propagate_rank. exact Hprop. }
  intros [G | G]; [|rewrite Htev in G; contradiction].
  destruct (m_recallBotId target) as [botId|] eqn:El; [|contradiction].
  pose proof (linked_meeting_names_bot st a target botId Hc Hw Ha Htin Htev
                El) as Hid.
  subst botId.
  destruct (isTerminal_dec (m_status target)) as [Ht | Hnt].
  - pose proof (terminal_links st Hw target a Htin Ha El Ht). congruence.
  - pose proof (meetingRank_nonterminal _ Hnt) as Hle.
    pose proof (propagate_rank status (m_status target) Hprop). lia.
Qed.

Lemma sweepBot_wellLinked p now a st :
  consistent st -> wellLinked st ->
  In a (recallBots st) -> isActive a = true ->
  wellLinked (sweepBot p now a st).
Proof.
  intros Hc Hw Ha Hact. split.
  - apply (linksResolve_sameRows st); [apply sameRows_sweepBot|].
    apply (links_resolve st Hw).
  - apply sweepBot_terminal; assumption.
Qed.

(** Storing a transcript keeps the links as they should be. *)
Lemma processMeeting_terminal p now b st :
  consistent st -> wellLinked st -> In b (recallBots st) ->
  terminalMeetingHasTerminalBot (processMeeting p now b st).
Proof.
  intros Hc Hw Hb. pose proof (terminal_links st Hw) as HT.
  destruct (processMeeting_write p now b st)
    as [E | (target & t & Hs & _ & Htin & Htev & _ & _ & _ & _ & E)].
  { rewrite E. exact HT. }
  intros m' b' Hm' Hb' Hl Ht.
  rewrite processMeeting_bots in Hb'.
  rewrite E in Hm'.
  cbn [updateMeeting snd logged withMeetings meetings] in Hm'.
  destruct (updated_meeting_row _ _ _ _ _ Hc Htin Hm') as [[Hm _] | ->].
  { exact (HT m' b' Hm Hb' Hl Ht). }
  cbn [m_recallBotId applyPatch transcriptPatch p_recallBotId] in Hl.
  pose proof (linked_meeting_names_bot st b target _ Hc Hw Hb Htin Htev Hl)
    as Hid.
  assert (E' : b' = b)
    by (apply (NoDup_key_eq b_id (recallBots st) b' b (bot_ids st Hc)
                 Hb' Hb Hid)).
  subst b'. unfold isActive. rewrite Hs. reflexivity.
Qed.

Lemma processMeeting_noRegress (quiet : Z -> Prop) p now b st :
  Forall2 (noRegress quiet) (meetings st)
    (meetings (processMeeting p now b st)).
Proof.
  destruct (processMeeting_write p now b st)
    as [E | (target & t & _ & _ & _ & _ & _ & _ & _ & _ & E)]; rewrite E.
  { apply Forall2_refl_on, noRegress_refl. }
  cbn [updateMeeting snd logged withMeetings meetings].
  apply Forall2_map_r. intros x _.
  destruct (m_id x =? m_id target); [|apply noRegress_refl].
  repeat split;
    cbn [m_status applyPatch transcriptPatch p_status orElse].
  - right. vm_compute. discriminate.
  - intros _. apply meetingRank_le_2.
Qed.

Lemma processMeeting_wellLinked p now b st :
  consistent st -> wellLinked st -> In b (recallBots st) ->
  wellLinked (processMeeting p now b st).
Proof.
  intros Hc Hw Hb. split.
  - apply (linksResolve_sameRows st); [apply sameRows_processMeeting|].
    apply (links_resolve st Hw).
  - apply processMeeting_terminal; assumption.
Qed.

(** The first loop: every bot it visits is still the row of the database,
    because the iterations before wrote to other bots. *)
Lemma sweepStatuses_loop (quiet : Z -> Prop) p now act :
  forall st,
    consistent st -> wellLinked st ->
    NoDup (map b_id act) ->
    (forall a, In a act ->
               In a (recallBots st) /\ isActive a = true /\
               ~ quiet (b_calendarEventId a)) ->
    let st' := fold_left (fun s bot => sweepBot p now bot s) act st in
    consistent st' /\ wellLinked st' /\
    Forall2 (noRegress quiet) (meetings st) (meetings st').
Proof.
  induction act as [|a act IH]; intros st Hc Hw Hnd Hact; simpl.
  - split; [exact Hc | split; [exact Hw|]].
    apply Forall2_refl_on. apply noRegress_refl.
  - inversion Hnd as [|? ? Hnotin Hnd']; subst.
    destruct (Hact a (or_introl eq_refl)) as (Hin & Ha & Hq).
    pose proof (sweepBot_noRegress quiet p now a st Hc Hw Hin Ha Hq)
      as Hstep.
    destruct (IH (sweepBot p now a st)) as [Hc' [Hw' Hrel]].
    + apply consistent_sweepBot. exact Hc.
    + apply sweepBot_wellLinked; assumption.
    + exact Hnd'.
    + intros a' Ha'.
      destruct (Hact a' (or_intror Ha')) as (Hin' & Hact' & Hq').
      split; [|split; [exact Hact' | exact Hq']].
      rewrite sweepBot_bots.
      replace a' with (stepRow p now a a').
      * apply in_map. exact Hin'.
      * apply stepRow_other. intros Heq. apply Hnotin. rewrite Heq.
        apply in_map. exact Ha'.
    + split; [exact Hc' | split; [exact Hw'|]].
      apply (Forall2_trans_on (noRegress quiet) _
               (meetings (sweepBot p now a st))); auto.
      apply noRegress_trans.
Qed.

Lemma sweepTranscripts_loop (quiet : Z -> Prop) p now l :
  forall st,
    consistent st -> wellLinked st ->
    (forall b, In b l -> In b (recallBots st)) ->
    let st' := fold_left (fun s bot => processMeeting p now bot s) l st in
    consistent st' /\ wellLinked st' /\
    Forall2 (noRegress quiet) (meetings st) (meetings st').
Proof.
  induction l as [|b l IH]; intros st Hc Hw Hin; simpl.
  - split; [exact Hc | split; [exact Hw|]].
    apply Forall2_refl_on. apply noRegress_refl.
  - destruct (IH (processMeeting p now b st)) as [Hc' [Hw' Hrel]].
    + apply consistent_processMeeting. exact Hc.
    + apply processMeeting_wellLinked; try assumption.
      apply Hin. left. reflexivity.
    + intros b' Hb'. rewrite processMeeting_bots. apply Hin. right. exact Hb'.
    + split; [exact Hc' | split; [exact Hw'|]].
      apply (Forall2_trans_on (noRegress quiet) _
               (meetings (processMeeting p now b st))); auto.
      * apply noRegress_trans.
      * apply processMeeting_noRegress.
Qed.

Lemma sweep_loop p now st :
  consistent st -> wellLinked st ->
  wellLinked (sweep p now st) /\
  Forall2 (noRegress (fun E => ~ polledEvent st E))
    (meetings st) (meetings (sweep p now st)).
Proof.
  intros Hc Hw. unfold sweep.
  destruct (sweepStatuses_loop (fun E => ~ polledEvent st E) p now
              (filter isActive (recallBots st)) st Hc Hw)
    as [Hc1 [Hw1 Hrel1]].
  - apply NoDup_map_filter. apply (bot_ids st Hc).
  - intros a Ha. apply filter_In in Ha. destruct Ha as [Hin Hact].
    split; [exact Hin | split; [exact Hact|]].
    intros Hq. apply Hq. exists a. auto.
  - fold (sweepStatuses p now st) in *.
    destruct (sweepTranscripts_loop (fun E => ~ polledEvent st E) p now
                (filter isCompleted (recallBots (sweepStatuses p now st)))
                (sweepStatuses p now st) Hc1 Hw1)
      as [_ [Hw2 Hrel2]].
    + intros b Hb. apply filter_In in Hb. tauto.
    + split; [exact Hw2|].
      apply (Forall2_trans_on (noRegress (fun E => ~ polledEvent st E)) _
               (meetings (sweepStatuses p now st))); auto.
      apply noRegress_trans.
Qed.

Lemma reachable_wellLinked st : reachable st -> wellLinked st.
Proof.
  intros Hr.
  split; [apply reachable_linksResolve; exact Hr|].
  induction Hr as [es gs ss | es gs ss st Hr IH
                   | p now uid eid flag st Hr IH | p now st Hr IH
                   | p now uid mid st Hr IH | st Hr IH | st Hr IH].
  - intros m b [].
  - exact IH.
  - pose proof (reachable_consistent st Hr) as Hc.
    pose proof (reachable_linksResolve st Hr) as Hl.
    destruct (toggleRecording_rows p now uid eid flag st Hc)
      as [(Eb & [Em | (m & Em & Hnone & _)])
         | (b & m & Eb & Em & _ & Hsm & Hlink & _ & _ & Hid)];
      intros x y Hx Hy Hxl Ht; rewrite Eb in Hy; rewrite Em in Hx.
    + exact (IH x y Hx Hy Hxl Ht).
    + apply in_app_or in Hx. destruct Hx as [Hx | [<- | []]];
        [exact (IH x y Hx Hy Hxl Ht) | congruence].
    + apply in_app_or in Hx. destruct Hx as [Hx | [<- | []]].
      * apply in_app_or in Hy. destruct Hy as [Hy | [<- | []]];
          [exact (IH x y Hx Hy Hxl Ht)|].
        exfalso. destruct (Hl x _ Hx Hxl) as (b0 & Hb0 & Hb0id & _).
        pose proof (bot_ids_lt st Hc b0 Hb0). lia.
      * exfalso. rewrite Hsm in Ht. destruct Ht; discriminate.
  - assert (Hw : wellLinked st).
    { split; [apply reachable_linksResolve; exact Hr | exact IH]. }
    destruct (sweep_loop p now st (reachable_consistent st Hr) Hw)
      as [Hw' _].
    apply (terminal_links _ Hw').
  - assert (Hw : wellLinked st).
    { split; [apply reachable_linksResolve; exact Hr | exact IH]. }
    unfold fetchTranscript.
    repeat case_match_goal; try exact IH.
    apply processMeeting_terminal;
      [apply reachable_consistent; exact Hr | exact Hw |].
    match goal with
    | H : getRecallBot st _ = Some _ |- _ =>
        unfold getRecallBot in H; apply find_some in H; apply H
    end.
  - intros m b _ [].
  - intros m b [].
Qed.

(** C4, as far as it holds. A run of the background task never moves
    backward, in the order scheduled, in_progress, completed or failed, the
    status of a meeting that names a bot, nor the status of a meeting that
    is scheduled or in progress, nor the status of a meeting whose calendar
    event has no bot that is still polled, whatever the provider answers
    and in whatever order the database returns rows: after the run the
    meeting is stored under the same key, for the same event, with the same
    bot, and its status is not earlier than before.  The run can move
    backward only a completed or failed meeting that names no bot and
    whose calendar event has a bot that is polled. *)
Theorem sweep_moves_only_meeting_forward
    (p : Provider) (now : Z) (st : Store) (m : Meeting) :
  reachable st ->
  In m (meetings st) ->
  guarded st m ->
  exists m',
    getMeeting (sweep p now st) (m_id m) = Some m' /\
    m_calendarEventId m' = m_calendarEventId m /\
    m_recallBotId m' = m_recallBotId m /\
    meetingRank (m_status m) <= meetingRank (m_status m').
Proof.
  intros Hr Hm G.
  pose proof (reachable_consistent st Hr) as Hc.
  destruct (sweep_loop p now st Hc (reachable_wellLinked st Hr))
    as [_ Hrel].
  destruct (Forall2_In_l _ _ _ _ Hrel Hm)
    as (m' & Hm' & Hid & Hev & Hl & Hsame & Hrank).
  exists m'. split; [|split; [exact Hev | split; [exact Hl|]]].
  - unfold getMeeting. rewrite <- Hid. apply (find_unique m_id).
    + apply meeting_ids. apply consistent_sweep. exact Hc.
    + exact Hm'.
  - destruct G as [G | [G | G]].
    + apply Hrank. left. exact G.
    + pose proof (meetingRank_nonterminal _ G).
      destruct Hsame as [-> | H1]; lia.
    + apply Hrank. right. exact G.
Qed.

(** *** Meetings without a bot *)

Lemma sameMeeting_events l l' :
  Forall2 sameMeeting l l' ->
  map m_calendarEventId l' = map m_calendarEventId l.
Proof.
  induction 1 as [|x y l l' (_ & _ & H & _) _ IH]; simpl; [reflexivity|].
  rewrite H, IH. reflexivity.
Qed.

Lemma orphanHasSibling_sameRows st st' :
  sameRows st st' -> orphanHasSibling st -> orphanHasSibling st'.
Proof.
  intros Hs Ho m' b' Hm' Hb' Hev Hl.
  destruct (Forall2_In_r _ _ _ _ (same_meetings _ _ Hs) Hm')
    as (m & Hm & (M1 & M2 & M3 & M4 & _)).
  destruct (Forall2_In_r _ _ _ _ (same_bots _ _ Hs) Hb')
    as (b & Hb & (K1 & K2 & K3 & _)).
  rewrite (meetingsOf_length_events st st')
    by (apply sameMeeting_events, (same_meetings _ _ Hs)).
  rewrite K3. apply (Ho m b); congruence.
Qed.

Lemma meetingsOf_snoc st st' m E :
  meetings st' = meetings st ++ [m] ->
  meetingsOf st' E
  = meetingsOf st E ++ (if m_calendarEventId m =? E then [m] else []).
Proof.
  intros H. unfold meetingsOf. rewrite H, filter_app. reflexivity.
Qed.

Lemma meetingsOf_snoc_le st st' m E :
  meetings st' = meetings st ++ [m] ->
  (List.length (meetingsOf st E) <= List.length (meetingsOf st' E))%nat.
Proof.
  intros H. rewrite (meetingsOf_snoc st st' m E H), length_app. lia.
Qed.

Lemma reachable_orphanHasSibling st : reachable st -> orphanHasSibling st.
Proof.
  intros Hr.
  induction Hr as [es gs ss | es gs ss st Hr IH
                   | p now uid eid flag st Hr IH | p now st Hr IH
                   | p now uid mid st Hr IH | st Hr IH | st Hr IH].
  - intros m b [].
  - exact IH.
  - pose proof (reachable_consistent st Hr) as Hc.
    destruct (toggleRecording_rows p now uid eid flag st Hc)
      as [(Eb & [Em | (m & Em & Hnone & _ & Hme & Hnobot)])
         | (b & m & Eb & Em & _ & _ & Hlink & Hev & _ & _ & Hme)];
      intros x y Hx Hy Hxy Hxl; rewrite Eb in Hy; rewrite Em in Hx.
    + unfold meetingsOf. rewrite Em. exact (IH x y Hx Hy Hxy Hxl).
    + apply in_app_or in Hx. destruct Hx as [Hx | [<- | []]].
      * pose proof (IH x y Hx Hy Hxy Hxl) as H2.
        pose proof (meetingsOf_snoc_le st _ m (b_calendarEventId y) Em).
        lia.
      * exfalso. apply (Hnobot y Hy). congruence.
    + apply in_app_or in Hx. destruct Hx as [Hx | [<- | []]]; [|congruence].
      apply in_app_or in Hy. destruct Hy as [Hy | [<- | []]].
      * pose proof (IH x y Hx Hy Hxy Hxl) as H2.
        pose proof (meetingsOf_snoc_le st _ m (b_calendarEventId y) Em).
        lia.
      * rewrite (meetingsOf_snoc st _ m (b_calendarEventId b) Em).
        rewrite Hev, Z.eqb_refl, length_app. simpl.
        assert (Hin : In x (meetingsOf st (m_calendarEventId m))).
        { apply filter_In. split; [exact Hx|]. apply Z.eqb_eq. congruence. }
        destruct (meetingsOf st (m_calendarEventId m)); [destruct Hin|].
        simpl. lia.
  - apply (orphanHasSibling_sameRows st); [apply sameRows_sweep | exact IH].
  - apply (orphanHasSibling_sameRows st);
      [apply sameRows_fetchTranscript | exact IH].
  - intros m b _ [].
  - intros m b [].
Qed.

(** X29. In every database the application reaches, a meeting that names
    no bot while its calendar event has a bot is not the only meeting of
    that event: it was left by an enablement that failed, or by a deletion
    of the bots, before the enablement that created the bot inserted a
    meeting of its own. *)
Theorem reachable_orphan_has_sibling
    (st : Store) (m : Meeting) (b : RecallBot) :
  reachable st ->
  In m (meetings st) -> In b (recallBots st) ->
  m_calendarEventId m = b_calendarEventId b ->
  m_recallBotId m = None ->
  (2 <= List.length (meetingsOf st (m_calendarEventId m)))%nat.
Proof.
  intros Hr Hm Hb Hev Hl. rewrite Hev.
  exact (reachable_orphanHasSibling st Hr m b Hm Hb Hev Hl).
Qed.

End Extras.

(** ** More of the code, on the sample data *)

Local Open Scope list_scope.

Lemma retryWithBackoff_returns_first_success_witness :
  r_outcome (retryWithBackoff flakyOperation MAX_RETRIES RETRY_DELAY)
  = Returned 42 /\
  r_calls (retryWithBackoff flakyOperation MAX_RETRIES RETRY_DELAY) = 3%nat /\
  r_sleeps (retryWithBackoff flakyOperation MAX_RETRIES RETRY_DELAY)
  = [1000; 2000].
Proof.
  refine (retryWithBackoff_returns_first_success flakyOperation MAX_RETRIES
            RETRY_DELAY 2 42 _ _ eq_refl).
  - unfold MAX_RETRIES. lia.
  - intros [|[|j]] Hj; [exists "rate limit"; reflexivity
                       | exists "rate limit"; reflexivity | lia].
Defined.

Lemma reachable_storeCompleted : reachable (RT := sampleRuntime) storeCompleted.
Proof. unfold storeCompleted. apply reach_sweep, reachable_storeScheduled. Qed.

Lemma consistent_storeCompleted : consistent storeCompleted.
Proof.
  exact (reachable_consistent (RT := sampleRuntime) storeCompleted
           reachable_storeCompleted).
Qed.

Lemma createRecallBot_then_lookup_witness :
  let created := createRecallBot 7 1 "rb-1" "scheduled" t0 store0 in
  getRecallBot (snd created) 1 = Some (fst created) /\
  getRecallBotByCalendarEventId (RT := sampleRuntime) (snd created) 1
  = Some (fst created).
Proof.
  intros created.
  pose proof (createRecallBot_then_lookup (RT := sampleRuntime) 7 1 "rb-1"
                "scheduled" t0 store0 (consistent_emptyStore _ _ _) eq_refl)
    as (_ & H2 & H3 & _).
  split; [exact H2 | exact H3].
Defined.

Lemma toggle_stores_flag_of_owned_event_witness :
  getCalendarEvent
    (toggleRecording (RT := sampleRuntime) providerDown t0 7 1 true store0) 1
  = Some (setRecording true sampleEvent).
Proof.
  exact (proj1 (toggle_stores_flag_of_owned_event (RT := sampleRuntime)
                  providerDown t0 7 1 true store0 sampleEvent sampleAccount
                  eq_refl eq_refl eq_refl)).
Defined.

Lemma toggle_refuses_foreign_event_witness :
  toggleRecording (RT := sampleRuntime) providerOk t0 8 1 true store0 = store0.
Proof.
  apply (toggle_refuses_foreign_event (RT := sampleRuntime) providerOk t0 8 1
           true store0).
  intros event account He Ha.
  vm_compute in He. injection He as <-.
  vm_compute in Ha. injection Ha as <-.
  simpl. lia.
Defined.

Lemma toggle_off_or_late_creates_nothing_witness :
  recallBots (toggleRecording (RT := sampleRuntime) providerDown t0 7 1 false
                storeScheduled)
  = recallBots storeScheduled /\
  recallBots (toggleRecording (RT := sampleRuntime) providerOk 1717253700000
                7 1 true store0)
  = [].
Proof.
  split.
  - apply (toggle_off_or_late_creates_nothing (RT := sampleRuntime)
             providerDown t0 7 1 false storeScheduled).
    left. reflexivity.
  - apply (toggle_off_or_late_creates_nothing (RT := sampleRuntime)
             providerOk 1717253700000 7 1 true store0).
    right. exists sampleEvent. split; reflexivity.
Defined.

Lemma toggle_schedules_bot_and_meeting_witness :
  map b_status
    (recallBots (toggleRecording (RT := sampleRuntime) providerOk t0 7 1 true
                   store0)) = ["scheduled"] /\
  map m_recallBotId
    (meetings (toggleRecording (RT := sampleRuntime) providerOk t0 7 1 true
                 store0)) = [Some 1].
Proof.
  assert (H : consistent store0) by apply consistent_emptyStore.
  assert (H7 : 1 <> 0) by lia.
  assert (Hfuture : t0 < 1717253400000) by reflexivity.
  assert (Hlink : "https://zoom.us/j/1" <> "") by discriminate.
  destruct (toggle_schedules_bot_and_meeting (RT := sampleRuntime) providerOk
              t0 7 1 store0 sampleEvent sampleAccount "https://zoom.us/j/1"
              1717253400000
              (JObj [("id", JStr "rb-1")]) (JStr "rb-1") "rb-1"
              H eq_refl eq_refl eq_refl H7 eq_refl eq_refl Hfuture eq_refl
              Hlink eq_refl eq_refl eq_refl) as [Hb Hm].
  rewrite Hb, Hm. split; reflexivity.
Defined.

Lemma toggle_never_posts_past_join_time_witness :
  recallBots (toggleRecording (RT := sampleRuntime) providerDown t0 7 1 true
                store0) = [].
Proof.
  exact (toggle_never_posts_past_join_time (RT := sampleRuntime) providerDown
           t0 7 1 true store0 (fun _ _ => eq_refl)).
Defined.

Lemma fetch_changes_storeCompleted :
  processMeeting (RT := sampleRuntime)
    (providerWithTranscript (snapshotDone []) (JStr "Hello")) t1610
    (sampleBot "completed") storeCompleted <> storeCompleted.
Proof.
  intros H. apply (f_equal (fun st => List.length (log st))) in H.
  vm_compute in H. discriminate.
Qed.

Lemma processMeeting_writes_nonblank_text_once_witness :
  exists meeting transcript,
    getMeetingByCalendarEventId (RT := sampleRuntime) storeCompleted 1
    = Some meeting /\
    nonBlank (RT := sampleRuntime) transcript = true /\
    getMeeting
      (processMeeting (RT := sampleRuntime)
         (providerWithTranscript (snapshotDone []) (JStr "Hello")) t1610
         (sampleBot "completed") storeCompleted) (m_id meeting)
    = Some (applyPatch (transcriptPatch transcript) t1610 meeting) /\
    log (processMeeting (RT := sampleRuntime)
           (providerWithTranscript (snapshotDone []) (JStr "Hello")) t1610
           (sampleBot "completed") storeCompleted)
    = log storeCompleted
      ++ [W_updateMeeting (m_id meeting) (transcriptPatch transcript)].
Proof.
  destruct (processMeeting_writes_nonblank_text_once (RT := sampleRuntime)
              (providerWithTranscript (snapshotDone []) (JStr "Hello")) t1610
              (sampleBot "completed") storeCompleted
              consistent_storeCompleted fetch_changes_storeCompleted)
    as (meeting & t & _ & Hm & _ & _ & _ & Hn & Hg & _ & Hl & _).
  exists meeting, t.
  split; [exact Hm|]. split; [exact Hn|]. split; [exact Hg | exact Hl].
Defined.

Lemma one_open_meeting_storeCompleted (m m' : Meeting) :
  In m (meetings storeCompleted) -> In m' (meetings storeCompleted) ->
  m_calendarEventId m = 1 -> m_calendarEventId m' = 1 ->
  hasTranscript m = false -> hasTranscript m' = false ->
  m_id m = m_id m'.
Proof.
  intros Hm Hm' _ _ _ _. vm_compute in Hm, Hm'.
  destruct Hm as [<- | []], Hm' as [<- | []]. reflexivity.
Qed.

Lemma processMeeting_settles_witness :
  let st := processMeeting (RT := sampleRuntime)
              (providerWithTranscript (snapshotDone []) (JStr "Hello")) t1610
              (sampleBot "completed") storeCompleted in
  processMeeting (RT := sampleRuntime)
    (providerWithTranscript (snapshotDone []) (JStr "Bye")) (t1610 + 60000)
    (sampleBot "completed") st = st.
Proof.
  exact (processMeeting_settles (RT := sampleRuntime)
           (providerWithTranscript (snapshotDone []) (JStr "Hello"))
           (providerWithTranscript (snapshotDone []) (JStr "Bye"))
           t1610 (t1610 + 60000) (sampleBot "completed") storeCompleted
           one_open_meeting_storeCompleted fetch_changes_storeCompleted).
Defined.

Lemma updateBotStatus_twice_witness :
  let p := providerOf (snapshotWithCode "in_call_recording") in
  exists bot',
    fst (updateBotStatus p t0 (sampleBot "scheduled") storeScheduled)
    = Some bot' /\
    updateBotStatus p t1601 bot'
      (snd (updateBotStatus p t0 (sampleBot "scheduled") storeScheduled))
    = (Some bot',
       snd (updateBotStatus p t0 (sampleBot "scheduled") storeScheduled)).
Proof.
  exact (updateBotStatus_twice
           (providerOf (snapshotWithCode "in_call_recording")) t0 t1601
           (sampleBot "scheduled") storeScheduled eq_refl).
Defined.

Lemma sweep_during_outage_changes_nothing_witness :
  sweep (RT := sampleRuntime) providerDown t1610 storeCompleted
  = storeCompleted.
Proof.
  exact (sweep_during_outage_changes_nothing (RT := sampleRuntime)
           providerDown t1610 storeCompleted (fun _ => eq_refl)).
Defined.

Lemma reachable_statuses_are_known_witness :
  knownStatuses storeTranscribed /\
  (forall b, In b (recallBots storeTranscribed) -> b_status b <> "joined").
Proof.
  exact (reachable_statuses_are_known (RT := sampleRuntime) storeTranscribed
           reachable_storeTranscribed).
Defined.

Lemma reachable_links_resolve_witness :
  exists b,
    getRecallBot storeRetried 1 = Some b /\
    b_id b = 1 /\ b_calendarEventId b = 1 /\ b_userId b = 7.
Proof.
  refine (reachable_links_resolve (RT := sampleRuntime) storeRetried
            {| m_id := 2; m_userId := 7; m_calendarEventId := 1;
               m_recallBotId := Some 1; m_title := "Kickoff";
               m_startTime := 1717254000000;
               m_endTime := Some 1717257600000; m_platform := Some "zoom";
               m_transcript := None; m_attendees := JArr [];
               m_status := "scheduled"; m_updatedAt := t0 |}
            1 reachable_storeRetried _ eq_refl).
  vm_compute. right. left. reflexivity.
Defined.

Lemma manual_fetch_changes_storeCompleted :
  fetchTranscript (RT := sampleRuntime)
    (providerWithTranscript (snapshotDone []) (JStr "Hello")) t1610 7 1
    storeCompleted <> storeCompleted.
Proof.
  intros H. apply (f_equal (fun st => List.length (log st))) in H.
  vm_compute in H. discriminate.
Qed.

Lemma fetchTranscript_writes_looked_up_meeting_witness :
  exists target transcript,
    getMeetingByCalendarEventId (RT := sampleRuntime) storeCompleted 1
    = Some target /\
    nonBlank (RT := sampleRuntime) transcript = true /\
    fetchTranscript (RT := sampleRuntime)
      (providerWithTranscript (snapshotDone []) (JStr "Hello")) t1610 7 1
      storeCompleted
    = snd (updateMeeting (m_id target) (transcriptPatch transcript) t1610
             storeCompleted).
Proof.
  destruct (fetchTranscript_writes_looked_up_meeting
              (RT := sampleRuntime)
              (providerWithTranscript (snapshotDone []) (JStr "Hello")) t1610
              7 1 storeCompleted reachable_storeCompleted
              manual_fetch_changes_storeCompleted)
    as (requested & target & t & Hg & _ & Hm & _ & _ & _ & Hn & H).
  exists target, t.
  vm_compute in Hg. injection Hg as <-.
  split; [exact Hm|]. split; [exact Hn | exact H].
Defined.

Lemma processMeeting_later_writes_the_same_witness :
  let p := providerWithTranscript (snapshotDone []) (JStr "Hello") in
  log (processMeeting (RT := sampleRuntime) p (t1610 + 60000)
         (sampleBot "completed") storeCompleted)
  = log (processMeeting (RT := sampleRuntime) p t1610 (sampleBot "completed")
           storeCompleted).
Proof.
  intros p.
  refine (proj1 (processMeeting_later_writes_the_same (RT := sampleRuntime) p
                   t1610 (t1610 + 60000) (sampleBot "completed")
                   storeCompleted _ fetch_changes_storeCompleted)).
  vm_compute. discriminate.
Defined.

Lemma generateEmail_again_returns_stored_email_witness :
  generateEmail (RT := sampleRuntime) generatorDown t1610 7 1
    storeTranscribed contentsWithEmail
  = (EmailContent sampleEmail, contentsWithEmail).
Proof.
  exact (generateEmail_again_returns_stored_email (RT := sampleRuntime)
           sampleGenerator
           generatorDown t1610 t1610 7 1 storeTranscribed noContents
           contentsWithEmail sampleEmail eq_refl).
Defined.

Lemma generateEmail_keeps_one_email_per_meeting_witness :
  (List.length
     (emailsOf (snd (generateEmail (RT := sampleRuntime) sampleGenerator
                       t1610 7 1 storeTranscribed noContents)) 1) <= 1)%nat.
Proof.
  refine (proj1 (generateEmail_keeps_one_email_per_meeting
                   (RT := sampleRuntime) sampleGenerator
                   t1610 7 1 storeTranscribed noContents _) 1).
  intros id. simpl. lia.
Defined.

Lemma generateEmail_writes_one_draft_witness :
  exists emailContent,
    meetingContents (snd (generateEmail (RT := sampleRuntime)
                            sampleGenerator t1610 7 1 storeTranscribed
                            noContents))
    = [{| c_id := 1; c_meetingId := 1; c_type := "follow_up_email";
          c_platform := None; c_automationId := None;
          c_content := emailContent; c_imageUrl := None; c_status := "draft";
          c_publishedAt := None; c_createdAt := t1610;
          c_updatedAt := t1610 |}].
Proof.
  assert (Hne : snd (generateEmail (RT := sampleRuntime) sampleGenerator
                       t1610 7 1 storeTranscribed noContents)
                <> noContents).
  { intros H. apply (f_equal nextContentId) in H. vm_compute in H.
    discriminate. }
  destruct (generateEmail_writes_one_draft (RT := sampleRuntime)
              sampleGenerator t1610 7 1
              storeTranscribed noContents Hne)
    as (meeting & transcript & emailContent & _ & _ & _ & _ & _ & _ & H).
  exists emailContent. rewrite H. reflexivity.
Defined.

(** The second meeting of [storeRetried] names the bot: the run that moves
    the meeting without a bot backward does not move this one backward. *)
Lemma sweep_moves_only_meeting_forward_witness :
  exists m',
    getMeeting
      (sweep (RT := sampleRuntime)
         (providerOf (snapshotWithCode "in_call_recording")) t0 storeRetried)
      2 = Some m' /\
    m_calendarEventId m' = 1 /\
    m_recallBotId m' = Some 1 /\
    meetingRank "scheduled" <= meetingRank (m_status m').
Proof.
  refine (sweep_moves_only_meeting_forward (RT := sampleRuntime)
            (providerOf (snapshotWithCode "in_call_recording")) t0
            storeRetried
            {| m_id := 2; m_userId := 7; m_calendarEventId := 1;
               m_recallBotId := Some 1; m_title := "Kickoff";
               m_startTime := 1717254000000;
               m_endTime := Some 1717257600000; m_platform := Some "zoom";
               m_transcript := None; m_attendees := JArr [];
               m_status := "scheduled"; m_updatedAt := t0 |}
            reachable_storeRetried _ _).
  - vm_compute. right. left. reflexivity.
  - left. discriminate.
Defined.

(** The meeting that the failed attempt left in [storeRetried] names no
    bot, and the event has the bot of the second attempt: the event has
    two meetings. *)
Lemma reachable_orphan_has_sibling_witness :
  (2 <= List.length (meetingsOf storeRetried 1))%nat.
Proof.
  refine (reachable_orphan_has_sibling (RT := sampleRuntime) storeRetried
            {| m_id := 1; m_userId := 7; m_calendarEventId := 1;
               m_recallBotId := None; m_title := "Kickoff";
               m_startTime := 1717254000000;
               m_endTime := Some 1717257600000; m_platform := Some "zoom";
               m_transcript := Some "Failed to create recording bot";
               m_attendees := JArr []; m_status := "failed";
               m_updatedAt := t0 |}
            (sampleBot "scheduled") reachable_storeRetried _ _ eq_refl
            eq_refl).
  - vm_compute. left. reflexivity.
  - vm_compute. left. reflexivity.
Defined.
